(** * US-ITC teaching notebooks: a shallow embedding of the computing cells

    The notebooks of the repository are linear sequences of calls into
    NumPy, Jax, SciPy, pandas and Dask.  This development embeds the cells
    that carry program logic of their own:

    - [DynamicProgramming/JobSearch_Jax.ipynb]: the Bellman operator [Tv] /
      [Tv_jax] and the value-function iteration [McCall_VFI] /
      [McCall_VFI_jax];
    - [Optimization/RootFinding.ipynb]: [FOC_AC] and [avg_cost];
    - [BigData/BigDataTechniques.ipynb]: the downcast cell with
      [describe], [full_data] and [chunked_data];
    - the Dask notebook: [pd_profile_func], [dd_profile_func], the two
      profiling scripts and the clean-up cell, as transformers of a file
      system.

    The definitions come first, the lemmas and the claims after them.

    Conventions.  Floating-point numbers are read as exact reals ([R]), so
    [inf] and [nan] have no counterpart: statements that depend on a division
    carry the hypothesis that the divisor is not zero.  Python [int]s are
    [Z].  One-dimensional arrays are lists.  A call that can raise returns a
    [result]. *)

From Stdlib Require Import Reals Lra Lia List ZArith String.
From Equations Require Import Equations.
From stdpp Require Import gmap strings.
Import ListNotations.

Open Scope R_scope.

(** ** Exceptions *)

Inductive exn : Set :=
| ValueError
| OSError
| FileNotFoundError
| FileExistsError
| IsADirectoryError.

Inductive result (A : Type) : Type :=
| Ok (a : A)
| Raise (e : exn).
Arguments Ok {A} a.
Arguments Raise {A} e.

Definition bind {A B : Type} (m : result A) (k : A -> result B) : result B :=
  match m with
  | Ok a => k a
  | Raise e => Raise e
  end.

Notation "'let!' x ':=' m 'in' k" := (bind m (fun x => k))
  (at level 10, x name, m at level 100, k at level 200).

(** ** One-dimensional arrays *)

Definition ndarray : Type := list R.

(** Element-wise binary operators follow NumPy's broadcasting rule for
    shapes [(n,)] and [(m,)]: equal sizes pair up, a size-one operand is
    stretched, anything else raises [ValueError]. *)
Fixpoint zip_with (f : R -> R -> R) (a b : ndarray) : ndarray :=
  match a, b with
  | x :: a', y :: b' => f x y :: zip_with f a' b'
  | _, _ => []
  end.

Definition broadcast (f : R -> R -> R) (a b : ndarray) : result ndarray :=
  if Nat.eqb (length a) (length b) then Ok (zip_with f a b)
  else match a, b with
       | [x], _ => Ok (map (f x) b)
       | _, [y] => Ok (map (fun x => f x y) a)
       | _, _ => Raise ValueError
       end.

(** [a * b], [a - b] on arrays; [a / s] with a scalar on the right.  For
    [s = 0] NumPy answers [inf] or [nan], which [R] does not have: the
    quotient agrees with the code for [s <> 0], and the statements about
    values of [Tv] or of the set-up of [McCall_VFI] assume [beta < 1] and a
    positive sum of the density. *)
Definition multiply : ndarray -> ndarray -> result ndarray := broadcast Rmult.
Definition subtract : ndarray -> ndarray -> result ndarray := broadcast Rminus.
Definition divide_scalar (a : ndarray) (s : R) : ndarray := map (fun x => x / s) a.

Module Np.

(** [np.sum]: accumulation from the left. *)
Definition sum (a : ndarray) : R := fold_left Rplus a 0.

(** [np.maximum(a, s)] with a scalar second operand. *)
Definition maximum (a : ndarray) (s : R) : ndarray := map (fun x => Rmax x s) a.

Definition abs (a : ndarray) : ndarray := map Rabs a.

(** [a.max()]: raises [ValueError] on a zero-size array. *)
Definition max (a : ndarray) : result R :=
  match a with
  | [] => Raise ValueError
  | x :: a' => Ok (fold_left Rmax a' x)
  end.

Definition zeros (size : nat) : ndarray := repeat 0 size.

(** [np.linspace(start, stop, num)] with the end point included. *)
Definition linspace (start stop : R) (num : Z) : result ndarray :=
  if (num <? 0)%Z then Raise ValueError
  else
    let div := (num - 1)%Z in
    let step := (stop - start) / IZR div in
    Ok (map (fun i => start + INR i * step) (seq 0 (Z.to_nat num))).

End Np.

Module Jnp.

(** [jnp.sum]: the reduction order of the device is not that of NumPy;
    the embedding associates to the right. *)
Definition sum (a : ndarray) : R := fold_right Rplus 0 a.

Definition maximum (a : ndarray) (s : R) : ndarray := map (fun x => Rmax x s) a.

Definition abs (a : ndarray) : ndarray := map Rabs a.

Definition max (a : ndarray) : result R :=
  match a with
  | [] => Raise ValueError
  | x :: a' => Ok (fold_right Rmax x a')
  end.

(** [jax.device_put] moves an array to the device and keeps its values. *)
Definition device_put (a : ndarray) : ndarray := a.

End Jnp.

Module Stats.

(** Density of the standard log-normal with shape [s] ([lognorm._pdf]):
    zero outside the support.  SciPy answers [nan] for [s <= 0] or a scale
    [<= 0]; the statements below that use values of the density assume both
    positive. *)
Definition lognorm_std_pdf (y s : R) : R :=
  if Rlt_dec 0 y
  then / (s * y * sqrt (2 * PI)) * exp (- (ln y * ln y) / (2 * (s * s)))
  else 0.

(** [stats.lognorm.pdf(x, s=s, scale=scale)] on an array (location 0). *)
Definition lognorm_pdf (x : ndarray) (s scale : R) : ndarray :=
  map (fun w => lognorm_std_pdf (w / scale) s / scale) x.

End Stats.

(** ** JobSearch_Jax.ipynb *)

(** Bellman operator, NumPy version. *)
Definition Tv (V : ndarray) (b beta : R) (p wages : ndarray) : result ndarray :=
  let! Vp := multiply V p in
  let EV := Np.sum Vp in
  let v_search := b + beta * EV in
  let v_accept := divide_scalar wages (1 - beta) in
  let TV := Np.maximum v_accept v_search in
  Ok TV.

(** Bellman operator, Jax version. *)
Definition Tv_jax (V : ndarray) (b beta : R) (p wages : ndarray) : result ndarray :=
  let! Vp := multiply V p in
  let EV := Jnp.sum Vp in
  let v_search := b + beta * EV in
  let v_accept := divide_scalar wages (1 - beta) in
  let TV := Jnp.maximum v_accept v_search in
  Ok TV.

(** The variables the [while] loop of [McCall_VFI] reads and writes. *)
Record loop_state : Type := LoopState {
  st_V : ndarray;
  st_v_dist : R;
  st_iter : Z
}.

(** How the loop stops: its guard fails ([Exit]) or a pass raises
    ([Abort]); both carry the variables as they are at that point. *)
Inductive halt : Type :=
| Exit (s : loop_state)
| Abort (e : exn) (s : loop_state).

Definition halt_state (h : halt) : loop_state :=
  match h with
  | Exit s => s
  | Abort _ s => s
  end.

Section While.

(** One pass computes [TV] and the new [v_dist]. *)
Variable pass : ndarray -> result (ndarray * R).
Variable v_tol : R.
Variable max_iter : Z.

(** [(v_dist > v_tol) & (iter < max_iter)] *)
Definition loop_guard (v_dist : R) (iter : Z) :
  {v_dist > v_tol /\ (iter < max_iter)%Z} + {~ (v_dist > v_tol /\ (iter < max_iter)%Z)}.
Proof.
  destruct (Rgt_dec v_dist v_tol) as [Hd | Hd].
  - destruct (Z_lt_dec iter max_iter) as [Hi | Hi].
    + left. split; assumption.
    + right. intros [_ H]. exact (Hi H).
  - right. intros [H _]. exact (Hd H).
Defined.

Equations? while_loop (V : ndarray) (v_dist : R) (it : Z) : halt
  by wf (Z.to_nat (max_iter - it)) lt :=
  while_loop V v_dist it with loop_guard v_dist it := {
    | left _ with pass V := {
        | Ok (TV, d) => while_loop TV d (it + 1)%Z ;
        | Raise e => Abort e (LoopState V v_dist it) } ;
    | right _ => Exit (LoopState V v_dist it) }.
Proof. lia. Qed.

End While.

(** Body of the loop, NumPy version:
    [TV = Tv(V, b, beta, p, wages); v_dist = np.abs(V-TV).max()]. *)
Definition McCall_pass (b beta : R) (p wages V : ndarray) : result (ndarray * R) :=
  let! TV := Tv V b beta p wages in
  let! D := subtract V TV in
  let! v_dist := Np.max (Np.abs D) in
  Ok (TV, v_dist).

Definition McCall_pass_jax (b beta : R) (p wages V : ndarray) : result (ndarray * R) :=
  let! TV := Tv_jax V b beta p wages in
  let! D := subtract V TV in
  let! v_dist := Jnp.max (Jnp.abs D) in
  Ok (TV, v_dist).

(** Everything before the loop: the wage grid, the normalised probabilities
    and the unemployment benefit. *)
Record setup : Type := Setup {
  su_wages : ndarray;
  su_p : ndarray;
  su_b : R
}.

Definition McCall_setup (theta mu sigma w_min w_max : R) (n : Z) : result setup :=
  let! wages := Np.linspace w_min w_max (n + 1) in
  let p := Stats.lognorm_pdf wages sigma mu in
  let p := divide_scalar p (Np.sum p) in
  let! wp := multiply wages p in
  let expected_wage := Np.sum wp in
  let b := theta * expected_wage in
  Ok (Setup wages p b).

(** [McCall_VFI] up to the point where it stops, with the loop variables. *)
Definition McCall_VFI_run (theta beta mu sigma w_min w_max : R) (n : Z)
    (v_tol : R) (max_iter : Z) : result halt :=
  let! su := McCall_setup theta mu sigma w_min w_max n in
  let wages := su_wages su in
  let p := su_p su in
  let b := su_b su in
  let V := Np.zeros (length wages) in
  let phi := Np.zeros (length wages) in
  let v_dist := 10 in
  let iter := 0%Z in
  Ok (while_loop (McCall_pass b beta p wages) v_tol max_iter V v_dist iter).

Definition returned (r : result halt) : result ndarray :=
  match r with
  | Ok (Exit s) => Ok (st_V s)
  | Ok (Abort e _) => Raise e
  | Raise e => Raise e
  end.

Definition McCall_VFI (theta beta mu sigma w_min w_max : R) (n : Z)
    (v_tol : R) (max_iter : Z) : result ndarray :=
  returned (McCall_VFI_run theta beta mu sigma w_min w_max n v_tol max_iter).

Definition McCall_VFI_jax_run (theta beta mu sigma w_min w_max : R) (n : Z)
    (v_tol : R) (max_iter : Z) : result halt :=
  let! su := McCall_setup theta mu sigma w_min w_max n in
  let wages := su_wages su in
  let p := su_p su in
  let b := su_b su in
  let V := Np.zeros (length wages) in
  let phi := Np.zeros (length wages) in
  let wages := Jnp.device_put wages in
  let p := Jnp.device_put p in
  let V := Jnp.device_put V in
  let phi := Jnp.device_put phi in
  let v_dist := 10 in
  let iter := 0%Z in
  Ok (while_loop (McCall_pass_jax b beta p wages) v_tol max_iter V v_dist iter).

Definition McCall_VFI_jax (theta beta mu sigma w_min w_max : R) (n : Z)
    (v_tol : R) (max_iter : Z) : result ndarray :=
  returned (McCall_VFI_jax_run theta beta mu sigma w_min w_max n v_tol max_iter).

(** Number of passes the loop started. *)
Definition passes (r : result halt) : Z :=
  match r with
  | Ok (Exit s) => st_iter s
  | Ok (Abort _ s) => st_iter s + 1
  | Raise _ => 0
  end.

(** *** Reference notions for the value-function iteration *)

(** [Tv] on vectors of the grid's size, where no call raises. *)
Definition bellman (b beta : R) (p wages V : ndarray) : ndarray :=
  Np.maximum (divide_scalar wages (1 - beta))
             (b + beta * Np.sum (zip_with Rmult V p)).

(** Sup norm: the largest absolute entry ([0] for no entry). *)
Definition sup_norm (D : ndarray) : R :=
  fold_right (fun x m => Rmax (Rabs x) m) 0 D.

Definition sup_dist (V TV : ndarray) : R := sup_norm (zip_with Rminus V TV).

(** [k] applications of [Tv] to the all-zero guess, as the code makes them. *)
Fixpoint VFI_iterate (b beta : R) (p wages : ndarray) (k : nat) : result ndarray :=
  match k with
  | O => Ok (Np.zeros (length wages))
  | S j => let! V := VFI_iterate b beta p wages j in Tv V b beta p wages
  end.

Definition vfi_V (b beta : R) (p wages : ndarray) (k : nat) : ndarray :=
  Nat.iter k (bellman b beta p wages) (Np.zeros (length wages)).

(** Value of [v_dist] after [k] passes: the initial [10], then the sup-norm
    distance between the last two iterates. *)
Definition vfi_dist (b beta : R) (p wages : ndarray) (k : nat) : R :=
  match k with
  | O => 10
  | S j => sup_dist (vfi_V b beta p wages j) (vfi_V b beta p wages (S j))
  end.

(** Sequence of [v_dist] values of a loop whose passes compute [F] and [Dst]. *)
Definition dist_seq (F : ndarray -> ndarray) (Dst : ndarray -> R)
    (d0 : R) (V : ndarray) (k : nat) : R :=
  match k with
  | O => d0
  | S j => Dst (Nat.iter j F V)
  end.

(** Two results compare when both are arrays, entry by entry, or both raise
    the same exception. *)
Definition result_le (r r' : result ndarray) : Prop :=
  match r, r' with
  | Ok a, Ok a' => Forall2 Rle a a'
  | Raise e, Raise e' => e = e'
  | _, _ => False
  end.

Definition array_le (a a' : ndarray) : Prop := Forall2 Rle a a'.

(** Entries do not decrease with the index. *)
Definition nondecreasing (a : ndarray) : Prop :=
  forall i j, (i <= j < length a)%nat -> nth i a 0 <= nth j a 0.

(** The reading of "the loop iterates until convergence": the run leaves the
    loop normally with [v_dist <= v_tol]. *)
Definition converged_at_return (theta beta mu sigma w_min w_max : R) (n : Z)
    (v_tol : R) (max_iter : Z) : Prop :=
  exists s,
    McCall_VFI_run theta beta mu sigma w_min w_max n v_tol max_iter = Ok (Exit s)
    /\ st_v_dist s <= v_tol.

(** ** RootFinding.ipynb *)

(** First-order condition of the average-cost problem, [-a * x ** -2 + c]
    (for [x <> 0]; the claims are about [x > 0]). *)
Definition FOC_AC (x : R) (params : R * R * R) : R :=
  let '(a, b, c) := params in
  let error := - a * / (x ^ 2) + c in
  error.

(** Average cost, [a * (x ** -1) + b + c * x]. *)
Definition avg_cost (x : R) (params : R * R * R) : R :=
  let '(a, b, c) := params in
  let ac := a * / x + b + c * x in
  ac.

(** The closed form the notebook prints, [(a/c) ** (1/2)]. *)
Definition analytical_solution (a c : R) : R := sqrt (a / c).

(** ** BigDataTechniques.ipynb *)

(** The [export_value] column of a table; [None] is a missing entry. *)
Definition column : Type := list (option R).

(** [Series.sum()] and [Series.count()] skip the missing entries. *)
Definition series_sum (c : column) : R :=
  fold_right (fun v acc => match v with Some x => x + acc | None => acc end) 0 c.

Definition series_count (c : column) : Z :=
  fold_right (fun v acc => match v with Some _ => (1 + acc)%Z | None => acc end) 0%Z c.

(** [total / count]; the quotient is undefined ([None]) for a zero count. *)
Definition true_divide (total : R) (count : Z) : option R :=
  if (count =? 0)%Z then None else Some (total / IZR count).

(** [Series.mean()]: the sum of the present entries over their number. *)
Definition series_mean (c : column) : option R :=
  true_divide (series_sum c) (series_count c).

(** Consecutive chunks of [S k] rows; the last one may be shorter. *)
Equations? split_chunks (k : nat) (rows : column) : list column
  by wf (length rows) lt :=
  split_chunks k [] := [];
  split_chunks k (r :: rows) :=
    firstn (S k) (r :: rows) :: split_chunks k (skipn (S k) (r :: rows)).
Proof. pose proof (length_skipn k rows). simpl. lia. Qed.

(** [pd.read_csv(DATA_FILE, chunksize=chunksize)] as the list of the chunks
    it yields; a table without rows comes as one empty chunk. *)
Definition read_csv_chunks (chunksize : Z) (table : column) : result (list column) :=
  if (chunksize <? 1)%Z then Raise ValueError
  else Ok (match table with
           | [] => [[]]
           | _ => split_chunks (Z.to_nat chunksize - 1) table
           end).

(** The value [full_data] prints. *)
Definition full_data (table : column) : option R :=
  let df := table in
  let mean_exports := series_mean df in
  mean_exports.

(** The [for] loop of [chunked_data] over the chunks. *)
Definition chunked_loop (chunks : list column) : R * Z :=
  fold_left (fun '(total, count) chunk =>
               (total + series_sum chunk, (count + series_count chunk)%Z))
            chunks (0, 0%Z).

(** The value [chunked_data] prints. *)
Definition chunked_data (table : column) : result (option R) :=
  let chunksize := 100000%Z in
  let! df := read_csv_chunks chunksize table in
  let! chunks := read_csv_chunks chunksize table in
  let '(total, count) := chunked_loop chunks in
  Ok (true_divide total count).

(** *** Efficient data types: the downcast cell and [describe]

    [pd.to_numeric] and [DataFrame.describe] are pandas' own; they are
    embedded as the library defines them ([pandas/core/tools/numeric.py],
    [maybe_downcast_numeric] of [pandas/core/dtypes/cast.py]), for the two
    uses the cell makes of them. *)

(** The dtypes the columns take, with [dtype.kind] and [dtype.itemsize]. *)
Inductive dtype : Set :=
| int64 | uint8 | uint16 | uint32 | uint64 | float32 | float64.

Inductive dtype_kind : Set := kind_i | kind_u | kind_f.

Definition kind (d : dtype) : dtype_kind :=
  match d with
  | int64 => kind_i
  | uint8 | uint16 | uint32 | uint64 => kind_u
  | float32 | float64 => kind_f
  end.

Definition itemsize (d : dtype) : Z :=
  match d with
  | uint8 => 1
  | uint16 => 2
  | uint32 | float32 => 4
  | int64 | uint64 | float64 => 8
  end%Z.

Definition kind_eqb (k k' : dtype_kind) : bool :=
  match k, k' with
  | kind_i, kind_i | kind_u, kind_u | kind_f, kind_f => true
  | _, _ => false
  end.

Definition dtype_eqb (d d' : dtype) : bool :=
  match d, d' with
  | int64, int64 | uint8, uint8 | uint16, uint16 | uint32, uint32
  | uint64, uint64 | float32, float32 | float64, float64 => true
  | _, _ => false
  end.

(** A column: its dtype and its entries.  Integer columns hold [Z], float
    columns hold [option R] with [None] for [nan]. *)
Record Series (A : Type) : Type := MkSeries { s_dtype : dtype; s_values : list A }.
Arguments MkSeries {A} s_dtype s_values.
Arguments s_dtype {A} s.
Arguments s_values {A} s.

(** [ndarray.astype] to an integer dtype wraps around. *)
Definition astype_int (d : dtype) (v : Z) : Z :=
  match kind d with
  | kind_u => v mod 2 ^ (8 * itemsize d)
  | kind_i => (v + 2 ^ (8 * itemsize d - 1)) mod 2 ^ (8 * itemsize d)
              - 2 ^ (8 * itemsize d - 1)
  | kind_f => v
  end%Z.

(** [np.isclose(a, b, rtol=0, atol=atol, equal_nan=True)] on one entry and
    [np.allclose] on arrays of one size. *)
Definition isclose (atol : R) (a b : option R) : bool :=
  match a, b with
  | Some x, Some y => if Rle_dec (Rabs (x - y)) atol then true else false
  | None, None => true
  | _, _ => false
  end.

Definition allclose (atol : R) (a b : column) : bool :=
  forallb (fun ab => isclose atol (fst ab) (snd ab)) (combine a b).

(** An integer column as the floats the comparison sees. *)
Definition to_float (values : list Z) : column := map (fun v => Some (IZR v)) values.

(** [maybe_downcast_numeric(result, dtype)] for an integer column and an
    integer [dtype]: no upcast within a kind; an empty column is cast; the
    cast is kept when it changed no entry ([np.allclose] with [rtol=0] and
    the default [atol=1e-8]), and given up otherwise. *)
Definition maybe_downcast_numeric (result : Series Z) (d : dtype) : Series Z :=
  if kind_eqb (kind d) (kind (s_dtype result))
     && (itemsize (s_dtype result) <=? itemsize d)%Z
     && negb (Nat.eqb (length (s_values result)) 0)
  then result
  else
    match kind d with
    | kind_f => result
    | _ =>
        match s_values result with
        | [] => MkSeries d (map (astype_int d) (s_values result))
        | _ =>
            let new_result := map (astype_int d) (s_values result) in
            if allclose (1 / 10 ^ 8) (to_float new_result) (to_float (s_values result))
            then MkSeries d new_result
            else result
        end
    end.

(** The loop of [to_numeric] over the candidate dtypes, from the smallest:
    a dtype wider than the column is skipped, and the first dtype the column
    takes ends the loop. *)
Fixpoint downcast_loop {A : Type} (maybe_downcast : Series A -> dtype -> Series A)
    (typecodes : list dtype) (values : Series A) : Series A :=
  match typecodes with
  | [] => values
  | d :: typecodes' =>
      if (itemsize d <=? itemsize (s_dtype values))%Z
      then
        let values' := maybe_downcast values d in
        if dtype_eqb (s_dtype values') d then values'
        else downcast_loop maybe_downcast typecodes' values'
      else downcast_loop maybe_downcast typecodes' values
  end.

(** [np.min(values) >= 0] for a column with entries. *)
Definition min_nonneg (values : list Z) : bool :=
  match values with
  | [] => true
  | v :: vs => (0 <=? fold_left Z.min vs v)%Z
  end.

(** [pd.to_numeric(s, downcast="unsigned")] on a numeric integer column: the
    unsigned dtypes are tried when the column is empty or has no negative
    entry. *)
Definition to_numeric_unsigned (s : Series Z) : Series Z :=
  if Nat.eqb (length (s_values s)) 0 || min_nonneg (s_values s)
  then downcast_loop maybe_downcast_numeric [uint8; uint16; uint32; uint64] s
  else s.

Section Float32.

(** The cast of a [float64] to [float32]: the nearest [float32], or [None]
    where the cast overflows to [inf].  Nothing is assumed of it. *)
Variable astype_float32 : R -> option R.

Definition astype_float (d : dtype) (x : option R) : option (option R) :=
  match x with
  | None => Some None
  | Some v =>
      match d with
      | float32 => match astype_float32 v with Some y => Some (Some y) | None => None end
      | _ => Some (Some v)
      end
  end.

(** The cast of a whole column; [None] when an entry overflowed. *)
Fixpoint astype_column (d : dtype) (values : column) : option column :=
  match values with
  | [] => Some []
  | x :: values' =>
      match astype_float d x, astype_column d values' with
      | Some y, Some new => Some (y :: new)
      | _, _ => None
      end
  end.

(** [size_tols = {4: 5e-4, 8: 5e-8, 16: 5e-16}] *)
Definition size_tols (d : dtype) : R :=
  match itemsize d with
  | 4%Z => 5 / 10 ^ 4
  | 8%Z => 5 / 10 ^ 8
  | _ => 0
  end.

(** [maybe_downcast_numeric(result, dtype)] for a float column and a float
    [dtype]: the cast is kept when every entry stayed within the absolute
    tolerance of its size ([rtol=0], [equal_nan=True]). *)
Definition maybe_downcast_numeric_float (result : Series (option R)) (d : dtype)
    : Series (option R) :=
  if kind_eqb (kind d) (kind (s_dtype result))
     && (itemsize (s_dtype result) <=? itemsize d)%Z
     && negb (Nat.eqb (length (s_values result)) 0)
  then result
  else
    match kind d with
    | kind_f =>
        match astype_column d (s_values result) with
        | Some new_result =>
            let atol := size_tols d in
            if allclose atol new_result (s_values result)
            then MkSeries d new_result
            else result
        | None => result
        end
    | _ => result
    end.

(** [pd.to_numeric(s, downcast="float")]: [float32], then [float64]. *)
Definition to_numeric_float (s : Series (option R)) : Series (option R) :=
  downcast_loop maybe_downcast_numeric_float [float32; float64] s.

(** The nine columns of the trade data. *)
Record DataFrame : Type := MkDataFrame {
  country_id : Series Z;
  partner_country_id : Series Z;
  year : Series Z;
  product_id : Series Z;
  export_value : Series (option R);
  import_value : Series (option R);
  coi : Series (option R);
  eci : Series (option R);
  pci : Series (option R)
}.

(** The downcast cell: [df2] from [df]. *)
Definition downcast_cell (df : DataFrame) : DataFrame :=
  let df2 := df in
  {| country_id := to_numeric_unsigned (country_id df2);
     partner_country_id := to_numeric_unsigned (partner_country_id df2);
     product_id := to_numeric_unsigned (product_id df2);
     year := to_numeric_unsigned (year df2);
     export_value := to_numeric_float (export_value df2);
     import_value := to_numeric_float (import_value df2);
     coi := to_numeric_float (coi df2);
     eci := to_numeric_float (eci df2);
     pci := to_numeric_float (pci df2) |}.

End Float32.

(** [Series.dropna] *)
Definition dropna (c : column) : list R :=
  flat_map (fun v => match v with Some x => [x] | None => [] end) c.

(** Sorting, by insertion. *)
Fixpoint insert_value (a : R) (l : list R) : list R :=
  match l with
  | [] => [a]
  | x :: l' => if Rle_dec a x then a :: l else x :: insert_value a l'
  end.

Fixpoint sort_values (l : list R) : list R :=
  match l with
  | [] => []
  | a :: l' => insert_value a (sort_values l')
  end.

(** [Series.std()], with [ddof=1]: undefined for fewer than two entries. *)
Definition sq_dev (m : R) (xs : list R) : R :=
  fold_right (fun x acc => (x - m) * (x - m) + acc) 0 xs.

Definition sum_sq_dev (xs : list R) : R :=
  let m := fold_right Rplus 0 xs / INR (length xs) in
  sq_dev m xs.

Definition series_std (c : column) : option R :=
  let xs := dropna c in
  if (length xs <=? 1)%nat then None
  else Some (sqrt (sum_sq_dev xs / (INR (length xs) - 1))).

(** [Series.min()], [Series.max()] *)
Definition series_min (c : column) : option R :=
  match dropna c with
  | [] => None
  | x :: xs => Some (fold_left Rmin xs x)
  end.

Definition series_max (c : column) : option R :=
  match dropna c with
  | [] => None
  | x :: xs => Some (fold_left Rmax xs x)
  end.

(** [Series.quantile(q)], linear interpolation: with the sorted entries
    [xs], the value at the position [(len(xs) - 1) * q]. *)
Definition series_quantile (q : R) (c : column) : option R :=
  let xs := sort_values (dropna c) in
  match xs with
  | [] => None
  | _ =>
      let h := (INR (length xs) - 1) * q in
      let lo := Z.to_nat (Int_part h) in
      let hi := Nat.min (lo + 1) (length xs - 1) in
      let gamma := frac_part h in
      Some (nth lo xs 0 + gamma * (nth hi xs 0 - nth lo xs 0))
  end.

(** One column of [DataFrame.describe()]. *)
Record Describe : Type := MkDescribe {
  d_count : Z;
  d_mean : option R;
  d_std : option R;
  d_min : option R;
  d_25 : option R;
  d_50 : option R;
  d_75 : option R;
  d_max : option R
}.

Definition describe (c : column) : Describe :=
  {| d_count := series_count c;
     d_mean := series_mean c;
     d_std := series_std c;
     d_min := series_min c;
     d_25 := series_quantile (1 / 4) c;
     d_50 := series_quantile (1 / 2) c;
     d_75 := series_quantile (3 / 4) c;
     d_max := series_max c |}.

(** Two statistics agree to [tol]: both undefined, or both defined and at
    most [tol] apart. *)
Definition stat_close (tol : R) (a b : option R) : Prop :=
  match a, b with
  | Some x, Some y => Rabs (x - y) <= tol
  | None, None => True
  | _, _ => False
  end.

(** The rows of [df2.describe() - df.describe()] for one column are zero
    ([count]) or at most [tol] in size ([sqrt 2 * tol] for [std]). *)
Definition describe_close (tol : R) (d2 d1 : Describe) : Prop :=
  d_count d2 = d_count d1
  /\ stat_close tol (d_mean d2) (d_mean d1)
  /\ stat_close (sqrt 2 * tol) (d_std d2) (d_std d1)
  /\ stat_close tol (d_min d2) (d_min d1)
  /\ stat_close tol (d_25 d2) (d_25 d1)
  /\ stat_close tol (d_50 d2) (d_50 d1)
  /\ stat_close tol (d_75 d2) (d_75 d1)
  /\ stat_close tol (d_max d2) (d_max d1).

(** The entries of a dtype: what an unsigned type of that size can hold. *)
Definition fits (d : dtype) (v : Z) : Prop := (0 <= v < 2 ^ (8 * itemsize d))%Z.

(** Two reals at most [tol] apart; a list in non-decreasing order. *)
Definition within (tol x y : R) : Prop := Rabs (x - y) <= tol.

Fixpoint sorted (l : list R) : Prop :=
  match l with
  | [] => True
  | x :: l' => match l' with [] => True | y :: _ => x <= y end /\ sorted l'
  end.

(** The squared distance between two lists, each taken from a centre of its
    own. *)
Definition sq_gap (cx cy : R) (xs ys : list R) : R :=
  fold_right (fun p acc =>
                ((snd p - cy) - (fst p - cx)) * ((snd p - cy) - (fst p - cx)) + acc)
             0 (combine xs ys).

(** ** Dask notebook: what the cells do to the file system *)

Inductive node (bytes : Type) : Type :=
| File (content : bytes)
| Dir.
Arguments File {bytes} content.
Arguments Dir {bytes}.

(** [os.path.join] *)
Definition path_join (a b : string) : string := a +:+ "/" +:+ b.

(** Paths are taken relative to [CUR_DIR]. *)
Definition DATA_DIR : string := "data".
Definition DATA_FILE : string := path_join DATA_DIR "trade_data_1962_to_2022.csv".
Definition DATA_FILE2 : string :=
  path_join DATA_DIR "sitc_country_country_product_year_4_2022.dta".

Section Notebook.

(** File contents, and what the library calls render from the data they are
    given: the merged frame as one CSV file (pandas) and as the CSV file of
    one partition (Dask). *)
Variable bytes : Type.
Variable merged_csv : bytes -> bytes.
Variable merged_part_csv : bytes -> bytes.

(** A cell runs on the file system and leaves it changed, also when it
    raises. *)
Definition cell (A : Type) : Type :=
  gmap string (node bytes) -> result A * gmap string (node bytes).

Definition cell_bind {A B : Type} (c : cell A) (k : A -> cell B) : cell B :=
  fun fs =>
    match c fs with
    | (Ok a, fs') => k a fs'
    | (Raise e, fs') => (Raise e, fs')
    end.

Notation "'do' x '<-' c ';' k" := (cell_bind c (fun x => k))
  (at level 10, x name, c at level 100, k at level 200).
Notation "c ';;' k" := (cell_bind c (fun _ => k))
  (at level 100, k at level 200).

(** Opening a file for reading ([pd.read_csv], [pd.read_stata],
    [dd.read_csv]). *)
Definition read_file (path : string) : cell bytes :=
  fun fs =>
    match fs !! path with
    | Some (File content) => (Ok content, fs)
    | Some Dir => (Raise IsADirectoryError, fs)
    | None => (Raise FileNotFoundError, fs)
    end.

(** pandas [DataFrame.to_csv(os.path.join(dir, name))]: one file, created
    or overwritten, in a directory that exists ([OSError] otherwise). *)
Definition pandas_to_csv (dir name : string) (content : bytes) : cell unit :=
  fun fs =>
    match fs !! dir with
    | Some Dir =>
        match fs !! path_join dir name with
        | Some Dir => (Raise IsADirectoryError, fs)
        | _ => (Ok tt, <[path_join dir name := File content]> fs)
        end
    | _ => (Raise OSError, fs)
    end.

(** Dask [DataFrame.to_csv(os.path.join(dir, name))] of a frame with one
    partition: a path without [*] names a directory, made if need be, that
    receives one file per partition, here [0.part].  The notebook comes to
    this call after pandas has written into [dir], so [dir] is a directory;
    a missing [dir] (Dask would make it) and a plain file at [dir] (Dask
    raises) are not modelled. *)
Definition dask_to_csv (dir name : string) (content : bytes) : cell unit :=
  fun fs =>
    match fs !! path_join dir name with
    | Some (File _) => (Raise FileExistsError, fs)
    | _ =>
        (Ok tt,
         <[path_join (path_join dir name) "0.part" := File content]>
           (<[path_join dir name := Dir]> fs))
    end.

(** [os.remove]: deletes a file; on a directory it raises (an [OSError],
    [IsADirectoryError] on Linux) and deletes nothing; it raises on a path
    that does not exist. *)
Definition os_remove (path : string) : cell unit :=
  fun fs =>
    match fs !! path with
    | Some (File _) => (Ok tt, delete path fs)
    | Some Dir => (Raise IsADirectoryError, fs)
    | None => (Raise FileNotFoundError, fs)
    end.

(** A [!command] line: the notebook goes on whatever the command does. *)
Definition shell (c : cell unit) : cell unit :=
  fun fs => (Ok tt, snd (c fs)).

(** [pd_profile_func] and [dd_profile_func]: the merged frame goes to a
    CSV file in the data directory. *)
Definition pd_profile_func (trade_data : bytes) : cell unit :=
  pandas_to_csv DATA_DIR "trade_merged_pd.csv" (merged_csv trade_data).

Definition dd_profile_func (trade_data : bytes) : cell unit :=
  dask_to_csv DATA_DIR "trade_merged_dd.csv" (merged_part_csv trade_data).

(** [pandas-mem-profile.py], by the listing the notebook shows. *)
Definition pandas_mem_profile : cell unit :=
  do trade_data <- read_file DATA_FILE2;
  pandas_to_csv DATA_DIR "trade_merged_pd.csv" (merged_csv trade_data).

(** [dask-mem-profile.py], by the listing the notebook shows: after
    [head] the frame is a pandas frame. *)
Definition dask_mem_profile : cell unit :=
  do trade_data <- read_file (path_join DATA_DIR "trade_data_2022.csv");
  pandas_to_csv DATA_DIR "trade_merged_pd.csv" (merged_csv trade_data).

(** The last cell. *)
Definition cleanup : cell unit :=
  os_remove (path_join DATA_DIR "trade_merged_pd.csv") ;;
  os_remove (path_join DATA_DIR "trade_merged_dd.csv").

(** The cells that write to the data directory and the clean-up cell, in
    the order of the notebook, on the frames [df] and [ddf] the profiling
    cells pass. *)
Definition run_writing_cells (df ddf : bytes) : cell unit :=
  pd_profile_func df ;;
  dd_profile_func ddf ;;
  shell pandas_mem_profile ;;
  shell dask_mem_profile ;;
  cleanup.

(** A data directory holding the three files the notebook reads. *)
Definition data_dir_before (trade trade_2022 sitc : bytes) : gmap string (node bytes) :=
  <[DATA_FILE := File trade]>
    (<[path_join DATA_DIR "trade_data_2022.csv" := File trade_2022]>
       (<[DATA_FILE2 := File sitc]>
          (<[DATA_DIR := Dir]> ∅))).

End Notebook.

(** ** Facts about the array primitives *)


Lemma fold_left_Rplus_acc (a : ndarray) (x : R) :
  fold_left Rplus a x = x + fold_right Rplus 0 a.
Proof.
  revert x. induction a as [| y a IH]; intros x; simpl.
  - lra.
  - rewrite IH. lra.
Qed.

Lemma Np_sum_Jnp_sum (a : ndarray) : Np.sum a = Jnp.sum a.
Proof. unfold Np.sum, Jnp.sum. rewrite fold_left_Rplus_acc. lra. Qed.

Lemma Np_sum_cons (x : R) (a : ndarray) : Np.sum (x :: a) = x + Np.sum a.
Proof. rewrite !Np_sum_Jnp_sum. reflexivity. Qed.

Lemma Np_sum_nil : Np.sum [] = 0.
Proof. reflexivity. Qed.

Lemma fold_left_Rmax_acc (a : ndarray) (x : R) :
  fold_left Rmax a x = fold_right Rmax x a.
Proof.
  revert x. induction a as [| y a IH]; intros x; simpl.
  - reflexivity.
  - rewrite IH. clear IH. induction a as [| z a IH]; simpl.
    + apply Rmax_comm.
    + rewrite IH. rewrite !Rmax_assoc. f_equal. apply Rmax_comm.
Qed.

Lemma Np_max_Jnp_max (a : ndarray) : Np.max a = Jnp.max a.
Proof.
  destruct a as [| x a]; simpl.
  - reflexivity.
  - now rewrite fold_left_Rmax_acc.
Qed.

Lemma Np_max_upper (a : ndarray) (m : R) :
  Np.max a = Ok m -> forall x, In x a -> x <= m.
Proof.
  rewrite Np_max_Jnp_max. destruct a as [| y a]; simpl; [discriminate |].
  intros [= <-] x [-> | Hx].
  - induction a as [| z a IH]; simpl.
    + lra.
    + eapply Rle_trans; [apply IH | apply Rmax_r].
  - induction a as [| z a IH]; simpl in *.
    + contradiction.
    + destruct Hx as [-> | Hx].
      * apply Rmax_l.
      * eapply Rle_trans; [apply IH, Hx | apply Rmax_r].
Qed.

Lemma Np_max_attained (a : ndarray) (m : R) :
  Np.max a = Ok m -> In m a.
Proof.
  rewrite Np_max_Jnp_max. destruct a as [| y a]; simpl; [discriminate |].
  intros [= <-]. induction a as [| z a IH]; simpl.
  - now left.
  - destruct (Rle_dec z (fold_right Rmax y a)) as [H | H].
    + rewrite (Rmax_right _ _ H).
      destruct IH as [IH | IH]; [left | right; right]; assumption.
    + rewrite Rmax_left by lra. right; left; reflexivity.
Qed.

Lemma zip_with_length f (a b : ndarray) :
  length a = length b -> length (zip_with f a b) = length a.
Proof.
  revert b. induction a as [| x a IH]; intros [| y b]; simpl; try discriminate; auto.
Qed.

Lemma broadcast_same_size f (a b : ndarray) :
  length a = length b -> broadcast f a b = Ok (zip_with f a b).
Proof.
  intros H. unfold broadcast. now rewrite (proj2 (Nat.eqb_eq _ _) H).
Qed.

(** The four ways a broadcast can go. *)
Lemma broadcast_cases f (a b : ndarray) :
  (length a = length b /\ broadcast f a b = Ok (zip_with f a b))
  \/ (length a <> length b /\ exists x, a = [x] /\ broadcast f a b = Ok (map (f x) b))
  \/ (length a <> length b /\ length a <> 1%nat /\
      exists y, b = [y] /\ broadcast f a b = Ok (map (fun x => f x y) a))
  \/ (length a <> length b /\ length a <> 1%nat /\ length b <> 1%nat /\
      broadcast f a b = Raise ValueError).
Proof.
  unfold broadcast. destruct (Nat.eqb (length a) (length b)) eqn:E.
  - left. split; [now apply Nat.eqb_eq | reflexivity].
  - right. apply Nat.eqb_neq in E.
    destruct a as [| x [| x' a]].
    + destruct b as [| y [| y' b]]; simpl in *.
      * congruence.
      * right; left. repeat split; auto. eexists; split; reflexivity.
      * right; right. repeat split; auto.
    + left. split; [assumption |]. eexists; split; reflexivity.
    + destruct b as [| y [| y' b]]; simpl in *.
      * right; right. repeat split; auto.
      * right; left. repeat split; auto. eexists; split; reflexivity.
      * right; right. repeat split; auto.
Qed.

Lemma sum_zip_mono (V V' p : ndarray) :
  Forall (Rle 0) p -> array_le V V' ->
  Np.sum (zip_with Rmult V p) <= Np.sum (zip_with Rmult V' p).
Proof.
  intros Hp HV. revert p Hp.
  induction HV as [| x x' V V' Hx HV IH]; intros p Hp.
  - simpl. lra.
  - destruct p as [| y p]; simpl; [lra |].
    rewrite !Np_sum_cons. inversion Hp; subst.
    specialize (IH p ltac:(assumption)). nra.
Qed.

Lemma sum_map_mono (f g : R -> R) (a : ndarray) :
  (forall x, In x a -> f x <= g x) -> Np.sum (map f a) <= Np.sum (map g a).
Proof.
  induction a as [| x a IH]; intros H; simpl.
  - lra.
  - rewrite !Np_sum_cons.
    assert (f x <= g x) by (apply H; now left).
    assert (Np.sum (map f a) <= Np.sum (map g a)) by (apply IH; intros; apply H; now right).
    lra.
Qed.

Lemma sum_scale_mono (V V' : ndarray) (y : R) :
  0 <= y -> array_le V V' ->
  Np.sum (map (fun x => x * y) V) <= Np.sum (map (fun x => x * y) V').
Proof.
  intros Hy HV. induction HV as [| x x' V V' Hx HV IH]; simpl.
  - lra.
  - rewrite !Np_sum_cons. nra.
Qed.

Lemma array_le_length (a a' : ndarray) : array_le a a' -> length a = length a'.
Proof. induction 1; simpl; auto. Qed.

Lemma maximum_mono (a : ndarray) (s s' : R) :
  s <= s' -> array_le (Np.maximum a s) (Np.maximum a s').
Proof.
  intros Hs. induction a as [| x a IH]; simpl; constructor; auto.
  apply Rmax_case_strong; intros; [apply Rmax_l | eapply Rle_trans; [exact Hs | apply Rmax_r]].
Qed.

Lemma maximum_above (a : ndarray) (s : R) : array_le a (Np.maximum a s).
Proof. induction a as [| x a IH]; simpl; constructor; auto. apply Rmax_l. Qed.

(** ** Facts about the loop *)

Section WhileFacts.

Variable pass : ndarray -> result (ndarray * R).
Variable v_tol : R.
Variable max_iter : Z.

Lemma while_loop_exit V d it :
  ~ (d > v_tol /\ (it < max_iter)%Z) ->
  while_loop pass v_tol max_iter V d it = Exit (LoopState V d it).
Proof.
  intros H. rewrite (while_loop_equation_1 pass v_tol max_iter V d it).
  destruct (loop_guard v_tol max_iter d it) as [G | G]; simpl.
  - contradiction.
  - reflexivity.
Qed.

Lemma while_loop_pass V d it TV d' :
  d > v_tol -> (it < max_iter)%Z -> pass V = Ok (TV, d') ->
  while_loop pass v_tol max_iter V d it
  = while_loop pass v_tol max_iter TV d' (it + 1).
Proof.
  intros H1 H2 H3. rewrite (while_loop_equation_1 pass v_tol max_iter V d it).
  destruct (loop_guard v_tol max_iter d it) as [G | G]; simpl.
  - rewrite H3. reflexivity.
  - tauto.
Qed.

Lemma while_loop_abort V d it e :
  d > v_tol -> (it < max_iter)%Z -> pass V = Raise e ->
  while_loop pass v_tol max_iter V d it = Abort e (LoopState V d it).
Proof.
  intros H1 H2 H3. rewrite (while_loop_equation_1 pass v_tol max_iter V d it).
  destruct (loop_guard v_tol max_iter d it) as [G | G]; simpl.
  - rewrite H3. reflexivity.
  - tauto.
Qed.

(** The counter never passes [max_iter], whatever the passes compute; a
    pass that raises was started below [max_iter]. *)
Lemma while_loop_counter V d it :
  let h := while_loop pass v_tol max_iter V d it in
  (it <= st_iter (halt_state h) <= Z.max it max_iter)%Z
  /\ match h with
     | Exit _ => True
     | Abort _ s => (st_iter s < max_iter)%Z
     end.
Proof.
  apply (while_loop_elim pass v_tol max_iter
           (fun V d it h =>
              (it <= st_iter (halt_state h) <= Z.max it max_iter)%Z
              /\ match h with
                 | Exit _ => True
                 | Abort _ s => (st_iter s < max_iter)%Z
                 end)).
  - intros; simpl. split; [lia | exact I].
  - intros V0 TV d0 d1 it0 [_ Hlt] [IH1 IH2] _ _. split; [lia | exact IH2].
  - intros V0 e d0 it0 [_ Hlt] _ _. simpl. split; [lia | exact Hlt].
Qed.

(** When every pass succeeds with [TV = F V] and [v_dist = Dst V] on the
    vectors satisfying [Inv], the loop leaves at the first count [k] at
    which its guard fails, with the [k]-th iterate of [F]. *)
Variable F : ndarray -> ndarray.
Variable Dst : ndarray -> R.
Variable Inv : ndarray -> Prop.
Hypothesis Inv_F : forall V, Inv V -> Inv (F V).
Hypothesis pass_ok : forall V, Inv V -> pass V = Ok (F V, Dst V).

Lemma dist_seq_shift d0 V k : dist_seq F Dst (Dst V) (F V) k = dist_seq F Dst d0 V (S k).
Proof.
  destruct k as [| j]; simpl.
  - reflexivity.
  - f_equal. symmetry. apply (Nat.iter_succ_r j F).
Qed.

Lemma while_loop_first_exit (m : nat) : forall V d it,
  Inv V -> Z.to_nat (max_iter - it) = m ->
  exists k : nat,
    while_loop pass v_tol max_iter V d it
    = Exit (LoopState (Nat.iter k F V) (dist_seq F Dst d V k) (it + Z.of_nat k))
    /\ ~ (dist_seq F Dst d V k > v_tol /\ (it + Z.of_nat k < max_iter)%Z)
    /\ forall j, (j < k)%nat ->
         dist_seq F Dst d V j > v_tol /\ (it + Z.of_nat j < max_iter)%Z.
Proof.
  induction m as [| m IH]; intros V d it HV Hm.
  - exists O. simpl. rewrite Z.add_0_r.
    assert (G : ~ (d > v_tol /\ (it < max_iter)%Z)) by lia.
    split; [now apply while_loop_exit | split; [exact G | lia]].
  - destruct (loop_guard v_tol max_iter d it) as [[Gd Gi] | G].
    + destruct (IH (F V) (Dst V) (it + 1)%Z (Inv_F V HV) ltac:(lia))
        as (k & Hrun & Hstop & Hbefore).
      exists (S k).
      rewrite (while_loop_pass V d it (F V) (Dst V) Gd Gi (pass_ok V HV)).
      rewrite Hrun, (Nat.iter_succ_r k F), <- (dist_seq_shift d).
      replace (it + Z.of_nat (S k))%Z with (it + 1 + Z.of_nat k)%Z by lia.
      split; [reflexivity | split; [exact Hstop |]].
      intros [| j] Hj.
      * simpl. rewrite Z.add_0_r. split; assumption.
      * rewrite <- (dist_seq_shift d).
        replace (it + Z.of_nat (S j))%Z with (it + 1 + Z.of_nat j)%Z by lia.
        apply Hbefore. lia.
    + exists O. simpl. rewrite Z.add_0_r.
      split; [now apply while_loop_exit | split; [exact G | lia]].
Qed.

End WhileFacts.

(** Loops whose passes agree on every vector agree. *)
Lemma while_loop_ext (pass pass' : ndarray -> result (ndarray * R)) v_tol max_iter :
  (forall V, pass V = pass' V) ->
  forall V d it,
    while_loop pass v_tol max_iter V d it = while_loop pass' v_tol max_iter V d it.
Proof.
  intros Hpass.
  apply (while_loop_elim pass v_tol max_iter
           (fun V d it h => h = while_loop pass' v_tol max_iter V d it)).
  - intros V d it G _. symmetry. now apply while_loop_exit.
  - intros V TV d d0 it [Gd Gi] IH Hp _. rewrite IH. symmetry.
    apply while_loop_pass; try assumption. now rewrite <- Hpass.
  - intros V e d it [Gd Gi] Hp _. symmetry.
    apply while_loop_abort; try assumption. now rewrite <- Hpass.
Qed.

(** ** Facts about [Tv] *)

Lemma Tv_same_size (V : ndarray) (b beta : R) (p wages : ndarray) :
  length V = length p -> Tv V b beta p wages = Ok (bellman b beta p wages V).
Proof.
  intros H. unfold Tv, multiply. rewrite (broadcast_same_size _ _ _ H). reflexivity.
Qed.

Lemma Tv_jax_Tv (V : ndarray) (b beta : R) (p wages : ndarray) :
  Tv_jax V b beta p wages = Tv V b beta p wages.
Proof.
  unfold Tv_jax, Tv. destruct (multiply V p) as [Vp | e]; simpl.
  - now rewrite Np_sum_Jnp_sum.
  - reflexivity.
Qed.

Lemma Tv_result (V : ndarray) (b beta : R) (p wages T : ndarray) :
  Tv V b beta p wages = Ok T ->
  exists s, T = Np.maximum (divide_scalar wages (1 - beta)) s.
Proof.
  unfold Tv. destruct (multiply V p) as [Vp | e]; simpl; [| discriminate].
  intros [= <-]. eexists; reflexivity.
Qed.

Lemma bellman_length (b beta : R) (p wages V : ndarray) :
  length (bellman b beta p wages V) = length wages.
Proof. unfold bellman, Np.maximum, divide_scalar. now rewrite !length_map. Qed.

(** The expected value does not decrease when the value vector grows. *)
Lemma multiply_sum_mono (V V' p : ndarray) :
  Forall (Rle 0) p -> array_le V V' ->
  match multiply V p, multiply V' p with
  | Ok Vp, Ok Vp' => Np.sum Vp <= Np.sum Vp'
  | Raise e, Raise e' => e = e'
  | _, _ => False
  end.
Proof.
  intros Hp HV. pose proof (array_le_length _ _ HV) as Hlen.
  unfold multiply.
  destruct (broadcast_cases Rmult V p)
    as [[H1 ->] | [(H1 & x & -> & ->) | [(H1 & H2 & y & -> & ->) | (H1 & H2 & H3 & ->)]]].
  - rewrite broadcast_same_size by congruence. now apply sum_zip_mono.
  - inversion HV as [| ? x' ? ? Hx HV']; subst. inversion HV'; subst.
    unfold broadcast. simpl in H1. simpl length.
    destruct (Nat.eqb 1 (length p)) eqn:E; [apply Nat.eqb_eq in E; congruence |].
    apply sum_map_mono. intros z Hz.
    rewrite List.Forall_forall in Hp. specialize (Hp z Hz). nra.
  - unfold broadcast. simpl in H1 |- *.
    destruct (Nat.eqb (length V') 1) eqn:E; [apply Nat.eqb_eq in E; congruence |].
    inversion Hp as [| ? ? Hy _]; subst.
    destruct V' as [| x1 [| x2 V']]; simpl in *; try congruence.
    + inversion HV; subst. simpl. lra.
    + apply (sum_scale_mono V (x1 :: x2 :: V') y Hy HV).
  - unfold broadcast.
    destruct (Nat.eqb (length V') (length p)) eqn:E; [apply Nat.eqb_eq in E; congruence |].
    destruct V' as [| x1 [| x2 V']]; simpl in *; try congruence;
      destruct p as [| y1 [| y2 p]]; simpl in *; congruence.
Qed.

(** ** Facts about [McCall_VFI] *)

Lemma sup_norm_nonneg (D : ndarray) : 0 <= sup_norm D.
Proof.
  destruct D as [| x D]; simpl.
  - lra.
  - eapply Rle_trans; [apply Rabs_pos | apply Rmax_l].
Qed.

Lemma Np_max_abs (D : ndarray) : D <> [] -> Np.max (Np.abs D) = Ok (sup_norm D).
Proof.
  destruct D as [| x D]; [congruence | intros _].
  unfold Np.max, Np.abs. cbn [map]. rewrite fold_left_Rmax_acc. f_equal.
  simpl. induction D as [| y D IH]; simpl.
  - rewrite Rmax_left; [reflexivity | apply Rabs_pos].
  - rewrite IH, !Rmax_assoc. f_equal. apply Rmax_comm.
Qed.

Lemma sup_norm_upper (D : ndarray) (x : R) : In x D -> Rabs x <= sup_norm D.
Proof.
  induction D as [| y D IH]; simpl; [contradiction |].
  intros [-> | Hx].
  - apply Rmax_l.
  - eapply Rle_trans; [apply IH, Hx | apply Rmax_r].
Qed.

Lemma sup_norm_attained (D : ndarray) :
  D <> [] -> exists x, In x D /\ sup_norm D = Rabs x.
Proof.
  induction D as [| y D IH]; [congruence | intros _].
  destruct D as [| z D].
  - exists y. split; [now left |]. simpl.
    apply Rmax_left, Rabs_pos.
  - destruct (IH ltac:(discriminate)) as (x & Hx & Hs).
    change (sup_norm (y :: z :: D)) with (Rmax (Rabs y) (sup_norm (z :: D))).
    destruct (Rle_dec (Rabs y) (sup_norm (z :: D))) as [H | H].
    + exists x. split; [now right |]. now rewrite Rmax_right.
    + exists y. split; [now left |]. apply Rmax_left. lra.
Qed.

Lemma zeros_length (n : nat) : length (Np.zeros n) = n.
Proof. apply repeat_length. Qed.

Lemma vfi_V_length (b beta : R) (p wages : ndarray) (k : nat) :
  length (vfi_V b beta p wages k) = length wages.
Proof.
  destruct k as [| k]; unfold vfi_V; simpl.
  - apply zeros_length.
  - apply bellman_length.
Qed.

Lemma VFI_iterate_vfi_V (b beta : R) (p wages : ndarray) (k : nat) :
  length p = length wages ->
  VFI_iterate b beta p wages k = Ok (vfi_V b beta p wages k).
Proof.
  intros Hp. induction k as [| k IH]; simpl.
  - reflexivity.
  - rewrite IH. simpl. rewrite Tv_same_size.
    + reflexivity.
    + rewrite vfi_V_length. congruence.
Qed.

Lemma McCall_pass_ok (b beta : R) (p wages V : ndarray) :
  length p = length wages -> length V = length wages -> wages <> [] ->
  McCall_pass b beta p wages V
  = Ok (bellman b beta p wages V, sup_dist V (bellman b beta p wages V)).
Proof.
  intros Hp HV Hw. unfold McCall_pass.
  rewrite Tv_same_size by congruence. simpl.
  unfold subtract. rewrite broadcast_same_size by (rewrite bellman_length; exact HV).
  simpl. rewrite Np_max_abs.
  - reflexivity.
  - intros E. apply (f_equal (@length R)) in E.
    rewrite zip_with_length in E by (rewrite bellman_length; exact HV).
    destruct wages; [congruence | simpl in *; lia].
Qed.

Lemma McCall_pass_jax_pass (b beta : R) (p wages V : ndarray) :
  McCall_pass_jax b beta p wages V = McCall_pass b beta p wages V.
Proof.
  unfold McCall_pass_jax, McCall_pass. rewrite Tv_jax_Tv.
  destruct (Tv V b beta p wages) as [TV | e]; simpl; [| reflexivity].
  destruct (subtract V TV) as [D | e]; simpl; [| reflexivity].
  unfold Jnp.abs, Np.abs. now rewrite Np_max_Jnp_max.
Qed.

Lemma linspace_ok (start stop : R) (num : Z) :
  (0 <= num)%Z ->
  exists wages, Np.linspace start stop num = Ok wages
                /\ length wages = Z.to_nat num.
Proof.
  intros H. unfold Np.linspace.
  destruct (Z.ltb_spec num 0); [lia |].
  eexists; split; [reflexivity |]. now rewrite length_map, length_seq.
Qed.

Lemma McCall_setup_ok (theta mu sigma w_min w_max : R) (n : Z) :
  (0 <= n)%Z ->
  exists su, McCall_setup theta mu sigma w_min w_max n = Ok su
             /\ length (su_wages su) = Z.to_nat (n + 1)
             /\ length (su_p su) = length (su_wages su)
             /\ su_wages su <> [].
Proof.
  intros Hn. unfold McCall_setup.
  destruct (linspace_ok w_min w_max (n + 1) ltac:(lia)) as (wages & -> & Hlen).
  simpl.
  assert (Hp : length (divide_scalar (Stats.lognorm_pdf wages sigma mu)
                         (Np.sum (Stats.lognorm_pdf wages sigma mu)))
               = length wages).
  { unfold divide_scalar, Stats.lognorm_pdf. now rewrite !length_map. }
  unfold multiply. rewrite broadcast_same_size by (symmetry; exact Hp).
  simpl. eexists; split; [reflexivity |]. simpl.
  repeat split; try assumption.
  destruct wages; [simpl in Hlen; lia | congruence].
Qed.

(** What a run of [McCall_VFI] does on a non-empty grid: it leaves the loop
    normally at the first count at which the guard fails. *)
Lemma McCall_VFI_run_char (theta beta mu sigma w_min w_max : R) (n : Z)
    (v_tol : R) (max_iter : Z) (su : setup) :
  McCall_setup theta mu sigma w_min w_max n = Ok su ->
  length (su_p su) = length (su_wages su) -> su_wages su <> [] ->
  exists k : nat,
    McCall_VFI_run theta beta mu sigma w_min w_max n v_tol max_iter
    = Ok (Exit (LoopState (vfi_V (su_b su) beta (su_p su) (su_wages su) k)
                          (vfi_dist (su_b su) beta (su_p su) (su_wages su) k)
                          (Z.of_nat k)))
    /\ ~ (vfi_dist (su_b su) beta (su_p su) (su_wages su) k > v_tol
          /\ (Z.of_nat k < max_iter)%Z)
    /\ forall j, (j < k)%nat ->
         vfi_dist (su_b su) beta (su_p su) (su_wages su) j > v_tol
         /\ (Z.of_nat j < max_iter)%Z.
Proof.
  intros Hsu Hp Hw. unfold McCall_VFI_run. rewrite Hsu. simpl.
  set (b := su_b su). set (p := su_p su) in *. set (wages := su_wages su) in *.
  destruct (while_loop_first_exit (McCall_pass b beta p wages) v_tol max_iter
              (bellman b beta p wages)
              (fun V => sup_dist V (bellman b beta p wages V))
              (fun V => length V = length wages)
              (fun V _ => bellman_length b beta p wages V)
              (fun V HV => McCall_pass_ok b beta p wages V Hp HV Hw)
              (Z.to_nat (max_iter - 0)) (Np.zeros (length wages)) 10 0%Z
              (zeros_length _) eq_refl)
    as (k & Hrun & Hstop & Hbefore).
  assert (Hd : forall i,
             dist_seq (bellman b beta p wages)
               (fun V => sup_dist V (bellman b beta p wages V))
               10 (Np.zeros (length wages)) i
             = vfi_dist b beta p wages i).
  { intros [| i]; reflexivity. }
  exists k. rewrite Hrun. rewrite Hd in *. simpl in *.
  split; [reflexivity | split; [exact Hstop |]].
  intros j Hj. rewrite <- Hd. apply (Hbefore j Hj).
Qed.

(** ** Normalised probabilities and the shape of the iterates *)

Lemma Np_sum_nonneg (a : ndarray) : Forall (Rle 0) a -> 0 <= Np.sum a.
Proof.
  induction 1 as [| x a Hx _ IH].
  - rewrite Np_sum_nil. lra.
  - rewrite Np_sum_cons. lra.
Qed.

Lemma Np_sum_pos (a : ndarray) :
  Forall (Rle 0) a -> Exists (fun x => x <> 0) a -> 0 < Np.sum a.
Proof.
  intros Hpos Hex. induction Hpos as [| x a Hx Ha IH].
  - inversion Hex.
  - rewrite Np_sum_cons. pose proof (Np_sum_nonneg a Ha).
    inversion Hex as [? ? Hne | ? ? Hrest]; subst.
    + lra.
    + specialize (IH Hrest). lra.
Qed.

Lemma Np_sum_divide_scalar (a : ndarray) (s : R) :
  Np.sum (divide_scalar a s) = Np.sum a / s.
Proof.
  induction a as [| x a IH]; simpl.
  - rewrite Np_sum_nil. lra.
  - rewrite !Np_sum_cons, IH. lra.
Qed.

Lemma normalised_probabilities (pdf : ndarray) :
  Forall (Rle 0) pdf -> Exists (fun x => x <> 0) pdf ->
  Forall (Rle 0) (divide_scalar pdf (Np.sum pdf))
  /\ Np.sum (divide_scalar pdf (Np.sum pdf)) = 1.
Proof.
  intros Hpos Hex. pose proof (Np_sum_pos pdf Hpos Hex) as Hs. split.
  - unfold divide_scalar. apply List.Forall_map.
    eapply List.Forall_impl; [| exact Hpos].
    intros x Hx. simpl. apply Rmult_le_pos; [exact Hx |].
    left. now apply Rinv_0_lt_compat.
  - rewrite Np_sum_divide_scalar. field. lra.
Qed.

Lemma nth_map_lt (f : R -> R) (a : ndarray) (i : nat) :
  (i < length a)%nat -> nth i (map f a) 0 = f (nth i a 0).
Proof.
  intros H. rewrite (nth_indep _ 0 (f 0)) by (now rewrite length_map).
  apply map_nth.
Qed.

Lemma nondecreasing_map (f : R -> R) (a : ndarray) :
  (forall x y, x <= y -> f x <= f y) ->
  nondecreasing a -> nondecreasing (map f a).
Proof.
  intros Hf Ha i j Hij. rewrite length_map in Hij.
  rewrite !nth_map_lt by lia. apply Hf, Ha. exact Hij.
Qed.

Lemma linspace_nondecreasing (start stop : R) (num : Z) (wages : ndarray) :
  start <= stop -> Np.linspace start stop num = Ok wages -> nondecreasing wages.
Proof.
  intros Hle. unfold Np.linspace.
  destruct (Z.ltb_spec num 0) as [Hneg | Hnum]; [discriminate |].
  intros [= <-] i j Hij. rewrite length_map, length_seq in Hij.
  set (step := (stop - start) / IZR (num - 1)).
  assert (Hstep : 0 <= step).
  { unfold step, Rdiv. apply Rmult_le_pos; [lra |].
    destruct (Z.eq_dec (num - 1)%Z 0%Z) as [-> | Hne].
    - rewrite Rinv_0. lra.
    - left. apply Rinv_0_lt_compat. apply IZR_lt. lia. }
  assert (Hnth : forall k, (k < Z.to_nat num)%nat ->
             nth k (map (fun i : nat => start + INR i * step) (seq 0 (Z.to_nat num))) 0
             = start + INR k * step).
  { intros k Hk.
    rewrite (nth_indep _ 0 ((fun i : nat => start + INR i * step) O))
      by (now rewrite length_map, length_seq).
    rewrite (map_nth (fun i : nat => start + INR i * step)).
    now rewrite seq_nth. }
  rewrite !Hnth by lia.
  assert (INR i <= INR j) by (apply le_INR; lia). nra.
Qed.

Lemma bellman_nondecreasing (b beta : R) (p wages V : ndarray) :
  beta < 1 -> nondecreasing wages -> nondecreasing (bellman b beta p wages V).
Proof.
  intros Hb Hw. unfold bellman, Np.maximum, divide_scalar.
  apply nondecreasing_map.
  - intros x y Hxy. apply Rle_max_compat_r. exact Hxy.
  - apply nondecreasing_map; [| exact Hw].
    intros x y Hxy. unfold Rdiv. apply Rmult_le_compat_r; [| exact Hxy].
    left. apply Rinv_0_lt_compat. lra.
Qed.

Lemma bellman_above (b beta : R) (p wages V : ndarray) :
  array_le (divide_scalar wages (1 - beta)) (bellman b beta p wages V).
Proof. apply maximum_above. Qed.

(** The log-normal density is positive on positive wages. *)
Lemma lognorm_std_pdf_nonneg (y s : R) : 0 < s -> 0 <= Stats.lognorm_std_pdf y s.
Proof.
  intros Hs. unfold Stats.lognorm_std_pdf. destruct (Rlt_dec 0 y) as [Hy | Hy]; [| lra].
  apply Rmult_le_pos.
  - left. apply Rinv_0_lt_compat.
    assert (0 < sqrt (2 * PI)) by (apply sqrt_lt_R0; pose proof PI_RGT_0; lra).
    apply Rmult_lt_0_compat; [apply Rmult_lt_0_compat |]; assumption.
  - left. apply exp_pos.
Qed.

Lemma lognorm_std_pdf_pos (y s : R) : 0 < s -> 0 < y -> 0 < Stats.lognorm_std_pdf y s.
Proof.
  intros Hs Hy. unfold Stats.lognorm_std_pdf. destruct (Rlt_dec 0 y) as [_ | Hn]; [| lra].
  apply Rmult_lt_0_compat.
  - apply Rinv_0_lt_compat.
    assert (0 < sqrt (2 * PI)) by (apply sqrt_lt_R0; pose proof PI_RGT_0; lra).
    apply Rmult_lt_0_compat; [apply Rmult_lt_0_compat |]; assumption.
  - apply exp_pos.
Qed.

Lemma lognorm_pdf_nonneg (x : ndarray) (s scale : R) :
  0 < s -> 0 < scale -> Forall (Rle 0) (Stats.lognorm_pdf x s scale).
Proof.
  intros Hs Hscale. unfold Stats.lognorm_pdf. apply List.Forall_map.
  apply List.Forall_forall. intros w _. simpl.
  apply Rmult_le_pos; [now apply lognorm_std_pdf_nonneg |].
  left. now apply Rinv_0_lt_compat.
Qed.

Lemma lognorm_pdf_head_pos (w : R) (x : ndarray) (s scale : R) :
  0 < s -> 0 < scale -> 0 < w ->
  Exists (fun v => v <> 0) (Stats.lognorm_pdf (w :: x) s scale).
Proof.
  intros Hs Hscale Hw. simpl. apply Exists_cons_hd.
  assert (0 < Stats.lognorm_std_pdf (w / scale) s / scale); [| lra].
  apply Rmult_lt_0_compat.
  - apply lognorm_std_pdf_pos; [exact Hs |]. now apply Rdiv_lt_0_compat.
  - now apply Rinv_0_lt_compat.
Qed.

(** ** The claims about the job-search notebook *)



Lemma McCall_VFI_jax_run_eq (theta beta mu sigma w_min w_max : R) (n : Z)
    (v_tol : R) (max_iter : Z) :
  McCall_VFI_jax_run theta beta mu sigma w_min w_max n v_tol max_iter
  = McCall_VFI_run theta beta mu sigma w_min w_max n v_tol max_iter.
Proof.
  unfold McCall_VFI_jax_run, McCall_VFI_run.
  destruct (McCall_setup theta mu sigma w_min w_max n) as [su | e]; simpl.
  - unfold Jnp.device_put.
    rewrite (while_loop_ext _ (McCall_pass (su_b su) beta (su_p su) (su_wages su)));
      [reflexivity |].
    intros U. apply McCall_pass_jax_pass.
  - reflexivity.
Qed.

(** C2.  In exact real arithmetic the Jax cells compute what the NumPy cells
    compute: [Tv_jax] and [Tv] agree on every input with [beta <> 1], and
    [McCall_VFI_jax] returns what [McCall_VFI] returns (the same array, or the
    same exception) for every common parameterization. *)
Theorem Tv_jax_refines_Tv (V : ndarray) (b beta : R) (p wages : ndarray)
    (theta mu sigma w_min w_max : R) (n : Z) (v_tol : R) (max_iter : Z) :
  beta <> 1 ->
  Tv_jax V b beta p wages = Tv V b beta p wages
  /\ McCall_VFI_jax theta beta mu sigma w_min w_max n v_tol max_iter
     = McCall_VFI theta beta mu sigma w_min w_max n v_tol max_iter.
Proof.
  intros _. split.
  - apply Tv_jax_Tv.
  - unfold McCall_VFI_jax, McCall_VFI. now rewrite McCall_VFI_jax_run_eq.
Qed.

Lemma Tv_jax_refines_Tv_witness :
  99 / 100 <> 1
  /\ (Tv_jax [0; 0] 3 (99 / 100) [1 / 4; 3 / 4] [10; 100]
      = Tv [0; 0] 3 (99 / 100) [1 / 4; 3 / 4] [10; 100]
      /\ McCall_VFI_jax (3 / 10) (99 / 100) 40 (1 / 2) 10 100 1 (1 / 1000000) 1000
         = McCall_VFI (3 / 10) (99 / 100) 40 (1 / 2) 10 100 1 (1 / 1000000) 1000).
Proof.
  assert (H : 99 / 100 <> 1) by lra.
  split; [exact H |].
  exact (Tv_jax_refines_Tv [0; 0] 3 (99 / 100) [1 / 4; 3 / 4] [10; 100]
           (3 / 10) 40 (1 / 2) 10 100 1 (1 / 1000000) 1000 H).
Defined.

Lemma passes_bound (pass : ndarray -> result (ndarray * R)) (v_tol : R)
    (max_iter : Z) (V : ndarray) (d : R) :
  (0 <= max_iter)%Z ->
  (0 <= passes (Ok (while_loop pass v_tol max_iter V d 0)) <= max_iter)%Z.
Proof.
  intros Hm. pose proof (while_loop_counter pass v_tol max_iter V d 0%Z) as [H1 H2].
  simpl in *. destruct (while_loop pass v_tol max_iter V d 0) as [s | e s]; simpl in *; lia.
Qed.

(** On an empty grid ([n = -1]) the first pass raises: [.max()] of a
    zero-size array. *)
Lemma McCall_VFI_empty_grid (theta beta mu sigma w_min w_max v_tol : R) (max_iter : Z) :
  10 > v_tol -> (0 < max_iter)%Z ->
  McCall_VFI theta beta mu sigma w_min w_max (-1) v_tol max_iter = Raise ValueError.
Proof.
  intros Hd Hi. unfold McCall_VFI, McCall_VFI_run, McCall_setup, Np.linspace.
  simpl. rewrite (while_loop_abort _ _ _ _ _ _ ValueError Hd Hi); reflexivity.
Qed.

(** C5.  [McCall_VFI] and [McCall_VFI_jax] stop on every input whose
    [max_iter] is a natural number: the embedding is a total function (the
    loop is defined by recursion on [max_iter - iter]), the loop starts at
    most [max_iter] passes whatever [v_dist] does, and on a grid with
    [n >= 0] both functions return an array. *)
Theorem McCall_VFI_terminates (theta beta mu sigma w_min w_max : R) (n : Z)
    (v_tol : R) (max_iter : Z) :
  (0 <= max_iter)%Z ->
  (0 <= passes (McCall_VFI_run theta beta mu sigma w_min w_max n v_tol max_iter)
   <= max_iter)%Z
  /\ (0 <= passes (McCall_VFI_jax_run theta beta mu sigma w_min w_max n v_tol max_iter)
      <= max_iter)%Z
  /\ ((0 <= n)%Z ->
      (exists V, McCall_VFI theta beta mu sigma w_min w_max n v_tol max_iter = Ok V)
      /\ (exists V, McCall_VFI_jax theta beta mu sigma w_min w_max n v_tol max_iter = Ok V)).
Proof.
  intros Hm. split; [| split].
  - unfold McCall_VFI_run.
    destruct (McCall_setup theta mu sigma w_min w_max n) as [su | e]; simpl.
    + now apply passes_bound.
    + lia.
  - unfold McCall_VFI_jax_run.
    destruct (McCall_setup theta mu sigma w_min w_max n) as [su | e]; simpl.
    + now apply passes_bound.
    + lia.
  - intros Hn.
    destruct (McCall_setup_ok theta mu sigma w_min w_max n Hn) as (su & Hsu & _ & Hp & Hw).
    destruct (McCall_VFI_run_char theta beta mu sigma w_min w_max n v_tol max_iter
                su Hsu Hp Hw) as (k & Hrun & _).
    assert (HV : McCall_VFI theta beta mu sigma w_min w_max n v_tol max_iter
                 = Ok (vfi_V (su_b su) beta (su_p su) (su_wages su) k)).
    { unfold McCall_VFI. rewrite Hrun. reflexivity. }
    split.
    + eexists. exact HV.
    + eexists. rewrite <- HV.
      unfold McCall_VFI_jax, McCall_VFI. now rewrite McCall_VFI_jax_run_eq.
Qed.

Lemma McCall_VFI_terminates_witness :
  (0 <= 3)%Z
  /\ ((0 <= passes (McCall_VFI_run (3 / 10) (99 / 100) 40 (1 / 2) 10 100 1 (1 / 1000000) 3)
       <= 3)%Z
      /\ (0 <= passes (McCall_VFI_jax_run (3 / 10) (99 / 100) 40 (1 / 2) 10 100 1
                         (1 / 1000000) 3)
          <= 3)%Z
      /\ ((0 <= 1)%Z ->
          (exists V, McCall_VFI (3 / 10) (99 / 100) 40 (1 / 2) 10 100 1 (1 / 1000000) 3
                     = Ok V)
          /\ (exists V, McCall_VFI_jax (3 / 10) (99 / 100) 40 (1 / 2) 10 100 1
                          (1 / 1000000) 3
                        = Ok V))).
Proof.
  assert (H : (0 <= 3)%Z) by lia.
  split; [exact H |].
  exact (McCall_VFI_terminates (3 / 10) (99 / 100) 40 (1 / 2) 10 100 1 (1 / 1000000) 3 H).
Defined.



(** The last entry of the first iterate is at least [w_max / (1 - beta)]. *)
Lemma sup_dist_zeros_last (b beta : R) (p : ndarray) (w0 w1 : R) :
  0 <= w1 / (1 - beta) ->
  w1 / (1 - beta)
  <= sup_dist (Np.zeros 2) (bellman b beta p [w0; w1] (Np.zeros 2)).
Proof.
  intros Hw. unfold sup_dist, bellman. simpl.
  set (s := b + beta * _).
  eapply Rle_trans; [| apply Rmax_r]. eapply Rle_trans; [| apply Rmax_l].
  assert (w1 / (1 - beta) <= Rmax (w1 / (1 - beta)) s) by apply Rmax_l.
  rewrite Rabs_left1; lra.
Qed.


Lemma McCall_setup_inv (theta mu sigma w_min w_max : R) (n : Z) (su : setup) :
  McCall_setup theta mu sigma w_min w_max n = Ok su ->
  Np.linspace w_min w_max (n + 1) = Ok (su_wages su)
  /\ su_p su = divide_scalar (Stats.lognorm_pdf (su_wages su) sigma mu)
                 (Np.sum (Stats.lognorm_pdf (su_wages su) sigma mu))
  /\ length (su_p su) = length (su_wages su).
Proof.
  unfold McCall_setup.
  destruct (Np.linspace w_min w_max (n + 1)) as [wages | e]; simpl; [| discriminate].
  assert (Hp : length (divide_scalar (Stats.lognorm_pdf wages sigma mu)
                         (Np.sum (Stats.lognorm_pdf wages sigma mu)))
               = length wages).
  { unfold divide_scalar, Stats.lognorm_pdf. now rewrite !length_map. }
  unfold multiply. rewrite broadcast_same_size by (symmetry; exact Hp).
  simpl. intros [= <-]. simpl. repeat split. exact Hp.
Qed.

(** C9, as the code has it.  Invariants of [McCall_VFI] for [beta < 1] and
    [w_min <= w_max], given that the density values on the grid are
    non-negative and not all zero: the normalised vector [p] has non-negative entries that sum to 1;
    every iterate after the first pass is at least [wages / (1 - beta)] entry
    by entry and non-decreasing in the wage index; [Tv] maps a vector with
    both properties to a vector with both properties; and so the array the
    loop holds after one pass or more has them. *)
Theorem McCall_VFI_invariants (theta beta mu sigma w_min w_max : R) (n : Z)
    (su : setup) :
  beta < 1 -> w_min <= w_max ->
  McCall_setup theta mu sigma w_min w_max n = Ok su ->
  Forall (Rle 0) (Stats.lognorm_pdf (su_wages su) sigma mu) ->
  Exists (fun x => x <> 0) (Stats.lognorm_pdf (su_wages su) sigma mu) ->
  (Forall (Rle 0) (su_p su) /\ Np.sum (su_p su) = 1)
  /\ (forall k, (1 <= k)%nat ->
        exists V, VFI_iterate (su_b su) beta (su_p su) (su_wages su) k = Ok V
                  /\ array_le (divide_scalar (su_wages su) (1 - beta)) V
                  /\ nondecreasing V)
  /\ (forall V, array_le (divide_scalar (su_wages su) (1 - beta)) V ->
                nondecreasing V ->
        exists T, Tv V (su_b su) beta (su_p su) (su_wages su) = Ok T
                  /\ array_le (divide_scalar (su_wages su) (1 - beta)) T
                  /\ nondecreasing T)
  /\ (forall v_tol max_iter s,
        McCall_VFI_run theta beta mu sigma w_min w_max n v_tol max_iter = Ok (Exit s) ->
        (1 <= st_iter s)%Z ->
        array_le (divide_scalar (su_wages su) (1 - beta)) (st_V s)
        /\ nondecreasing (st_V s)).
Proof.
  intros Hbeta Hw Hsu Hpos Hex.
  destruct (McCall_setup_inv _ _ _ _ _ _ _ Hsu) as (Hlin & Hp & Hlen).
  pose proof (linspace_nondecreasing _ _ _ _ Hw Hlin) as Hmono.
  assert (Hne : su_wages su <> []).
  { intros E. rewrite E in Hex. inversion Hex. }
  assert (Hiter : forall k, (1 <= k)%nat ->
            array_le (divide_scalar (su_wages su) (1 - beta))
                     (vfi_V (su_b su) beta (su_p su) (su_wages su) k)
            /\ nondecreasing (vfi_V (su_b su) beta (su_p su) (su_wages su) k)).
  { intros [| k] Hk; [lia |]. unfold vfi_V. simpl. split.
    - apply bellman_above.
    - now apply bellman_nondecreasing. }
  split; [| split; [| split]].
  - rewrite Hp. now apply normalised_probabilities.
  - intros k Hk. exists (vfi_V (su_b su) beta (su_p su) (su_wages su) k).
    split; [now apply VFI_iterate_vfi_V | now apply Hiter].
  - intros V HV _. exists (bellman (su_b su) beta (su_p su) (su_wages su) V).
    split; [| split].
    + apply Tv_same_size. apply array_le_length in HV.
      unfold divide_scalar in HV. rewrite length_map in HV. congruence.
    + apply bellman_above.
    + now apply bellman_nondecreasing.
  - intros v_tol max_iter s Hs Hit.
    destruct (McCall_VFI_run_char theta beta mu sigma w_min w_max n v_tol max_iter
                su Hsu Hlen Hne) as (k & Hrun & _).
    rewrite Hrun in Hs. injection Hs as <-. simpl in *. apply Hiter. lia.
Qed.

Lemma McCall_VFI_invariants_witness :
  exists su,
    99 / 100 < 1 /\ 10 <= 100
    /\ McCall_setup (3 / 10) 40 (1 / 2) 10 100 1 = Ok su
    /\ Forall (Rle 0) (Stats.lognorm_pdf (su_wages su) (1 / 2) 40)
    /\ Exists (fun x => x <> 0) (Stats.lognorm_pdf (su_wages su) (1 / 2) 40)
    /\ ((Forall (Rle 0) (su_p su) /\ Np.sum (su_p su) = 1)
        /\ (forall k, (1 <= k)%nat ->
              exists V, VFI_iterate (su_b su) (99 / 100) (su_p su) (su_wages su) k = Ok V
                        /\ array_le (divide_scalar (su_wages su) (1 - 99 / 100)) V
                        /\ nondecreasing V)
        /\ (forall V, array_le (divide_scalar (su_wages su) (1 - 99 / 100)) V ->
                      nondecreasing V ->
              exists T, Tv V (su_b su) (99 / 100) (su_p su) (su_wages su) = Ok T
                        /\ array_le (divide_scalar (su_wages su) (1 - 99 / 100)) T
                        /\ nondecreasing T)
        /\ (forall v_tol max_iter s,
              McCall_VFI_run (3 / 10) (99 / 100) 40 (1 / 2) 10 100 1 v_tol max_iter
              = Ok (Exit s) ->
              (1 <= st_iter s)%Z ->
              array_le (divide_scalar (su_wages su) (1 - 99 / 100)) (st_V s)
              /\ nondecreasing (st_V s))).
Proof.
  assert (H1 : 99 / 100 < 1) by lra.
  assert (H2 : 10 <= 100) by lra.
  eexists.
  split; [exact H1 | split; [exact H2 |]].
  assert (H3 : McCall_setup (3 / 10) 40 (1 / 2) 10 100 1
               = Ok (Setup
                       [10 + 0 * ((100 - 10) / 1); 10 + 1 * ((100 - 10) / 1)]
                       (divide_scalar
                          (Stats.lognorm_pdf
                             [10 + 0 * ((100 - 10) / 1); 10 + 1 * ((100 - 10) / 1)]
                             (1 / 2) 40)
                          (Np.sum
                             (Stats.lognorm_pdf
                                [10 + 0 * ((100 - 10) / 1); 10 + 1 * ((100 - 10) / 1)]
                                (1 / 2) 40)))
                       (3 / 10 *
                        Np.sum
                          (zip_with Rmult
                             [10 + 0 * ((100 - 10) / 1); 10 + 1 * ((100 - 10) / 1)]
                             (divide_scalar
                                (Stats.lognorm_pdf
                                   [10 + 0 * ((100 - 10) / 1); 10 + 1 * ((100 - 10) / 1)]
                                   (1 / 2) 40)
                                (Np.sum
                                   (Stats.lognorm_pdf
                                      [10 + 0 * ((100 - 10) / 1);
                                       10 + 1 * ((100 - 10) / 1)]
                                      (1 / 2) 40)))))))
    by reflexivity.
  assert (H4 : Forall (Rle 0)
                 (Stats.lognorm_pdf
                    [10 + 0 * ((100 - 10) / 1); 10 + 1 * ((100 - 10) / 1)] (1 / 2) 40))
    by (apply lognorm_pdf_nonneg; lra).
  assert (H5 : Exists (fun x => x <> 0)
                 (Stats.lognorm_pdf
                    [10 + 0 * ((100 - 10) / 1); 10 + 1 * ((100 - 10) / 1)] (1 / 2) 40))
    by (apply lognorm_pdf_head_pos; lra).
  split; [exact H3 | split; [exact H4 | split; [exact H5 |]]].
  exact (McCall_VFI_invariants (3 / 10) (99 / 100) 40 (1 / 2) 10 100 1 _ H1 H2 H3 H4 H5).
Defined.

(** C9, as the claim has it, fails without [beta < 1]: with [beta = 2] and
    [theta = -100] (the other arguments as in the notebook, on a two-point
    grid) the density values are non-negative and not all zero and the grid
    increases, yet every iterate from the first pass on is [[-10; -100]],
    which decreases with the wage index. *)
Lemma McCall_VFI_beta_counterexample :
  exists su,
    McCall_setup (-100) 40 (1 / 2) 10 100 1 = Ok su
    /\ Forall (Rle 0) (Stats.lognorm_pdf (su_wages su) (1 / 2) 40)
    /\ Exists (fun x => x <> 0) (Stats.lognorm_pdf (su_wages su) (1 / 2) 40)
    /\ nondecreasing (su_wages su)
    /\ (forall k, (1 <= k)%nat ->
          VFI_iterate (su_b su) 2 (su_p su) (su_wages su) k = Ok [-10; -100])
    /\ ~ nondecreasing [-10; -100].
Proof.
  set (w0 := 10 + 0 * ((100 - 10) / 1)).
  set (w1 := 10 + 1 * ((100 - 10) / 1)).
  set (pdf := Stats.lognorm_pdf [w0; w1] (1 / 2) 40).
  set (p := divide_scalar pdf (Np.sum pdf)).
  set (b := -100 * Np.sum (zip_with Rmult [w0; w1] p)).
  assert (Hsu : McCall_setup (-100) 40 (1 / 2) 10 100 1 = Ok (Setup [w0; w1] p b))
    by reflexivity.
  assert (Hpos : Forall (Rle 0) pdf) by (apply lognorm_pdf_nonneg; lra).
  assert (Hex : Exists (fun x => x <> 0) pdf)
    by (apply lognorm_pdf_head_pos; unfold w0; lra).
  destruct (normalised_probabilities pdf Hpos Hex) as [Hp Hsum].
  fold p in Hp, Hsum.
  assert (Hlen : length p = 2%nat).
  { unfold p, divide_scalar, pdf, Stats.lognorm_pdf. now rewrite !length_map. }
  assert (Hstep : forall V, V = Np.zeros 2 \/ V = [-10; -100] ->
            bellman b 2 p [w0; w1] V = [-10; -100]).
  { intros V HV. unfold bellman.
    assert (Hsearch : b + 2 * Np.sum (zip_with Rmult V p) <= -1000).
    { clear Hsu. unfold b.
      destruct p as [| p0 [| p1 [| p2 p']]]; try discriminate Hlen.
      inversion Hp as [| ? ? Hp0 Hp']; subst. inversion Hp' as [| ? ? Hp1 _]; subst.
      unfold Np.sum in *. simpl in Hsum.
      destruct HV as [-> | ->]; simpl; unfold w0, w1; nra. }
    unfold Np.maximum, divide_scalar. simpl map.
    replace (w0 / (1 - 2)) with (-10) by (unfold w0; field).
    replace (w1 / (1 - 2)) with (-100) by (unfold w1; field).
    rewrite !Rmax_left by lra. reflexivity. }
  exists (Setup [w0; w1] p b).
  split; [exact Hsu |]. cbn [su_wages su_p su_b].
  split; [exact Hpos | split; [exact Hex |]].
  split.
  { eapply (linspace_nondecreasing 10 100 2); [lra | reflexivity]. }
  split.
  { intros k Hk. rewrite VFI_iterate_vfi_V by exact Hlen. f_equal.
    induction k as [| k IH]; [lia |].
    unfold vfi_V. simpl Nat.iter. apply Hstep.
    destruct k as [| k]; [left; reflexivity | right; apply IH; lia]. }
  intros Hmono. specialize (Hmono 0%nat 1%nat ltac:(simpl; lia)). simpl in Hmono. lra.
Qed.

(** ** The claim about the root-finding notebook *)

Lemma analytical_solution_sqr (a c : R) :
  0 < a -> 0 < c ->
  0 < analytical_solution a c
  /\ analytical_solution a c * analytical_solution a c = a / c.
Proof.
  intros Ha Hc. unfold analytical_solution.
  assert (Hac : 0 < a / c) by now apply Rdiv_lt_0_compat.
  split.
  - now apply sqrt_lt_R0.
  - apply sqrt_sqrt. lra.
Qed.

Lemma avg_cost_derivative (a b c x : R) :
  x <> 0 ->
  derivable_pt_lim (fun y => avg_cost y (a, b, c)) x (FOC_AC x (a, b, c)).
Proof.
  intros Hx. unfold avg_cost, FOC_AC.
  assert (H : derivable_pt_lim
                (fct_cte a / id + fct_cte b + mult_real_fct c id)%F x
                ((0 * id x - 1 * fct_cte a x) / (id x)² + 0 + c * 1)).
  { apply derivable_pt_lim_plus; [apply derivable_pt_lim_plus |].
    - apply derivable_pt_lim_div.
      + apply derivable_pt_lim_const.
      + apply derivable_pt_lim_id.
      + exact Hx.
    - apply derivable_pt_lim_const.
    - apply derivable_pt_lim_scal. apply derivable_pt_lim_id. }
  replace (- a * / x ^ 2 + c)
    with ((0 * id x - 1 * fct_cte a x) / (id x)² + 0 + c * 1)
    by (unfold id, fct_cte, Rsqr; field; exact Hx).
  exact H.
Qed.

(** C3.  For positive cost parameters the closed form [(a/c)^(1/2)] is a
    zero of [FOC_AC], it is the only positive zero, it minimises [avg_cost]
    over [x > 0], and [FOC_AC] is the derivative of [avg_cost]; so a positive
    root of [FOC_AC], such as the one the root finder reports, is the closed
    form. *)
Theorem FOC_AC_closed_form (a b c : R) :
  0 < a -> 0 < b -> 0 < c ->
  FOC_AC (analytical_solution a c) (a, b, c) = 0
  /\ 0 < analytical_solution a c
  /\ (forall x, 0 < x -> FOC_AC x (a, b, c) = 0 -> x = analytical_solution a c)
  /\ (forall x, 0 < x ->
        avg_cost (analytical_solution a c) (a, b, c) <= avg_cost x (a, b, c))
  /\ (forall x, 0 < x ->
        derivable_pt_lim (fun y => avg_cost y (a, b, c)) x (FOC_AC x (a, b, c))).
Proof.
  intros Ha Hb Hc.
  destruct (analytical_solution_sqr a c Ha Hc) as [Hpos Hsq].
  set (xh := analytical_solution a c) in *.
  assert (Ha' : a = c * (xh * xh)) by (rewrite Hsq; field; lra).
  split; [| split; [exact Hpos | split; [| split]]].
  - unfold FOC_AC. simpl. rewrite Rmult_1_r, Hsq. field. lra.
  - intros x Hx Hroot. unfold FOC_AC in Hroot. simpl in Hroot.
    rewrite Rmult_1_r in Hroot.
    assert (Hxx : x * x = a / c).
    { assert (Hinv : / (x * x) * (x * x) = 1) by (field; lra).
      assert (Hcx : c * (x * x) = a) by nra.
      rewrite <- Hcx. field. lra. }
    unfold xh, analytical_solution. rewrite <- Hxx.
    symmetry. apply sqrt_square. lra.
  - intros x Hx. unfold avg_cost.
    assert (Hdiff : a * / x + b + c * x - (a * / xh + b + c * xh)
                    = c * ((x - xh) * (x - xh)) * / x).
    { rewrite Ha'. field. lra. }
    assert (0 <= c * ((x - xh) * (x - xh)) * / x).
    { apply Rmult_le_pos; [apply Rmult_le_pos; [lra | apply Rle_0_sqr] |].
      left. now apply Rinv_0_lt_compat. }
    lra.
  - intros x Hx. apply avg_cost_derivative. lra.
Qed.

Lemma FOC_AC_closed_form_witness :
  0 < 1 /\ 0 < 2 /\ 0 < 3
  /\ (FOC_AC (analytical_solution 1 3) (1, 2, 3) = 0
      /\ 0 < analytical_solution 1 3
      /\ (forall x, 0 < x -> FOC_AC x (1, 2, 3) = 0 -> x = analytical_solution 1 3)
      /\ (forall x, 0 < x ->
            avg_cost (analytical_solution 1 3) (1, 2, 3) <= avg_cost x (1, 2, 3))
      /\ (forall x, 0 < x ->
            derivable_pt_lim (fun y => avg_cost y (1, 2, 3)) x (FOC_AC x (1, 2, 3)))).
Proof.
  assert (H1 : 0 < 1) by lra.
  assert (H2 : 0 < 2) by lra.
  assert (H3 : 0 < 3) by lra.
  split; [exact H1 | split; [exact H2 | split; [exact H3 |]]].
  exact (FOC_AC_closed_form 1 2 3 H1 H2 H3).
Defined.

(** ** The claim about the chunked mean *)

Lemma series_sum_app (c c' : column) :
  series_sum (c ++ c') = series_sum c + series_sum c'.
Proof.
  induction c as [| [x |] c IH]; simpl.
  - lra.
  - fold (series_sum (c ++ c')). fold (series_sum c). rewrite IH. lra.
  - exact IH.
Qed.

Lemma series_count_app (c c' : column) :
  series_count (c ++ c') = (series_count c + series_count c')%Z.
Proof.
  induction c as [| [x |] c IH]; simpl.
  - reflexivity.
  - fold (series_count (c ++ c')). fold (series_count c). rewrite IH. lia.
  - exact IH.
Qed.

Lemma chunked_loop_acc (chunks : list column) (total : R) (count : Z) :
  fold_left (fun '(total, count) chunk =>
               (total + series_sum chunk, (count + series_count chunk)%Z))
            chunks (total, count)
  = (total + series_sum (concat chunks), (count + series_count (concat chunks))%Z).
Proof.
  revert total count. induction chunks as [| c chunks IH]; intros total count; simpl.
  - f_equal; first [lra | lia].
  - rewrite IH, series_sum_app, series_count_app. f_equal; first [lra | lia].
Qed.

Lemma chunked_loop_concat (chunks : list column) :
  chunked_loop chunks = (series_sum (concat chunks), series_count (concat chunks)).
Proof.
  unfold chunked_loop. rewrite chunked_loop_acc. f_equal; first [lra | lia].
Qed.

Lemma split_chunks_concat (k : nat) (rows : column) :
  concat (split_chunks k rows) = rows.
Proof.
  funelim (split_chunks k rows); simp split_chunks.
  - reflexivity.
  - cbn [concat].
    match goal with IH : concat _ = _ |- _ => rewrite IH end.
    apply firstn_skipn.
Qed.

Lemma read_csv_chunks_concat (chunksize : Z) (table : column) (chunks : list column) :
  read_csv_chunks chunksize table = Ok chunks -> concat chunks = table.
Proof.
  unfold read_csv_chunks. destruct (chunksize <? 1)%Z; [discriminate |].
  intros [= <-]. destruct table as [| r table].
  - reflexivity.
  - apply split_chunks_concat.
Qed.

(** C10.  [chunked_data] computes the mean [full_data] computes: for every
    table cut into consecutive chunks, the sum of the per-chunk sums over
    the sum of the per-chunk counts is the mean of the whole column, missing
    entries being left out of sums and counts alike; so it is for the chunks
    of 100000 rows the function reads. *)
Theorem chunked_data_full_data (table : column) (chunks : list column) :
  chunked_data table = Ok (full_data table)
  /\ (let '(total, count) := chunked_loop chunks in true_divide total count)
     = full_data (concat chunks).
Proof.
  assert (H : forall cs : list column,
             (let '(total, count) := chunked_loop cs in true_divide total count)
             = full_data (concat cs)).
  { intros cs. rewrite chunked_loop_concat. reflexivity. }
  split; [| apply H].
  unfold chunked_data.
  destruct (read_csv_chunks 100000 table) as [cs | e] eqn:E.
  - cbn [bind]. specialize (H cs). rewrite (read_csv_chunks_concat _ _ _ E) in H.
    destruct (chunked_loop cs) as [total count]. now rewrite H.
  - unfold read_csv_chunks in E.
    change (100000 <? 1)%Z with false in E. discriminate.
Qed.

(** ** The claim about the downcast cell *)

Lemma dtype_eqb_eq (d d' : dtype) : dtype_eqb d d' = true <-> d = d'.
Proof. destruct d, d'; simpl; split; intros H; try reflexivity; discriminate H. Qed.

(** The loop of [to_numeric] returns the column it was given or a column
    some step made, of the dtype of that step. *)
Lemma downcast_loop_cases {A : Type} (maybe_downcast : Series A -> dtype -> Series A)
    (made : dtype -> Series A -> Series A -> Prop) :
  (forall s d, maybe_downcast s d = s
               \/ (s_dtype (maybe_downcast s d) = d /\ made d s (maybe_downcast s d))) ->
  forall typecodes s,
    downcast_loop maybe_downcast typecodes s = s
    \/ exists d, In d typecodes
                 /\ s_dtype (downcast_loop maybe_downcast typecodes s) = d
                 /\ made d s (downcast_loop maybe_downcast typecodes s).
Proof.
  intros Hstep typecodes. induction typecodes as [| d tc IH]; intros s; simpl.
  - now left.
  - destruct (itemsize d <=? itemsize (s_dtype s))%Z.
    + destruct (Hstep s d) as [E | [Hd Hm]].
      * rewrite E. destruct (dtype_eqb (s_dtype s) d); [now left |].
        destruct (IH s) as [E' | (d' & Hin & Hd' & Hm')]; [now left | right].
        exists d'. auto.
      * assert (Hb : dtype_eqb (s_dtype (maybe_downcast s d)) d = true)
          by now apply dtype_eqb_eq.
        rewrite Hb. right. exists d. auto.
    + destruct (IH s) as [E' | (d' & Hin & Hd' & Hm')]; [now left | right].
      exists d'. auto.
Qed.

Lemma IZR_close_eq (a b : Z) : Rabs (IZR a - IZR b) <= 1 / 10 ^ 8 -> a = b.
Proof.
  intros H. rewrite <- minus_IZR, <- abs_IZR in H.
  destruct (Z.eq_dec a b) as [E | E]; [exact E | exfalso].
  assert (Hz : (1 <= Z.abs (a - b))%Z) by lia.
  apply IZR_le in Hz.
  assert (Hs : 1 / 10 ^ 8 < 1).
  { apply Rmult_lt_reg_r with (10 ^ 8); [apply pow_lt; lra |].
    unfold Rdiv. rewrite Rmult_assoc, Rinv_l by (apply pow_nonzero; lra).
    simpl. lra. }
  lra.
Qed.

Lemma allclose_to_float (l : list Z) : forall l' : list Z,
  length l = length l' ->
  allclose (1 / 10 ^ 8) (to_float l) (to_float l') = true -> l = l'.
Proof.
  unfold allclose, to_float.
  induction l as [| a l IH]; intros [| b l'] Hlen H; try discriminate Hlen;
    [reflexivity |].
  cbn [map combine forallb fst snd isclose] in H. apply andb_prop in H as [H1 H2].
  destruct (Rle_dec (Rabs (IZR a - IZR b)) (1 / 10 ^ 8)) as [Hc | Hc];
    [| discriminate H1].
  f_equal; [now apply IZR_close_eq | apply IH; [simpl in Hlen; lia | exact H2]].
Qed.

Lemma isclose_refl (atol : R) (a : option R) : 0 <= atol -> isclose atol a a = true.
Proof.
  intros H. destruct a as [x |]; simpl; [| reflexivity].
  destruct (Rle_dec (Rabs (x - x)) atol) as [_ | Hn]; [reflexivity |].
  exfalso. apply Hn. rewrite Rminus_diag, Rabs_R0. exact H.
Qed.

Lemma allclose_refl (atol : R) (c : column) : 0 <= atol -> allclose atol c c = true.
Proof.
  intros H. unfold allclose. induction c as [| a c IH]; simpl; [reflexivity |].
  now rewrite isclose_refl, IH.
Qed.

Lemma tol_int_nonneg : 0 <= 1 / 10 ^ 8.
Proof.
  apply Rlt_le, Rdiv_lt_0_compat; [lra | apply pow_lt; lra].
Qed.

(** A cast is kept only when it changed nothing; the entries then fit the
    unsigned type. *)
Lemma maybe_downcast_numeric_cases (s : Series Z) (d : dtype) :
  maybe_downcast_numeric s d = s
  \/ (s_dtype (maybe_downcast_numeric s d) = d
      /\ s_values (maybe_downcast_numeric s d) = s_values s
      /\ (kind d = kind_u -> Forall (fits d) (s_values s))).
Proof.
  unfold maybe_downcast_numeric.
  destruct (_ && _ && _); [now left |].
  destruct (kind d) eqn:Hk; try (now left).
  - destruct s as [dt [| v vs]]; cbn [s_values s_dtype map].
    + right. repeat split. discriminate.
    + change (astype_int d v :: map (astype_int d) vs)
        with (map (astype_int d) (v :: vs)).
      set (new := map (astype_int d) (v :: vs)).
      destruct (allclose (1 / 10 ^ 8) (to_float new) (to_float (v :: vs))) eqn:Hc;
        [right | now left].
      apply allclose_to_float in Hc; [| apply length_map].
      cbn [s_values s_dtype]. repeat split; [exact Hc | discriminate].
  - destruct s as [dt [| v vs]]; cbn [s_values s_dtype map].
    + right. repeat split. constructor.
    + change (astype_int d v :: map (astype_int d) vs)
        with (map (astype_int d) (v :: vs)).
      set (new := map (astype_int d) (v :: vs)).
      destruct (allclose (1 / 10 ^ 8) (to_float new) (to_float (v :: vs))) eqn:Hc;
        [right | now left].
      apply allclose_to_float in Hc; [| apply length_map].
      cbn [s_values s_dtype]. repeat split; [exact Hc |]. intros _.
      rewrite <- Hc. unfold new. apply List.Forall_forall. intros x Hx.
      apply in_map_iff in Hx as (y & <- & _).
      unfold fits, astype_int. rewrite Hk.
      apply Z.mod_pos_bound. apply Z.pow_pos_nonneg; [lia |].
      destruct d; simpl; lia.
Qed.

(** On a column of another kind whose entries fit, the cast is kept. *)
Lemma maybe_downcast_numeric_fits (s : Series Z) (d : dtype) :
  kind d = kind_u -> kind (s_dtype s) <> kind_u ->
  Forall (fits d) (s_values s) ->
  maybe_downcast_numeric s d = MkSeries d (s_values s).
Proof.
  intros Hk Hs Hfit. unfold maybe_downcast_numeric.
  assert (Hkind : kind_eqb (kind d) (kind (s_dtype s)) = false).
  { rewrite Hk. destruct (kind (s_dtype s)); try reflexivity. now contradiction Hs. }
  rewrite Hkind. cbn [andb]. rewrite Hk.
  assert (Hmap : map (astype_int d) (s_values s) = s_values s).
  { induction Hfit as [| v vs Hv _ IH]; [reflexivity |]. simpl. f_equal; [| exact IH].
    unfold astype_int. rewrite Hk. apply Z.mod_small. exact Hv. }
  destruct (s_values s) as [| v vs] eqn:Ev; [reflexivity |].
  rewrite Hmap. rewrite allclose_refl by apply tol_int_nonneg. reflexivity.
Qed.

(** Where an entry does not fit, the cast is given up. *)
Lemma maybe_downcast_numeric_misfit (s : Series Z) (d : dtype) :
  kind d = kind_u -> ~ Forall (fits d) (s_values s) ->
  maybe_downcast_numeric s d = s.
Proof.
  intros Hk Hfit.
  destruct (maybe_downcast_numeric_cases s d) as [E | (_ & _ & H)]; [exact E |].
  contradiction (Hfit (H Hk)).
Qed.

Lemma fold_left_Zmin_le (vs : list Z) : forall v : Z,
  (0 <= v)%Z -> Forall (fun x => 0 <= x)%Z vs -> (0 <= fold_left Z.min vs v)%Z.
Proof.
  induction vs as [| x vs IH]; intros v Hv Hvs; simpl; [exact Hv |].
  inversion Hvs; subst. apply IH; [lia | assumption].
Qed.

Lemma min_nonneg_fits (d : dtype) (values : list Z) :
  Forall (fits d) values -> min_nonneg values = true.
Proof.
  intros H. destruct values as [| v vs]; [reflexivity |]. simpl.
  inversion H as [| ? ? Hv Hvs]; subst. apply Z.leb_le.
  apply fold_left_Zmin_le; [unfold fits in Hv; lia |].
  eapply List.Forall_impl; [| exact Hvs]. unfold fits. intros; lia.
Qed.

Lemma fits_dec (d : dtype) (values : list Z) :
  {Forall (fits d) values} + {~ Forall (fits d) values}.
Proof.
  apply Forall_dec. intros v. unfold fits.
  destruct (Z_le_dec 0 v); [| right; lia].
  destruct (Z_lt_dec v (2 ^ (8 * itemsize d))); [left | right]; lia.
Qed.

Lemma to_numeric_unsigned_values (s : Series Z) :
  s_values (to_numeric_unsigned s) = s_values s.
Proof.
  unfold to_numeric_unsigned. destruct (_ || _); [| reflexivity].
  destruct (downcast_loop_cases maybe_downcast_numeric
              (fun _ s0 s1 => s_values s1 = s_values s0)
              ltac:(intros s0 d0;
                    destruct (maybe_downcast_numeric_cases s0 d0) as [E | (H1 & H2 & _)];
                    [now left | right; now split])
              [uint8; uint16; uint32; uint64] s) as [E | (d & _ & _ & H)].
  - now rewrite E.
  - exact H.
Qed.

(** The dtype [to_numeric] picks for an [int64] column whose entries fit an
    unsigned type is unsigned and no wider than that type. *)
Lemma to_numeric_unsigned_dtype (s : Series Z) (d : dtype) :
  In d [uint8; uint16; uint32; uint64] -> s_dtype s = int64 ->
  Forall (fits d) (s_values s) ->
  kind (s_dtype (to_numeric_unsigned s)) = kind_u
  /\ (itemsize (s_dtype (to_numeric_unsigned s)) <= itemsize d)%Z.
Proof.
  intros Hd Hs Hfit. unfold to_numeric_unsigned.
  rewrite (min_nonneg_fits d _ Hfit), orb_true_r.
  assert (Hk : kind (s_dtype s) <> kind_u) by (rewrite Hs; discriminate).
  assert (Hstep : forall d', kind d' = kind_u ->
            (Forall (fits d') (s_values s)
             /\ maybe_downcast_numeric s d' = MkSeries d' (s_values s))
            \/ (~ Forall (fits d') (s_values s) /\ maybe_downcast_numeric s d' = s)).
  { intros d' Hd'. destruct (fits_dec d' (s_values s)) as [F | F]; [left | right].
    - split; [exact F | now apply maybe_downcast_numeric_fits].
    - split; [exact F | now apply maybe_downcast_numeric_misfit]. }
  assert (Hwiden : forall d1 d2, (itemsize d1 <= itemsize d2)%Z ->
            Forall (fits d1) (s_values s) -> Forall (fits d2) (s_values s)).
  { intros d1 d2 Hle. apply List.Forall_impl. unfold fits. intros v [H0 H1].
    split; [exact H0 |]. eapply Z.lt_le_trans; [exact H1 |].
    apply Z.pow_le_mono_r; lia. }
  cbn [downcast_loop]. rewrite Hs. cbn [itemsize Z.leb Z.compare].
  destruct (Hstep uint8 eq_refl) as [[F8 E8] | [F8 E8]]; rewrite E8.
  { cbn [s_dtype dtype_eqb kind itemsize]. split; [reflexivity |].
    destruct Hd as [<- | [<- | [<- | [<- | []]]]]; simpl; lia. }
  rewrite Hs. cbn [dtype_eqb].
  destruct (Hstep uint16 eq_refl) as [[F16 E16] | [F16 E16]]; rewrite E16.
  { cbn [s_dtype dtype_eqb kind itemsize]. split; [reflexivity |].
    destruct Hd as [<- | [<- | [<- | [<- | []]]]]; simpl; try lia; contradiction. }
  rewrite Hs. cbn [dtype_eqb].
  destruct (Hstep uint32 eq_refl) as [[F32 E32] | [F32 E32]]; rewrite E32.
  { cbn [s_dtype dtype_eqb kind itemsize]. split; [reflexivity |].
    destruct Hd as [<- | [<- | [<- | [<- | []]]]]; simpl; try lia; contradiction. }
  rewrite Hs. cbn [dtype_eqb].
  destruct (Hstep uint64 eq_refl) as [[F64 E64] | [F64 E64]]; rewrite E64.
  { cbn [s_dtype dtype_eqb kind itemsize]. split; [reflexivity |].
    destruct Hd as [<- | [<- | [<- | [<- | []]]]]; simpl; try lia; contradiction. }
  exfalso. apply F64.
  destruct Hd as [<- | [<- | [<- | [<- | []]]]];
    [apply (Hwiden uint8) | apply (Hwiden uint16) | apply (Hwiden uint32) | ];
    try assumption; simpl; lia.
Qed.

Lemma within_iff (tol x y : R) : within tol x y <-> - tol <= x - y <= tol.
Proof.
  unfold within. split; intros H.
  - pose proof (Rle_abs (x - y)). pose proof (Rle_abs (- (x - y))) as H'.
    rewrite Rabs_Ropp in H'. lra.
  - apply Rabs_le. exact H.
Qed.

Lemma within_refl (tol x : R) : 0 <= tol -> within tol x x.
Proof. intros H. apply within_iff. lra. Qed.

Lemma stat_close_refl (tol : R) (a : option R) : 0 <= tol -> stat_close tol a a.
Proof. intros H. destruct a; simpl; [now apply within_refl | exact I]. Qed.

Lemma stat_close_mono (tol tol' : R) (a b : option R) :
  tol <= tol' -> stat_close tol a b -> stat_close tol' a b.
Proof. intros H. destruct a, b; simpl; auto. intros H'. lra. Qed.

Lemma Forall2_refl {A : Type} (P : A -> A -> Prop) (l : list A) :
  (forall a, P a a) -> Forall2 P l l.
Proof. intros H. induction l; constructor; auto. Qed.

Lemma Forall2_same_length {A B : Type} (P : A -> B -> Prop) (l : list A) (k : list B) :
  Forall2 P l k -> length l = length k.
Proof. induction 1; simpl; congruence. Qed.

Lemma allclose_Forall2 (atol : R) (a : column) : forall b : column,
  length a = length b -> allclose atol a b = true -> Forall2 (stat_close atol) a b.
Proof.
  unfold allclose. induction a as [| x a IH]; intros [| y b] Hlen H;
    try discriminate Hlen; [constructor |].
  cbn [combine forallb fst snd] in H. apply andb_prop in H as [H1 H2].
  constructor; [| apply IH; [simpl in Hlen; lia | exact H2]].
  destruct x as [x |], y as [y |]; simpl in *; try discriminate H1; [| exact I].
  destruct (Rle_dec (Rabs (x - y)) atol); [assumption | discriminate H1].
Qed.

Lemma Forall2_allclose (atol : R) (a b : column) :
  Forall2 (stat_close atol) a b -> allclose atol a b = true.
Proof.
  unfold allclose. induction 1 as [| x y a b Hxy _ IH]; [reflexivity |].
  cbn [combine forallb fst snd]. rewrite IH, andb_true_r.
  destruct x as [x |], y as [y |]; simpl in *; try contradiction; [| reflexivity].
  destruct (Rle_dec (Rabs (x - y)) atol); [reflexivity | contradiction].
Qed.

Section Float32Facts.

Variable astype_float32 : R -> option R.

Lemma astype_column_length (d : dtype) (values : column) : forall new : column,
  astype_column astype_float32 d values = Some new -> length new = length values.
Proof.
  induction values as [| x values IH]; intros new H; simpl in H.
  - injection H as <-. reflexivity.
  - destruct (astype_float astype_float32 d x); [| discriminate H].
    destruct (astype_column astype_float32 d values); [| discriminate H].
    injection H as <-. simpl. f_equal. now apply IH.
Qed.

(** A float cast is kept only when every entry stayed within the tolerance
    of the size. *)
Lemma maybe_downcast_numeric_float_cases (s : Series (option R)) (d : dtype) :
  maybe_downcast_numeric_float astype_float32 s d = s
  \/ (s_dtype (maybe_downcast_numeric_float astype_float32 s d) = d
      /\ Forall2 (stat_close (size_tols d))
           (s_values (maybe_downcast_numeric_float astype_float32 s d)) (s_values s)).
Proof.
  unfold maybe_downcast_numeric_float.
  destruct (_ && _ && _); [now left |].
  destruct (kind d); try (now left).
  destruct (astype_column astype_float32 d (s_values s)) as [new |] eqn:Hnew;
    [| now left].
  destruct (allclose (size_tols d) new (s_values s)) eqn:Hc; [right | now left].
  cbn [s_dtype s_values]. split; [reflexivity |].
  apply allclose_Forall2; [now apply astype_column_length with d | exact Hc].
Qed.

Lemma size_tols_bound (d : dtype) : 0 <= size_tols d <= 5 / 10 ^ 4.
Proof.
  unfold size_tols. destruct d; simpl; lra.
Qed.

Lemma to_numeric_float_close (s : Series (option R)) :
  Forall2 (stat_close (5 / 10 ^ 4))
    (s_values (to_numeric_float astype_float32 s)) (s_values s).
Proof.
  unfold to_numeric_float.
  destruct (downcast_loop_cases (maybe_downcast_numeric_float astype_float32)
              (fun d s0 s1 => Forall2 (stat_close (size_tols d)) (s_values s1) (s_values s0))
              maybe_downcast_numeric_float_cases [float32; float64] s)
    as [E | (d & _ & _ & H)].
  - rewrite E. apply Forall2_refl. intros a. apply stat_close_refl.
    pose proof (size_tols_bound float32). lra.
  - eapply Forall2_impl; [exact H |]. intros a b.
    apply stat_close_mono. apply size_tols_bound.
Qed.

(** A [float64] column whose cast stays within the tolerance becomes the
    [float32] column of the cast entries. *)
Lemma to_numeric_float_kept (s : Series (option R)) (new : column) :
  s_dtype s = float64 ->
  astype_column astype_float32 float32 (s_values s) = Some new ->
  Forall2 (stat_close (5 / 10 ^ 4)) new (s_values s) ->
  to_numeric_float astype_float32 s = MkSeries float32 new.
Proof.
  intros Hs Hnew Hc. unfold to_numeric_float. cbn [downcast_loop].
  rewrite Hs. cbn [itemsize Z.leb Z.compare].
  unfold maybe_downcast_numeric_float. rewrite Hs.
  cbn [kind kind_eqb itemsize Z.leb Z.compare andb]. rewrite Hnew.
  change (size_tols float32) with (5 / 10 ^ 4).
  rewrite (Forall2_allclose _ _ _ Hc). reflexivity.
Qed.

End Float32Facts.

(** *** [describe] of two columns that agree entry by entry to [tol] *)

Lemma dropna_close (tol : R) (c' c : column) :
  Forall2 (stat_close tol) c' c -> Forall2 (within tol) (dropna c') (dropna c).
Proof.
  induction 1 as [| a b c' c Hab _ IH]; [constructor |].
  destruct a, b; simpl in *; try contradiction; [constructor |]; assumption.
Qed.

Lemma series_count_dropna (c : column) : series_count c = Z.of_nat (length (dropna c)).
Proof.
  induction c as [| [x |] c IH]; simpl; [reflexivity | | exact IH].
  unfold series_count in *. simpl. rewrite IH. lia.
Qed.

Lemma series_sum_dropna (c : column) : series_sum c = fold_right Rplus 0 (dropna c).
Proof.
  induction c as [| [x |] c IH]; simpl; [reflexivity | | exact IH].
  unfold series_sum in *. simpl. now rewrite IH.
Qed.

Lemma sum_close (tol : R) (xs ys : list R) :
  Forall2 (within tol) xs ys ->
  Rabs (fold_right Rplus 0 xs - fold_right Rplus 0 ys) <= INR (length xs) * tol.
Proof.
  induction 1 as [| x y xs ys Hxy _ IH].
  - simpl. rewrite Rminus_diag, Rabs_R0. lra.
  - cbn [fold_right length]. rewrite S_INR.
    apply within_iff in Hxy. apply (within_iff (INR (length xs) * tol)) in IH.
    apply (within_iff ((INR (length xs) + 1) * tol)). lra.
Qed.

Lemma series_mean_close (tol : R) (c' c : column) :
  Forall2 (stat_close tol) c' c -> stat_close tol (series_mean c') (series_mean c).
Proof.
  intros H. apply dropna_close in H.
  unfold series_mean, true_divide.
  rewrite !series_count_dropna, !series_sum_dropna.
  rewrite <- (Forall2_same_length _ _ _ H).
  pose proof (sum_close tol _ _ H) as Hs.
  destruct (Z.eqb_spec (Z.of_nat (length (dropna c'))) 0) as [E | E]; [exact I |].
  simpl. rewrite <- INR_IZR_INZ.
  assert (Hn : 0 < INR (length (dropna c'))) by (apply lt_0_INR; lia).
  set (n := INR (length (dropna c'))) in *.
  set (a := fold_right Rplus 0 (dropna c')) in *.
  set (b := fold_right Rplus 0 (dropna c)) in *.
  replace (a / n - b / n) with ((a - b) / n) by (field; lra).
  unfold Rdiv. rewrite Rabs_mult, (Rabs_right (/ n))
    by (apply Rle_ge, Rlt_le, Rinv_0_lt_compat; exact Hn).
  apply Rmult_le_reg_r with n; [exact Hn |].
  rewrite Rmult_assoc, Rinv_l by lra. lra.
Qed.

Lemma Rmin_close (tol a a' b b' : R) :
  within tol a a' -> within tol b b' -> within tol (Rmin a b) (Rmin a' b').
Proof.
  intros Ha Hb. apply within_iff in Ha, Hb. apply within_iff.
  unfold Rmin. destruct (Rle_dec a b), (Rle_dec a' b'); lra.
Qed.

Lemma Rmax_close (tol a a' b b' : R) :
  within tol a a' -> within tol b b' -> within tol (Rmax a b) (Rmax a' b').
Proof.
  intros Ha Hb. apply within_iff in Ha, Hb. apply within_iff.
  unfold Rmax. destruct (Rle_dec a b), (Rle_dec a' b'); lra.
Qed.

Lemma fold_left_close (f : R -> R -> R) (tol : R) (xs ys : list R) :
  (forall a a' b b', within tol a a' -> within tol b b' -> within tol (f a b) (f a' b')) ->
  Forall2 (within tol) xs ys ->
  forall x y, within tol x y -> within tol (fold_left f xs x) (fold_left f ys y).
Proof.
  intros Hf. induction 1 as [| a b xs ys Hab _ IH]; intros x y Hxy; simpl;
    [exact Hxy |].
  apply IH. now apply Hf.
Qed.

Lemma series_min_close (tol : R) (c' c : column) :
  Forall2 (stat_close tol) c' c -> stat_close tol (series_min c') (series_min c).
Proof.
  intros H. apply dropna_close in H. unfold series_min.
  destruct H as [| x y xs ys Hxy H]; simpl; [exact I |].
  apply (fold_left_close Rmin); [apply Rmin_close | exact H | exact Hxy].
Qed.

Lemma series_max_close (tol : R) (c' c : column) :
  Forall2 (stat_close tol) c' c -> stat_close tol (series_max c') (series_max c).
Proof.
  intros H. apply dropna_close in H. unfold series_max.
  destruct H as [| x y xs ys Hxy H]; simpl; [exact I |].
  apply (fold_left_close Rmax); [apply Rmax_close | exact H | exact Hxy].
Qed.

(** Sorting keeps two lists entry by entry within [tol]. *)
Lemma insert_value_sorted (a : R) (l : list R) : sorted l -> sorted (insert_value a l).
Proof.
  induction l as [| x l IH]; intros Hl; simpl; [auto |].
  destruct (Rle_dec a x) as [Hax | Hax].
  - split; [exact Hax | exact Hl].
  - destruct Hl as [Hx Hl]. specialize (IH Hl). split; [| exact IH].
    destruct l as [| y l]; simpl in *; [lra |].
    destruct (Rle_dec a y); lra.
Qed.

Lemma sort_values_sorted (l : list R) : sorted (sort_values l).
Proof.
  induction l as [| a l IH]; simpl; [exact I | now apply insert_value_sorted].
Qed.

Lemma insert_value_shift (tol : R) (xs ys : list R) :
  Forall2 (within tol) xs ys ->
  forall x b, sorted (x :: xs) -> within tol x b ->
    Forall2 (within tol) (x :: xs) (insert_value b ys).
Proof.
  induction 1 as [| x1 y1 xs ys H1 H IH]; intros x b Hs Hxb; simpl.
  - constructor; [exact Hxb | constructor].
  - destruct Hs as [Hx Hs].
    destruct (Rle_dec b y1) as [Hb | Hb].
    + constructor; [exact Hxb |]. constructor; assumption.
    + apply within_iff in Hxb. pose proof (proj1 (within_iff _ _ _) H1) as H1'.
      constructor; [apply within_iff; lra |].
      apply IH; [exact Hs | apply within_iff; lra].
Qed.

Lemma insert_value_shift_l (tol : R) (xs ys : list R) :
  Forall2 (within tol) xs ys ->
  forall a y, sorted (y :: ys) -> within tol a y ->
    Forall2 (within tol) (insert_value a xs) (y :: ys).
Proof.
  induction 1 as [| x1 y1 xs ys H1 H IH]; intros a y Hs Hay; simpl.
  - constructor; [exact Hay | constructor].
  - destruct Hs as [Hy Hs].
    destruct (Rle_dec a x1) as [Ha | Ha].
    + constructor; [exact Hay |]. constructor; assumption.
    + apply within_iff in Hay. pose proof (proj1 (within_iff _ _ _) H1) as H1'.
      constructor; [apply within_iff; lra |].
      apply IH; [exact Hs | apply within_iff; lra].
Qed.

Lemma insert_value_close (tol : R) (xs ys : list R) :
  Forall2 (within tol) xs ys -> sorted xs -> sorted ys ->
  forall a b, within tol a b ->
    Forall2 (within tol) (insert_value a xs) (insert_value b ys).
Proof.
  induction 1 as [| x y xs ys Hxy H IH]; intros Hsx Hsy a b Hab; simpl.
  - constructor; [exact Hab | constructor].
  - pose proof (proj1 (within_iff _ _ _) Hxy) as Hxy'.
    pose proof (proj1 (within_iff _ _ _) Hab) as Hab'.
    destruct (Rle_dec a x) as [Ha | Ha], (Rle_dec b y) as [Hb | Hb].
    + constructor; [exact Hab |]. constructor; assumption.
    + constructor; [apply within_iff; lra |].
      apply insert_value_shift; [exact H | exact Hsx | apply within_iff; lra].
    + constructor; [apply within_iff; lra |].
      apply insert_value_shift_l; [exact H | exact Hsy | apply within_iff; lra].
    + constructor; [exact Hxy |].
      apply IH; [exact (proj2 Hsx) | exact (proj2 Hsy) | exact Hab].
Qed.

Lemma sort_values_close (tol : R) (xs ys : list R) :
  Forall2 (within tol) xs ys -> Forall2 (within tol) (sort_values xs) (sort_values ys).
Proof.
  induction 1 as [| x y xs ys Hxy _ IH]; simpl; [constructor |].
  apply insert_value_close; auto using sort_values_sorted.
Qed.

Lemma nth_close (tol : R) (xs ys : list R) :
  0 <= tol -> Forall2 (within tol) xs ys ->
  forall i, within tol (nth i xs 0) (nth i ys 0).
Proof.
  intros Htol. induction 1 as [| x y xs ys Hxy _ IH]; intros [| i]; simpl;
    try (now apply within_refl); [exact Hxy | apply IH].
Qed.

Lemma series_quantile_close (tol q : R) (c' c : column) :
  0 <= tol -> Forall2 (stat_close tol) c' c ->
  stat_close tol (series_quantile q c') (series_quantile q c).
Proof.
  intros Htol H. apply dropna_close, sort_values_close in H.
  unfold series_quantile.
  set (xs := sort_values (dropna c')) in *. set (ys := sort_values (dropna c)) in *.
  pose proof (Forall2_same_length _ _ _ H) as Hlen. rewrite <- Hlen.
  destruct H as [| x y xs' ys' Hxy H]; [exact I |].
  set (X := x :: xs') in *. set (Y := y :: ys') in *.
  assert (HXY : Forall2 (within tol) X Y) by (constructor; assumption).
  set (h := (INR (length X) - 1) * q).
  set (lo := Z.to_nat (Int_part h)). set (hi := Nat.min (lo + 1) (length X - 1)).
  destruct (base_fp h) as [Hg0 Hg1]. set (g := frac_part h) in *.
  pose proof (proj1 (within_iff _ _ _) (nth_close tol X Y Htol HXY lo)) as Hlo.
  pose proof (proj1 (within_iff _ _ _) (nth_close tol X Y Htol HXY hi)) as Hhi.
  cbn [stat_close]. apply within_iff.
  set (a := nth lo X 0) in *. set (a' := nth lo Y 0) in *.
  set (b := nth hi X 0) in *. set (b' := nth hi Y 0) in *.
  replace (a + g * (b - a) - (a' + g * (b' - a')))
    with ((1 - g) * (a - a') + g * (b - b')) by ring.
  split; nra.
Qed.

(** The standard deviation: the triangle inequality of the Euclidean norm. *)
Lemma sq_dev_nonneg (m : R) (xs : list R) : 0 <= sq_dev m xs.
Proof.
  induction xs as [| x xs IH]; simpl; [lra |].
  pose proof (Rle_0_sqr (x - m)) as H. unfold Rsqr in H. lra.
Qed.

Lemma sq_gap_nonneg (cx cy : R) (xs ys : list R) : 0 <= sq_gap cx cy xs ys.
Proof.
  unfold sq_gap. induction (combine xs ys) as [| p l IH]; simpl; [lra |].
  pose proof (Rle_0_sqr ((snd p - cy) - (fst p - cx))) as H. unfold Rsqr in H. lra.
Qed.

Lemma sqrt_triangle (a b A B : R) :
  0 <= A -> 0 <= B ->
  sqrt ((a + b) * (a + b) + (sqrt A + sqrt B) * (sqrt A + sqrt B))
  <= sqrt (a * a + A) + sqrt (b * b + B).
Proof.
  intros HA HB.
  pose proof (sqrt_pos A) as Ha0. pose proof (sqrt_pos B) as Hb0.
  pose proof (sqrt_sqrt A HA) as HsA. pose proof (sqrt_sqrt B HB) as HsB.
  set (al := sqrt A) in *. set (be := sqrt B) in *.
  assert (HP : 0 <= a * a + A) by nra. assert (HQ : 0 <= b * b + B) by nra.
  pose proof (sqrt_pos (a * a + A)) as HP0. pose proof (sqrt_pos (b * b + B)) as HQ0.
  pose proof (sqrt_sqrt _ HP) as HsP. pose proof (sqrt_sqrt _ HQ) as HsQ.
  set (P := sqrt (a * a + A)) in *. set (Q := sqrt (b * b + B)) in *.
  assert (Hcs : a * b + al * be <= P * Q).
  { destruct (Rle_dec (a * b + al * be) (P * Q)) as [H | H]; [exact H | exfalso].
    apply Rnot_le_lt in H.
    assert (H2 : (a * b + al * be) * (a * b + al * be) <= (P * Q) * (P * Q)).
    { replace ((P * Q) * (P * Q)) with ((P * P) * (Q * Q)) by ring.
      rewrite HsP, HsQ, <- HsA, <- HsB.
      pose proof (Rle_0_sqr (a * be - al * b)) as Hsq. unfold Rsqr in Hsq. nra. }
    assert (H3 : 0 <= P * Q) by (apply Rmult_le_pos; assumption).
    nra. }
  rewrite <- (sqrt_square (P + Q)) by lra.
  apply sqrt_le_1_alt. nra.
Qed.

Lemma sq_dev_triangle (cx cy : R) (xs ys : list R) :
  length xs = length ys ->
  sqrt (sq_dev cy ys) <= sqrt (sq_dev cx xs) + sqrt (sq_gap cx cy xs ys).
Proof.
  revert ys. induction xs as [| x xs IH]; intros [| y ys] Hlen; try discriminate Hlen.
  - unfold sq_dev, sq_gap. simpl. rewrite sqrt_0. lra.
  - specialize (IH ys ltac:(simpl in Hlen; lia)).
    unfold sq_gap. cbn [sq_dev combine fold_right fst snd]. fold (sq_dev cx xs).
    fold (sq_dev cy ys). fold (sq_gap cx cy xs ys).
    pose proof (sq_dev_nonneg cx xs) as HA. pose proof (sq_gap_nonneg cx cy xs ys) as HB.
    pose proof (sq_dev_nonneg cy ys) as HC.
    set (A := sq_dev cx xs) in *. set (B := sq_gap cx cy xs ys) in *.
    set (C := sq_dev cy ys) in *.
    set (a := x - cx). set (b := (y - cy) - a).
    replace (y - cy) with (a + b) by (unfold b; ring).
    eapply Rle_trans; [| apply sqrt_triangle; assumption].
    apply sqrt_le_1_alt.
    assert (HCle : C <= (sqrt A + sqrt B) * (sqrt A + sqrt B)).
    { rewrite <- (sqrt_sqrt C HC).
      pose proof (sqrt_pos C). pose proof (sqrt_pos A). pose proof (sqrt_pos B). nra. }
    lra.
Qed.

Lemma sq_gap_expand (cx cy : R) (xs ys : list R) :
  Forall2 (fun _ _ => True) xs ys ->
  sq_gap cx cy xs ys
  = sq_gap 0 0 xs ys
    - 2 * (cy - cx) * (fold_right Rplus 0 ys - fold_right Rplus 0 xs)
    + INR (length xs) * ((cy - cx) * (cy - cx)).
Proof.
  unfold sq_gap. induction 1 as [| x y xs ys _ _ IH].
  - simpl. ring.
  - cbn [combine fold_right fst snd length]. rewrite S_INR, IH. ring.
Qed.

Lemma sq_gap_bound (tol : R) (xs ys : list R) :
  Forall2 (within tol) xs ys -> sq_gap 0 0 xs ys <= INR (length xs) * (tol * tol).
Proof.
  unfold sq_gap. induction 1 as [| x y xs ys Hxy _ IH].
  - simpl. lra.
  - cbn [combine fold_right fst snd length]. rewrite S_INR.
    apply within_iff in Hxy.
    assert (Hsq : (y - 0 - (x - 0)) * (y - 0 - (x - 0)) <= tol * tol) by nra.
    lra.
Qed.

Lemma sq_gap_means (tol : R) (xs ys : list R) :
  Forall2 (within tol) xs ys -> (0 < length xs)%nat ->
  sq_gap (fold_right Rplus 0 xs / INR (length xs))
         (fold_right Rplus 0 ys / INR (length ys)) xs ys
  <= INR (length xs) * (tol * tol).
Proof.
  intros H Hn. pose proof (Forall2_same_length _ _ _ H) as Hlen.
  rewrite sq_gap_expand by (eapply Forall2_impl; [exact H | auto]).
  rewrite <- Hlen.
  pose proof (sq_gap_bound tol xs ys H) as Hb.
  assert (Hpos : 0 < INR (length xs)) by (apply lt_0_INR; exact Hn).
  set (n := INR (length xs)) in *.
  set (sx := fold_right Rplus 0 xs). set (sy := fold_right Rplus 0 ys).
  replace (sy / n - sx / n) with ((sy - sx) / n) by (field; lra).
  set (d := sy - sx).
  replace (- 2 * (d / n) * d + n * (d / n * (d / n))) with (- (d * d / n))
    by (field; lra).
  replace (sq_gap 0 0 xs ys - 2 * (d / n) * d + n * (d / n * (d / n)))
    with (sq_gap 0 0 xs ys - d * d / n) by (field; lra).
  assert (Hd : 0 <= d * d / n).
  { apply Rmult_le_pos; [| apply Rlt_le, Rinv_0_lt_compat; exact Hpos].
    pose proof (Rle_0_sqr d) as Hs. unfold Rsqr in Hs. exact Hs. }
  lra.
Qed.

Lemma within_sym (tol x y : R) : within tol x y -> within tol y x.
Proof. unfold within. now rewrite Rabs_minus_sym. Qed.

Lemma Forall2_flip_within (tol : R) (xs ys : list R) :
  Forall2 (within tol) xs ys -> Forall2 (within tol) ys xs.
Proof. induction 1; constructor; [now apply within_sym | assumption]. Qed.

Lemma std_upper (tol : R) (xs ys : list R) :
  0 <= tol -> Forall2 (within tol) xs ys -> (2 <= length xs)%nat ->
  sqrt (sum_sq_dev ys / (INR (length ys) - 1))
  <= sqrt (sum_sq_dev xs / (INR (length xs) - 1)) + sqrt 2 * tol.
Proof.
  intros Htol H Hn. pose proof (Forall2_same_length _ _ _ H) as Hlen.
  unfold sum_sq_dev. cbv zeta.
  set (cx := fold_right Rplus 0 xs / INR (length xs)).
  set (cy := fold_right Rplus 0 ys / INR (length ys)).
  pose proof (sq_dev_triangle cx cy xs ys Hlen) as Htri.
  pose proof (sq_gap_means tol xs ys H ltac:(lia)) as Hgap.
  fold cx cy in Hgap. rewrite <- Hlen.
  assert (Hn2 : 2 <= INR (length xs)) by (apply (le_INR 2); exact Hn).
  set (n := INR (length xs)) in *.
  pose proof (sq_dev_nonneg cx xs) as HA. pose proof (sq_dev_nonneg cy ys) as HC.
  pose proof (sq_gap_nonneg cx cy xs ys) as HB.
  set (A := sq_dev cx xs) in *. set (C := sq_dev cy ys) in *.
  set (B := sq_gap cx cy xs ys) in *.
  assert (Hk : 0 < n - 1) by lra.
  rewrite !(sqrt_div_alt _ _ Hk).
  assert (Hsk : 0 < sqrt (n - 1)) by (apply sqrt_lt_R0; exact Hk).
  assert (HB2 : sqrt B <= sqrt (n - 1) * (sqrt 2 * tol)).
  { rewrite <- (sqrt_square tol) at 1 by exact Htol.
    rewrite <- !sqrt_mult_alt by lra.
    apply sqrt_le_1_alt. nra. }
  apply Rmult_le_reg_r with (sqrt (n - 1)); [exact Hsk |].
  unfold Rdiv. rewrite Rmult_plus_distr_r, !Rmult_assoc, Rinv_l by lra. lra.
Qed.

Lemma series_std_close (tol : R) (c' c : column) :
  0 <= tol -> Forall2 (stat_close tol) c' c ->
  stat_close (sqrt 2 * tol) (series_std c') (series_std c).
Proof.
  intros Htol H. apply dropna_close in H. unfold series_std.
  pose proof (Forall2_same_length _ _ _ H) as Hlen. rewrite <- Hlen.
  destruct (Nat.leb_spec (length (dropna c')) 1) as [Hn | Hn]; [exact I |].
  cbn [stat_close]. rewrite Hlen at 2. apply within_iff.
  pose proof (std_upper tol _ _ Htol H ltac:(lia)) as H1.
  pose proof (std_upper tol _ _ Htol (Forall2_flip_within _ _ _ H) ltac:(lia)) as H2.
  lra.
Qed.

(** [describe] of columns that agree to [tol]. *)
Lemma describe_column_close (tol : R) (c' c : column) :
  0 <= tol -> Forall2 (stat_close tol) c' c ->
  describe_close tol (describe c') (describe c).
Proof.
  intros Htol H. unfold describe_close, describe. cbn.
  repeat split.
  - rewrite !series_count_dropna.
    now rewrite (Forall2_same_length _ _ _ (dropna_close _ _ _ H)).
  - now apply series_mean_close.
  - now apply series_std_close.
  - now apply series_min_close.
  - now apply series_quantile_close.
  - now apply series_quantile_close.
  - now apply series_quantile_close.
  - now apply series_max_close.
Qed.


(** ** The claim about the Dask notebook *)

Section NotebookFacts.

Variable bytes : Type.
Variable merged_csv : bytes -> bytes.
Variable merged_part_csv : bytes -> bytes.

Lemma read_file_ok (path : string) (content : bytes) (fs : gmap string (node bytes)) :
  fs !! path = Some (File content) -> read_file bytes path fs = (Ok content, fs).
Proof. intros H. unfold read_file. now rewrite H. Qed.

Lemma pandas_to_csv_ok (dir name : string) (content : bytes)
    (fs : gmap string (node bytes)) :
  fs !! dir = Some Dir -> fs !! path_join dir name <> Some Dir ->
  pandas_to_csv bytes dir name content fs
  = (Ok tt, <[path_join dir name := File content]> fs).
Proof.
  intros Hd Hp. unfold pandas_to_csv. rewrite Hd.
  destruct (fs !! path_join dir name) as [[c |] |]; congruence.
Qed.

Lemma dask_to_csv_ok (dir name : string) (content : bytes)
    (fs : gmap string (node bytes)) :
  fs !! path_join dir name = None ->
  dask_to_csv bytes dir name content fs
  = (Ok tt,
     <[path_join (path_join dir name) "0.part" := File content]>
       (<[path_join dir name := Dir]> fs)).
Proof. intros H. unfold dask_to_csv. now rewrite H. Qed.

Lemma os_remove_file (path : string) (content : bytes) (fs : gmap string (node bytes)) :
  fs !! path = Some (File content) -> os_remove bytes path fs = (Ok tt, delete path fs).
Proof. intros H. unfold os_remove. now rewrite H. Qed.

Lemma os_remove_dir (path : string) (fs : gmap string (node bytes)) :
  fs !! path = Some Dir -> os_remove bytes path fs = (Raise IsADirectoryError, fs).
Proof. intros H. unfold os_remove. now rewrite H. Qed.

Lemma cell_bind_ok {A B : Type} (c : cell bytes A) (k : A -> cell bytes B)
    (fs fs' : gmap string (node bytes)) (a : A) :
  c fs = (Ok a, fs') -> cell_bind bytes c k fs = k a fs'.
Proof. intros H. unfold cell_bind. now rewrite H. Qed.

End NotebookFacts.

Ltac path_neq := let E := fresh in intros E; vm_compute in E; discriminate E.

Ltac lookup_path :=
  repeat (rewrite lookup_insert_ne by path_neq);
  first [ apply lookup_insert_eq | apply lookup_empty | assumption ].

(** A profiling script leaves the file system as it is but for the content
    of [trade_merged_pd.csv]. *)
Lemma shell_script_writes_pd (bytes : Type) (merged_csv : bytes -> bytes)
    (src : string) (content : bytes) (fs : gmap string (node bytes)) :
  fs !! DATA_DIR = Some Dir ->
  fs !! path_join DATA_DIR "trade_merged_pd.csv" = Some (File content) ->
  exists content',
    shell bytes
      (cell_bind bytes (read_file bytes src)
         (fun trade_data =>
            pandas_to_csv bytes DATA_DIR "trade_merged_pd.csv" (merged_csv trade_data)))
      fs
    = (Ok tt, <[path_join DATA_DIR "trade_merged_pd.csv" := File content']> fs).
Proof.
  intros Hdir Hpd. unfold shell, cell_bind, read_file.
  destruct (fs !! src) as [[c |] |]; cbn [snd].
  - exists (merged_csv c). rewrite pandas_to_csv_ok; [reflexivity | assumption | congruence].
  - exists content. now rewrite insert_id.
  - exists content. now rewrite insert_id.
Qed.

(** What the writing cells and the clean-up cell do to a data directory
    that does not hold the output names yet. *)
Lemma run_writing_cells_on (bytes : Type) (merged_csv merged_part_csv : bytes -> bytes)
    (df ddf : bytes) (fs : gmap string (node bytes)) :
  fs !! DATA_DIR = Some Dir ->
  fs !! path_join DATA_DIR "trade_merged_pd.csv" = None ->
  fs !! path_join DATA_DIR "trade_merged_dd.csv" = None ->
  run_writing_cells bytes merged_csv merged_part_csv df ddf fs
  = (Raise IsADirectoryError,
     <[path_join (path_join DATA_DIR "trade_merged_dd.csv") "0.part"
       := File (merged_part_csv ddf)]>
       (<[path_join DATA_DIR "trade_merged_dd.csv" := Dir]> fs)).
Proof.
  intros Bdir Bpd Bdd.
  set (pd := path_join DATA_DIR "trade_merged_pd.csv") in *.
  set (dd := path_join DATA_DIR "trade_merged_dd.csv") in *.
  set (dd0 := path_join dd "0.part") in *.
  set (s1 := <[pd := File (merged_csv df)]> fs).
  set (s2 := <[dd0 := File (merged_part_csv ddf)]> (<[dd := Dir]> s1)).
  assert (E1 : pd_profile_func bytes merged_csv df fs = (Ok tt, s1)).
  { apply pandas_to_csv_ok; [assumption | fold pd; congruence]. }
  assert (E2 : dd_profile_func bytes merged_part_csv ddf s1 = (Ok tt, s2)).
  { apply dask_to_csv_ok. fold dd. unfold s1, pd, dd. lookup_path. }
  assert (D2 : s2 !! DATA_DIR = Some Dir)
    by (unfold s2, s1, pd, dd0, dd; lookup_path).
  assert (P2 : s2 !! pd = Some (File (merged_csv df)))
    by (unfold s2, s1, pd, dd0, dd; lookup_path).
  destruct (shell_script_writes_pd bytes merged_csv DATA_FILE2 _ s2 D2 P2)
    as (c3 & E3).
  fold pd in E3. set (s3 := <[pd := File c3]> s2) in *.
  assert (D3 : s3 !! DATA_DIR = Some Dir)
    by (unfold s3, pd; rewrite lookup_insert_ne by path_neq; exact D2).
  assert (P3 : s3 !! pd = Some (File c3)) by apply lookup_insert_eq.
  destruct (shell_script_writes_pd bytes merged_csv
              (path_join DATA_DIR "trade_data_2022.csv") _ s3 D3 P3)
    as (c4 & E4).
  fold pd in E4. set (s4 := <[pd := File c4]> s3) in *.
  assert (E5 : cleanup bytes s4 = (Raise IsADirectoryError, delete pd s4)).
  { unfold cleanup. fold pd dd.
    rewrite (cell_bind_ok bytes _ _ s4 (delete pd s4) tt)
      by (apply (os_remove_file bytes pd c4); apply lookup_insert_eq).
    apply os_remove_dir. rewrite lookup_delete_ne by path_neq.
    unfold s4, s3, s2, s1, pd, dd0, dd. lookup_path. }
  unfold run_writing_cells, pandas_mem_profile, dask_mem_profile.
  rewrite (cell_bind_ok bytes _ _ _ _ _ E1), (cell_bind_ok bytes _ _ _ _ _ E2),
    (cell_bind_ok bytes _ _ _ _ _ E3), (cell_bind_ok bytes _ _ _ _ _ E4), E5.
  f_equal. unfold s4, s3. rewrite !delete_insert_eq.
  unfold s2. rewrite !delete_insert_ne by path_neq.
  unfold s1. rewrite delete_insert_eq. now rewrite delete_id.
Qed.

(** C7 fails on the code.  On a data directory holding the three input
    files, the writing cells followed by the clean-up cell end with
    [IsADirectoryError]: [trade_merged_pd.csv] is gone and the input files
    are as they were, but what Dask wrote is a directory
    [trade_merged_dd.csv] with the file [0.part]; [os.remove] does not delete
    a directory, and both outlive the run. *)
Lemma Dask_notebook_leaves_directory (bytes : Type)
    (merged_csv merged_part_csv : bytes -> bytes) (trade trade_2022 sitc : bytes) :
  let before := data_dir_before bytes trade trade_2022 sitc in
  let run := run_writing_cells bytes merged_csv merged_part_csv sitc sitc before in
  fst run = Raise IsADirectoryError
  /\ snd run = <[path_join (path_join DATA_DIR "trade_merged_dd.csv") "0.part"
                 := File (merged_part_csv sitc)]>
                 (<[path_join DATA_DIR "trade_merged_dd.csv" := Dir]> before)
  /\ before !! path_join DATA_DIR "trade_merged_dd.csv" = None
  /\ snd run !! path_join DATA_DIR "trade_merged_dd.csv" = Some Dir
  /\ snd run <> before.
Proof.
  intros before run.
  assert (Hrun := run_writing_cells_on bytes merged_csv merged_part_csv sitc sitc before).
  assert (Bdd : before !! path_join DATA_DIR "trade_merged_dd.csv" = None)
    by (unfold before, data_dir_before; lookup_path).
  unfold run. rewrite Hrun; try (unfold before, data_dir_before; lookup_path).
  cbn [fst snd].
  assert (Ha : (<[path_join (path_join DATA_DIR "trade_merged_dd.csv") "0.part"
                  := File (merged_part_csv sitc)]>
                  (<[path_join DATA_DIR "trade_merged_dd.csv" := Dir]> before))
               !! path_join DATA_DIR "trade_merged_dd.csv" = Some Dir)
    by lookup_path.
  split; [reflexivity | split; [reflexivity | split; [exact Bdd | split; [exact Ha |]]]].
  intros E. rewrite E, Bdd in Ha. discriminate.
Qed.

(** * Further properties of the embedded code *)

(** ** The Bellman operator and the iteration *)

Lemma Rmax_lipschitz (a s s' : R) : Rabs (Rmax a s - Rmax a s') <= Rabs (s - s').
Proof.
  unfold Rmax. destruct (Rle_dec a s), (Rle_dec a s');
    unfold Rabs; repeat destruct (Rcase_abs _); lra.
Qed.

Lemma sup_norm_le (D : ndarray) (M : R) :
  0 <= M -> (forall x, In x D -> Rabs x <= M) -> sup_norm D <= M.
Proof.
  intros HM. induction D as [| y D IH]; intros H; simpl.
  - exact HM.
  - apply Rmax_lub.
    + apply H. now left.
    + apply IH. intros x Hx. apply H. now right.
Qed.

Lemma maximum_sup_dist (A : ndarray) (s s' : R) :
  sup_dist (Np.maximum A s) (Np.maximum A s') <= Rabs (s - s').
Proof.
  unfold sup_dist. induction A as [| a A IH]; simpl.
  - apply Rabs_pos.
  - apply Rmax_lub; [apply Rmax_lipschitz | exact IH].
Qed.

Lemma sum_zip_diff_bound (p : ndarray) : forall V V' : ndarray,
  length V = length p -> length V' = length p -> Forall (Rle 0) p ->
  Rabs (Np.sum (zip_with Rmult V p) - Np.sum (zip_with Rmult V' p))
  <= sup_dist V V' * Np.sum p.
Proof.
  induction p as [| y p IH]; intros V V' HV HV' Hp.
  - destruct V, V'; try discriminate. simpl. rewrite Np_sum_nil.
    unfold sup_dist. simpl. rewrite Rminus_diag, Rabs_R0. lra.
  - destruct V as [| v V], V' as [| v' V']; try discriminate.
    inversion Hp as [| ? ? Hy Hp']; subst.
    simpl in HV, HV'. specialize (IH V V' ltac:(lia) ltac:(lia) Hp').
    simpl zip_with. rewrite !Np_sum_cons.
    unfold sup_dist in *. simpl zip_with. simpl sup_norm.
    pose proof (Np_sum_nonneg p Hp') as Hs.
    pose proof (sup_norm_nonneg (zip_with Rminus V V')) as Hn.
    set (M := sup_norm (zip_with Rminus V V')) in *.
    set (S1 := Np.sum (zip_with Rmult V p)) in *.
    set (S2 := Np.sum (zip_with Rmult V' p)) in *.
    assert (H1 : Rabs (v - v') <= Rmax (Rabs (v - v')) M) by apply Rmax_l.
    assert (H2 : M <= Rmax (Rabs (v - v')) M) by apply Rmax_r.
    set (N := Rmax (Rabs (v - v')) M) in *.
    replace (v * y + S1 - (v' * y + S2)) with ((v - v') * y + (S1 - S2)) by lra.
    eapply Rle_trans; [apply Rabs_triang |].
    rewrite Rabs_mult, (Rabs_right y) by lra.
    pose proof (Rabs_pos (v - v')).
    assert (Rabs (v - v') * y <= N * y) by (apply Rmult_le_compat_r; lra).
    assert (M * Np.sum p <= N * Np.sum p) by (apply Rmult_le_compat_r; lra).
    lra.
Qed.

Lemma bellman_contraction (b beta : R) (p wages V V' : ndarray) :
  0 <= beta -> Forall (Rle 0) p -> Np.sum p = 1 ->
  length V = length p -> length V' = length p ->
  sup_dist (bellman b beta p wages V) (bellman b beta p wages V')
  <= beta * sup_dist V V'.
Proof.
  intros Hb Hp Hsum HV HV'. unfold bellman.
  eapply Rle_trans; [apply maximum_sup_dist |].
  pose proof (sum_zip_diff_bound p V V' HV HV' Hp) as H. rewrite Hsum, Rmult_1_r in H.
  replace (b + beta * Np.sum (zip_with Rmult V p)
           - (b + beta * Np.sum (zip_with Rmult V' p)))
    with (beta * (Np.sum (zip_with Rmult V p) - Np.sum (zip_with Rmult V' p))) by lra.
  rewrite Rabs_mult, (Rabs_right beta) by lra.
  apply Rmult_le_compat_l; assumption.
Qed.

(** X1.  Shapes and errors of [Tv]: an array it returns has the size of
    [wages]; [ValueError] is the one exception it raises; it raises exactly
    when [V] and [p] differ in size and neither has size one, and returns an
    array exactly when they have one size or one of them has size one. *)
Theorem Tv_shape_errors (V : ndarray) (b beta : R) (p wages : ndarray) :
  (forall T, Tv V b beta p wages = Ok T -> length T = length wages)
  /\ (forall e, Tv V b beta p wages = Raise e -> e = ValueError)
  /\ (Tv V b beta p wages = Raise ValueError
      <-> length V <> length p /\ length V <> 1%nat /\ length p <> 1%nat)
  /\ ((exists T, Tv V b beta p wages = Ok T)
      <-> length V = length p \/ length V = 1%nat \/ length p = 1%nat).
Proof.
  split; [| split; [| split; split]].
  - intros T HT. destruct (Tv_result V b beta p wages T HT) as [s ->].
    unfold Np.maximum, divide_scalar. now rewrite !length_map.
  - intros e. unfold Tv, multiply.
    destruct (broadcast_cases Rmult V p)
      as [[H1 ->] | [(H1 & x & -> & ->) | [(H1 & H2 & y & -> & ->) | (H1 & H2 & H3 & ->)]]];
      simpl; try discriminate.
    now intros [= <-].
  - unfold Tv, multiply.
    destruct (broadcast_cases Rmult V p)
      as [[H1 ->] | [(H1 & x & -> & ->) | [(H1 & H2 & y & -> & ->) | (H1 & H2 & H3 & ->)]]];
      simpl; try discriminate.
    auto.
  - intros (H1 & H2 & H3). unfold Tv, multiply.
    destruct (broadcast_cases Rmult V p)
      as [[H1' E] | [(H1' & x & Ex & E) | [(H1' & H2' & y & Ey & E) | (_ & _ & _ & E)]]].
    + contradiction.
    + subst V. now contradiction H2.
    + subst p. now contradiction H3.
    + rewrite E. reflexivity.
  - intros [T HT]. revert HT. unfold Tv, multiply.
    destruct (broadcast_cases Rmult V p)
      as [[H1 E] | [(H1 & x & Ex & E) | [(H1 & H2 & y & Ey & E) | (_ & _ & _ & E)]]].
    + intros _. now left.
    + intros _. subst V. right. now left.
    + intros _. subst p. right. now right.
    + rewrite E. discriminate.
  - intros H. unfold Tv, multiply.
    destruct (broadcast_cases Rmult V p)
      as [[H1 ->] | [(H1 & x & -> & ->) | [(H1 & H2 & y & -> & ->) | (H1 & H2 & H3 & ->)]]];
      simpl; try (eexists; reflexivity).
    exfalso. destruct H as [H | [H | H]]; contradiction.
Qed.

(** X2.  [Tv] is a contraction of modulus [beta] in the sup norm: for
    [0 <= beta < 1], a probability vector [p] and value vectors of the size
    of [p], the images are at most [beta] times as far apart as the
    arguments. *)
Theorem Tv_contraction (V V' : ndarray) (b beta : R) (p wages T T' : ndarray) :
  0 <= beta < 1 -> Forall (Rle 0) p -> Np.sum p = 1 ->
  length V = length p -> length V' = length p ->
  Tv V b beta p wages = Ok T -> Tv V' b beta p wages = Ok T' ->
  sup_dist T T' <= beta * sup_dist V V'.
Proof.
  intros [Hb _] Hp Hsum HV HV'.
  rewrite (Tv_same_size V b beta p wages HV), (Tv_same_size V' b beta p wages HV').
  intros [= <-] [= <-]. now apply bellman_contraction.
Qed.

Lemma Tv_contraction_witness :
  exists T T',
    0 <= 1 / 2 < 1 /\ Forall (Rle 0) [1 / 4; 3 / 4] /\ Np.sum [1 / 4; 3 / 4] = 1
    /\ length [0; 0] = length [1 / 4; 3 / 4]
    /\ length [4; 8] = length [1 / 4; 3 / 4]
    /\ Tv [0; 0] 1 (1 / 2) [1 / 4; 3 / 4] [1; 2] = Ok T
    /\ Tv [4; 8] 1 (1 / 2) [1 / 4; 3 / 4] [1; 2] = Ok T'
    /\ sup_dist T T' <= 1 / 2 * sup_dist [0; 0] [4; 8].
Proof.
  assert (H1 : 0 <= 1 / 2 < 1) by lra.
  assert (H2 : Forall (Rle 0) [1 / 4; 3 / 4]) by (repeat constructor; lra).
  assert (H3 : Np.sum [1 / 4; 3 / 4] = 1) by (unfold Np.sum; simpl; lra).
  assert (H4 : length [0; 0] = length [1 / 4; 3 / 4]) by reflexivity.
  assert (H5 : length [4; 8] = length [1 / 4; 3 / 4]) by reflexivity.
  eexists. eexists.
  split; [exact H1 | split; [exact H2 | split; [exact H3 | split; [exact H4 |
    split; [exact H5 |]]]]].
  assert (H6 : Tv [0; 0] 1 (1 / 2) [1 / 4; 3 / 4] [1; 2]
               = Ok (bellman 1 (1 / 2) [1 / 4; 3 / 4] [1; 2] [0; 0])) by reflexivity.
  assert (H7 : Tv [4; 8] 1 (1 / 2) [1 / 4; 3 / 4] [1; 2]
               = Ok (bellman 1 (1 / 2) [1 / 4; 3 / 4] [1; 2] [4; 8])) by reflexivity.
  split; [exact H6 | split; [exact H7 |]].
  exact (Tv_contraction [0; 0] [4; 8] 1 (1 / 2) [1 / 4; 3 / 4] [1; 2] _ _
           H1 H2 H3 H4 H5 H6 H7).
Defined.

Lemma vfi_dist_geometric (b beta : R) (p wages : ndarray) (k : nat) :
  0 <= beta -> Forall (Rle 0) p -> Np.sum p = 1 -> length p = length wages ->
  vfi_dist b beta p wages (S (S k)) <= beta * vfi_dist b beta p wages (S k).
Proof.
  intros Hb Hp Hsum Hlen. unfold vfi_dist.
  change (vfi_V b beta p wages (S (S k)))
    with (bellman b beta p wages (vfi_V b beta p wages (S k))).
  change (vfi_V b beta p wages (S k))
    with (bellman b beta p wages (vfi_V b beta p wages k)) at 1.
  apply bellman_contraction; try assumption; rewrite vfi_V_length; congruence.
Qed.

Lemma vfi_dist_pow (b beta : R) (p wages : ndarray) (k : nat) :
  0 <= beta -> Forall (Rle 0) p -> Np.sum p = 1 -> length p = length wages ->
  vfi_dist b beta p wages (S k) <= beta ^ k * vfi_dist b beta p wages 1.
Proof.
  intros Hb Hp Hsum Hlen. induction k as [| k IH].
  - simpl. lra.
  - eapply Rle_trans; [now apply vfi_dist_geometric |].
    simpl pow. rewrite Rmult_assoc. now apply Rmult_le_compat_l.
Qed.

Lemma vfi_dist_small (b beta : R) (p wages : ndarray) (v_tol : R) :
  0 <= beta < 1 -> 0 < v_tol ->
  Forall (Rle 0) p -> Np.sum p = 1 -> length p = length wages ->
  exists N : nat, vfi_dist b beta p wages (S N) < v_tol.
Proof.
  intros [Hb0 Hb1] Htol Hp Hsum Hlen.
  set (d1 := vfi_dist b beta p wages 1).
  assert (Hd1 : 0 <= d1) by apply sup_norm_nonneg.
  assert (Heps : 0 < v_tol / (d1 + 1)) by (apply Rdiv_lt_0_compat; lra).
  destruct (pow_lt_1_zero beta ltac:(rewrite Rabs_right; lra) _ Heps) as [N HN].
  exists N. specialize (HN N (Nat.le_refl N)).
  assert (Hpow : 0 <= beta ^ N) by now apply pow_le.
  rewrite Rabs_right in HN by lra.
  eapply Rle_lt_trans; [now apply vfi_dist_pow |]. fold d1.
  assert (beta ^ N * (d1 + 1) < v_tol).
  { apply (Rmult_lt_compat_r (d1 + 1)) in HN; [| lra].
    unfold Rdiv in HN. rewrite Rmult_assoc, Rinv_l, Rmult_1_r in HN by lra. exact HN. }
  nra.
Qed.

(** The grid starts at [w_min], so with positive [sigma], [mu] and [w_min]
    the probabilities are well defined. *)
Lemma McCall_setup_probabilities (theta mu sigma w_min w_max : R) (n : Z) (su : setup) :
  0 < sigma -> 0 < mu -> 0 < w_min -> (0 <= n)%Z ->
  McCall_setup theta mu sigma w_min w_max n = Ok su ->
  Forall (Rle 0) (su_p su) /\ Np.sum (su_p su) = 1
  /\ length (su_p su) = length (su_wages su) /\ su_wages su <> [].
Proof.
  intros Hs Hm Hw Hn Hsu.
  destruct (McCall_setup_inv _ _ _ _ _ _ _ Hsu) as (Hlin & Hp & Hlen).
  assert (Hhead : exists w rest, su_wages su = w :: rest /\ 0 < w).
  { revert Hlin. unfold Np.linspace.
    destruct (Z.ltb_spec (n + 1) 0) as [Hneg | _]; [lia |].
    replace (Z.to_nat (n + 1)) with (S (Z.to_nat n)) by lia.
    intros [= <-]. simpl. eexists. eexists. split; [reflexivity | lra]. }
  destruct Hhead as (w & rest & Hwages & Hwpos).
  assert (Hpos : Forall (Rle 0) (Stats.lognorm_pdf (su_wages su) sigma mu))
    by now apply lognorm_pdf_nonneg.
  assert (Hex : Exists (fun x => x <> 0) (Stats.lognorm_pdf (su_wages su) sigma mu))
    by (rewrite Hwages; now apply lognorm_pdf_head_pos).
  destruct (normalised_probabilities _ Hpos Hex) as [H1 H2].
  rewrite <- Hp in H1, H2.
  repeat split; try assumption. rewrite Hwages. discriminate.
Qed.

(** X3.  With [0 <= beta < 1] and a positive tolerance the iteration
    converges: for positive [sigma], [mu] and [w_min] there is a bound [K]
    such that for every [max_iter >= K] [McCall_VFI] leaves its loop with
    [v_dist <= v_tol] after fewer than [max_iter] passes, and returns the
    array of that state. *)
Theorem McCall_VFI_converges (theta beta mu sigma w_min w_max : R) (n : Z) (v_tol : R) :
  0 <= beta < 1 -> 0 < v_tol -> 0 < sigma -> 0 < mu -> 0 < w_min -> (0 <= n)%Z ->
  exists K : Z, forall max_iter : Z, (K <= max_iter)%Z ->
    exists s,
      McCall_VFI_run theta beta mu sigma w_min w_max n v_tol max_iter = Ok (Exit s)
      /\ McCall_VFI theta beta mu sigma w_min w_max n v_tol max_iter = Ok (st_V s)
      /\ st_v_dist s <= v_tol
      /\ (st_iter s < max_iter)%Z.
Proof.
  intros Hbeta Htol Hs Hm Hw Hn.
  destruct (McCall_setup_ok theta mu sigma w_min w_max n Hn) as (su & Hsu & _ & _ & _).
  destruct (McCall_setup_probabilities _ _ _ _ _ _ _ Hs Hm Hw Hn Hsu)
    as (Hp & Hsum & Hlen & Hne).
  destruct (vfi_dist_small (su_b su) beta (su_p su) (su_wages su) v_tol
              Hbeta Htol Hp Hsum Hlen) as [N HN].
  exists (Z.of_nat (S N) + 1)%Z. intros max_iter HK.
  destruct (McCall_VFI_run_char theta beta mu sigma w_min w_max n v_tol max_iter
              su Hsu Hlen Hne) as (k & Hrun & Hstop & Hbefore).
  assert (Hk : (k <= S N)%nat).
  { destruct (Nat.le_gt_cases k (S N)) as [Hle | Hgt]; [exact Hle | exfalso].
    destruct (Hbefore (S N) Hgt) as [Hd _]. lra. }
  eexists. split; [exact Hrun |].
  split; [unfold McCall_VFI; now rewrite Hrun |]. cbn [st_v_dist st_iter].
  split; [| lia].
  destruct (Rle_dec (vfi_dist (su_b su) beta (su_p su) (su_wages su) k) v_tol)
    as [Hd | Hd]; [exact Hd | exfalso].
  apply Hstop. split; [lra | lia].
Qed.

Lemma McCall_VFI_converges_witness :
  0 <= 99 / 100 < 1 /\ 0 < 1 / 1000000 /\ 0 < 1 / 2 /\ 0 < 40 /\ 0 < 10 /\ (0 <= 1)%Z
  /\ exists K : Z, forall max_iter : Z, (K <= max_iter)%Z ->
       exists s,
         McCall_VFI_run (3 / 10) (99 / 100) 40 (1 / 2) 10 100 1 (1 / 1000000) max_iter
         = Ok (Exit s)
         /\ McCall_VFI (3 / 10) (99 / 100) 40 (1 / 2) 10 100 1 (1 / 1000000) max_iter
            = Ok (st_V s)
         /\ st_v_dist s <= 1 / 1000000
         /\ (st_iter s < max_iter)%Z.
Proof.
  assert (H1 : 0 <= 99 / 100 < 1) by lra.
  assert (H2 : 0 < 1 / 1000000) by lra.
  assert (H3 : 0 < 1 / 2) by lra.
  assert (H4 : 0 < 40) by lra.
  assert (H5 : 0 < 10) by lra.
  assert (H6 : (0 <= 1)%Z) by lia.
  repeat (split; [assumption |]).
  exact (McCall_VFI_converges (3 / 10) (99 / 100) 40 (1 / 2) 10 100 1 (1 / 1000000)
           H1 H2 H3 H4 H5 H6).
Defined.

(** A run that converges in its first pass. *)
Lemma McCall_VFI_run_one_pass (theta beta mu sigma w_min w_max : R) (n : Z)
    (v_tol : R) (max_iter : Z) (su : setup) :
  McCall_setup theta mu sigma w_min w_max n = Ok su ->
  length (su_p su) = length (su_wages su) -> su_wages su <> [] ->
  10 > v_tol -> (0 < max_iter)%Z ->
  vfi_dist (su_b su) beta (su_p su) (su_wages su) 1 <= v_tol ->
  McCall_VFI_run theta beta mu sigma w_min w_max n v_tol max_iter
  = Ok (Exit (LoopState (vfi_V (su_b su) beta (su_p su) (su_wages su) 1)
                        (vfi_dist (su_b su) beta (su_p su) (su_wages su) 1) 1)).
Proof.
  intros Hsu Hlen Hne Htol Hmax Hd. unfold McCall_VFI_run. rewrite Hsu. simpl.
  rewrite (while_loop_pass _ _ _ _ _ _ _ _ Htol Hmax
             (McCall_pass_ok _ _ _ _ _ Hlen (zeros_length _) Hne)).
  rewrite while_loop_exit; [reflexivity |].
  intros [Hgt _]. unfold vfi_dist, vfi_V in Hd. simpl in Hd. simpl in Hgt. lra.
Qed.

(** X4.  A converged return is an approximate fixed point: for
    [0 <= beta < 1], when the loop leaves before [max_iter] after one pass or
    more, the array returned is within [beta * v_tol], in the sup norm, of
    its image under [Tv]. *)
Theorem McCall_VFI_approx_fixed_point (theta beta mu sigma w_min w_max : R) (n : Z)
    (v_tol : R) (max_iter : Z) (su : setup) (s : loop_state) :
  0 <= beta < 1 -> 0 < sigma -> 0 < mu -> 0 < w_min -> (0 <= n)%Z ->
  McCall_setup theta mu sigma w_min w_max n = Ok su ->
  McCall_VFI_run theta beta mu sigma w_min w_max n v_tol max_iter = Ok (Exit s) ->
  (1 <= st_iter s < max_iter)%Z ->
  exists T, Tv (st_V s) (su_b su) beta (su_p su) (su_wages su) = Ok T
            /\ sup_dist (st_V s) T <= beta * v_tol.
Proof.
  intros [Hbeta _] Hs Hm Hw Hn Hsu Hrun Hit.
  destruct (McCall_setup_probabilities _ _ _ _ _ _ _ Hs Hm Hw Hn Hsu)
    as (Hp & Hsum & Hlen & Hne).
  destruct (McCall_VFI_run_char theta beta mu sigma w_min w_max n v_tol max_iter
              su Hsu Hlen Hne) as (k & Hrun' & Hstop & _).
  rewrite Hrun' in Hrun. injection Hrun as <-. cbn [st_V st_iter] in *.
  destruct k as [| j]; [simpl in Hit; lia |].
  exists (bellman (su_b su) beta (su_p su) (su_wages su)
            (vfi_V (su_b su) beta (su_p su) (su_wages su) (S j))).
  split.
  - apply Tv_same_size. rewrite vfi_V_length. congruence.
  - assert (Hd : vfi_dist (su_b su) beta (su_p su) (su_wages su) (S j) <= v_tol).
    { destruct (Rle_dec (vfi_dist (su_b su) beta (su_p su) (su_wages su) (S j)) v_tol)
        as [Hd | Hd]; [exact Hd | exfalso].
      apply Hstop. split; [lra | lia]. }
    eapply Rle_trans;
      [apply (vfi_dist_geometric (su_b su) beta (su_p su) (su_wages su) j);
       assumption |].
    now apply Rmult_le_compat_l.
Qed.

Lemma McCall_VFI_approx_fixed_point_witness :
  exists su s,
    0 <= 1 / 2 < 1 /\ 0 < 1 / 2 /\ 0 < 40 /\ 0 < 1 /\ (0 <= 1)%Z
    /\ McCall_setup 0 40 (1 / 2) 1 2 1 = Ok su
    /\ McCall_VFI_run 0 (1 / 2) 40 (1 / 2) 1 2 1 5 2 = Ok (Exit s)
    /\ (1 <= st_iter s < 2)%Z
    /\ exists T, Tv (st_V s) (su_b su) (1 / 2) (su_p su) (su_wages su) = Ok T
                 /\ sup_dist (st_V s) T <= 1 / 2 * 5.
Proof.
  set (W := [1 + 0 * ((2 - 1) / 1); 1 + 1 * ((2 - 1) / 1)]).
  set (P := divide_scalar (Stats.lognorm_pdf W (1 / 2) 40)
              (Np.sum (Stats.lognorm_pdf W (1 / 2) 40))).
  set (B := 0 * Np.sum (zip_with Rmult W P)).
  assert (H0 : 0 <= 1 / 2 < 1) by lra.
  assert (H1 : 0 < 1 / 2) by lra.
  assert (H2 : 0 < 40) by lra.
  assert (H3 : 0 < 1) by lra.
  assert (H4 : (0 <= 1)%Z) by lia.
  assert (H5 : McCall_setup 0 40 (1 / 2) 1 2 1 = Ok (Setup W P B)) by reflexivity.
  assert (Hlen : length P = length W).
  { unfold P, divide_scalar, Stats.lognorm_pdf. now rewrite !length_map. }
  assert (Hd : vfi_dist B (1 / 2) P W 1 <= 5).
  { unfold vfi_dist, vfi_V, sup_dist, bellman. simpl.
    set (c := B + 1 / 2 * _). assert (Hc : c = 0) by (unfold c, B, Np.sum; destruct P as [| p0 [| p1 P']]; simpl; lra). rewrite Hc.
    repeat apply Rmax_lub; try lra.
    - rewrite Rmax_left by lra. rewrite Rabs_left; lra.
    - rewrite Rmax_left by lra. rewrite Rabs_left; lra. }
  assert (H6 : McCall_VFI_run 0 (1 / 2) 40 (1 / 2) 1 2 1 5 2
               = Ok (Exit (LoopState (vfi_V B (1 / 2) P W 1) (vfi_dist B (1 / 2) P W 1) 1))).
  { apply (McCall_VFI_run_one_pass 0 (1 / 2) 40 (1 / 2) 1 2 1 5 2 (Setup W P B) H5 Hlen);
      [discriminate | lra | lia | exact Hd]. }
  assert (H7 : (1 <= st_iter (LoopState (vfi_V B (1 / 2) P W 1) (vfi_dist B (1 / 2) P W 1) 1) < 2)%Z)
    by (simpl; lia).
  exists (Setup W P B), (LoopState (vfi_V B (1 / 2) P W 1) (vfi_dist B (1 / 2) P W 1) 1).
  repeat (split; [assumption |]).
  exact (McCall_VFI_approx_fixed_point 0 (1 / 2) 40 (1 / 2) 1 2 1 5 2 _ _
           H0 H1 H2 H3 H4 H5 H6 H7).
Defined.

Lemma sum_zip_zeros (m : nat) (p : ndarray) :
  Np.sum (zip_with Rmult (Np.zeros m) p) = 0.
Proof.
  revert p. induction m as [| m IH]; intros [| y p]; simpl; try apply Np_sum_nil.
  rewrite Np_sum_cons. unfold Np.zeros in IH. rewrite IH. lra.
Qed.

Lemma zeros_le_maximum (A : ndarray) (s : R) :
  0 <= s -> array_le (Np.zeros (length A)) (Np.maximum A s).
Proof.
  intros Hs. induction A as [| a A IH]; simpl; constructor.
  - eapply Rle_trans; [exact Hs | apply Rmax_r].
  - exact IH.
Qed.

Lemma bellman_mono (b beta : R) (p wages V V' : ndarray) :
  0 <= beta -> Forall (Rle 0) p -> array_le V V' ->
  array_le (bellman b beta p wages V) (bellman b beta p wages V').
Proof.
  intros Hb Hp HV. unfold bellman. apply maximum_mono.
  pose proof (sum_zip_mono V V' p Hp HV). nra.
Qed.

(** X5.  From the zero guess the iterates rise: with [0 <= beta < 1],
    non-negative [p] of the size of the grid and a benefit [b >= 0], each
    iterate is at most the next, entry by entry. *)
Theorem VFI_iterate_increasing (b beta : R) (p wages : ndarray) (k : nat)
    (Vk Vk1 : ndarray) :
  0 <= beta < 1 -> 0 <= b -> Forall (Rle 0) p -> length p = length wages ->
  VFI_iterate b beta p wages k = Ok Vk ->
  VFI_iterate b beta p wages (S k) = Ok Vk1 ->
  array_le Vk Vk1.
Proof.
  intros [Hbeta _] Hb Hp Hlen.
  rewrite !VFI_iterate_vfi_V by exact Hlen. intros [= <-] [= <-].
  induction k as [| k IH].
  - unfold vfi_V. simpl. unfold bellman. rewrite sum_zip_zeros.
    replace (length wages) with (length (divide_scalar wages (1 - beta)))
      by (unfold divide_scalar; now rewrite length_map).
    apply zeros_le_maximum. lra.
  - change (vfi_V b beta p wages (S (S k)))
      with (bellman b beta p wages (vfi_V b beta p wages (S k))).
    change (vfi_V b beta p wages (S k))
      with (bellman b beta p wages (vfi_V b beta p wages k)) at 1.
    now apply bellman_mono.
Qed.

Lemma VFI_iterate_increasing_witness :
  exists Vk Vk1,
    0 <= 1 / 2 < 1 /\ 0 <= 3 /\ Forall (Rle 0) [1 / 4; 3 / 4]
    /\ length [1 / 4; 3 / 4] = length [1; 2]
    /\ VFI_iterate 3 (1 / 2) [1 / 4; 3 / 4] [1; 2] 1 = Ok Vk
    /\ VFI_iterate 3 (1 / 2) [1 / 4; 3 / 4] [1; 2] 2 = Ok Vk1
    /\ array_le Vk Vk1.
Proof.
  assert (H1 : 0 <= 1 / 2 < 1) by lra.
  assert (H2 : 0 <= 3) by lra.
  assert (H3 : Forall (Rle 0) [1 / 4; 3 / 4]) by (repeat constructor; lra).
  assert (H4 : length [1 / 4; 3 / 4] = length [1; 2]) by reflexivity.
  assert (H5 : VFI_iterate 3 (1 / 2) [1 / 4; 3 / 4] [1; 2] 1
               = Ok (vfi_V 3 (1 / 2) [1 / 4; 3 / 4] [1; 2] 1)) by reflexivity.
  assert (H6 : VFI_iterate 3 (1 / 2) [1 / 4; 3 / 4] [1; 2] 2
               = Ok (vfi_V 3 (1 / 2) [1 / 4; 3 / 4] [1; 2] 2)) by reflexivity.
  eexists. eexists.
  repeat (split; [eassumption |]).
  exact (VFI_iterate_increasing 3 (1 / 2) [1 / 4; 3 / 4] [1; 2] 1 _ _ H1 H2 H3 H4 H5 H6).
Defined.

Lemma McCall_setup_defined (theta mu sigma w_min w_max : R) (n : Z) :
  (-1 <= n)%Z ->
  exists su, McCall_setup theta mu sigma w_min w_max n = Ok su
             /\ length (su_wages su) = Z.to_nat (n + 1).
Proof.
  intros Hn. unfold McCall_setup.
  destruct (linspace_ok w_min w_max (n + 1) ltac:(lia)) as (wages & -> & Hlen).
  simpl.
  assert (Hp : length (divide_scalar (Stats.lognorm_pdf wages sigma mu)
                         (Np.sum (Stats.lognorm_pdf wages sigma mu)))
               = length wages).
  { unfold divide_scalar, Stats.lognorm_pdf. now rewrite !length_map. }
  unfold multiply. rewrite broadcast_same_size by (symmetry; exact Hp).
  simpl. eexists; split; [reflexivity | exact Hlen].
Qed.

(** X6.  No pass is made when [v_tol >= 10] (the initial [v_dist] is the
    constant 10) or [max_iter <= 0]: [McCall_VFI] then returns the all-zero
    guess, one entry per grid point. *)
Theorem McCall_VFI_no_pass (theta beta mu sigma w_min w_max : R) (n : Z)
    (v_tol : R) (max_iter : Z) :
  10 <= v_tol \/ (max_iter <= 0)%Z -> (-1 <= n)%Z ->
  McCall_VFI theta beta mu sigma w_min w_max n v_tol max_iter
  = Ok (Np.zeros (Z.to_nat (n + 1))).
Proof.
  intros Hstop Hn.
  destruct (McCall_setup_defined theta mu sigma w_min w_max n Hn) as (su & Hsu & Hlen).
  unfold McCall_VFI, McCall_VFI_run. rewrite Hsu. simpl.
  rewrite while_loop_exit.
  - simpl. now rewrite Hlen.
  - intros [Hd Hi]. destruct Hstop; [lra | lia].
Qed.

Lemma McCall_VFI_no_pass_witness :
  (10 <= 20 \/ (1000 <= 0)%Z) /\ (-1 <= 1)%Z
  /\ McCall_VFI (3 / 10) (99 / 100) 40 (1 / 2) 10 100 1 20 1000
     = Ok (Np.zeros (Z.to_nat (1 + 1))).
Proof.
  assert (H1 : 10 <= 20 \/ (1000 <= 0)%Z) by (left; lra).
  assert (H2 : (-1 <= 1)%Z) by lia.
  split; [exact H1 | split; [exact H2 |]].
  exact (McCall_VFI_no_pass (3 / 10) (99 / 100) 40 (1 / 2) 10 100 1 20 1000 H1 H2).
Defined.

(** X7.  A negative [n] makes [McCall_VFI] raise [ValueError] as soon as a
    pass is due ([v_tol < 10], [max_iter > 0]): from [np.linspace] for
    [n < -1], from [.max()] of a zero-size array for [n = -1]. *)
Theorem McCall_VFI_negative_n (theta beta mu sigma w_min w_max : R) (n : Z)
    (v_tol : R) (max_iter : Z) :
  (n < 0)%Z -> v_tol < 10 -> (0 < max_iter)%Z ->
  McCall_VFI theta beta mu sigma w_min w_max n v_tol max_iter = Raise ValueError.
Proof.
  intros Hn Htol Hmax. destruct (Z.eq_dec n (-1)%Z) as [-> | Hne].
  - apply McCall_VFI_empty_grid; [lra | exact Hmax].
  - unfold McCall_VFI, McCall_VFI_run, McCall_setup, Np.linspace.
    destruct (Z.ltb_spec (n + 1) 0); [reflexivity | lia].
Qed.

Lemma McCall_VFI_negative_n_witness :
  (-5 < 0)%Z /\ 1 / 1000000 < 10 /\ (0 < 1000)%Z
  /\ McCall_VFI (3 / 10) (99 / 100) 40 (1 / 2) 10 100 (-5) (1 / 1000000) 1000
     = Raise ValueError.
Proof.
  assert (H1 : (-5 < 0)%Z) by lia.
  assert (H2 : 1 / 1000000 < 10) by lra.
  assert (H3 : (0 < 1000)%Z) by lia.
  split; [exact H1 | split; [exact H2 | split; [exact H3 |]]].
  exact (McCall_VFI_negative_n (3 / 10) (99 / 100) 40 (1 / 2) 10 100 (-5)
           (1 / 1000000) 1000 H1 H2 H3).
Defined.

(** X8.  The wage grid of [McCall_VFI] for [n >= 1]: [n + 1] points, the
    first [w_min], the last [w_max], neighbours [(w_max - w_min) / n] apart;
    and the array returned has one entry per grid point. *)
Theorem McCall_grid (theta beta mu sigma w_min w_max : R) (n : Z) (v_tol : R)
    (max_iter : Z) (su : setup) :
  (1 <= n)%Z ->
  McCall_setup theta mu sigma w_min w_max n = Ok su ->
  length (su_wages su) = Z.to_nat (n + 1)
  /\ nth 0 (su_wages su) 0 = w_min
  /\ nth (Z.to_nat n) (su_wages su) 0 = w_max
  /\ (forall i, (i < Z.to_nat n)%nat ->
        nth (S i) (su_wages su) 0 - nth i (su_wages su) 0 = (w_max - w_min) / IZR n)
  /\ exists V, McCall_VFI theta beta mu sigma w_min w_max n v_tol max_iter = Ok V
               /\ length V = Z.to_nat (n + 1).
Proof.
  intros Hn Hsu.
  destruct (McCall_setup_inv _ _ _ _ _ _ _ Hsu) as (Hlin & _ & Hlen).
  assert (Hw : su_wages su
               = map (fun i : nat => w_min + INR i * ((w_max - w_min) / IZR n))
                   (seq 0 (Z.to_nat (n + 1)))).
  { revert Hlin. unfold Np.linspace.
    destruct (Z.ltb_spec (n + 1) 0); [lia |].
    replace (n + 1 - 1)%Z with n by lia. now intros [= <-]. }
  assert (Hnth : forall i, (i < Z.to_nat (n + 1))%nat ->
             nth i (su_wages su) 0 = w_min + INR i * ((w_max - w_min) / IZR n)).
  { intros i Hi. rewrite Hw.
    rewrite (nth_indep _ 0 ((fun i : nat => w_min + INR i * ((w_max - w_min) / IZR n)) O))
      by (now rewrite length_map, length_seq).
    rewrite (map_nth (fun i : nat => w_min + INR i * ((w_max - w_min) / IZR n))).
    now rewrite seq_nth. }
  assert (Hlen' : length (su_wages su) = Z.to_nat (n + 1))
    by (rewrite Hw; now rewrite length_map, length_seq).
  assert (Hne : IZR n <> 0) by (apply not_0_IZR; lia).
  split; [exact Hlen' |]. split; [| split; [| split]].
  - rewrite Hnth by lia. simpl. lra.
  - rewrite Hnth by lia. rewrite INR_IZR_INZ, Z2Nat.id by lia. field. exact Hne.
  - intros i Hi. rewrite !Hnth by lia. rewrite S_INR. lra.
  - assert (Hwne : su_wages su <> []).
    { intros E. rewrite E in Hlen'. simpl in Hlen'. lia. }
    destruct (McCall_VFI_run_char theta beta mu sigma w_min w_max n v_tol max_iter
                su Hsu Hlen Hwne) as (k & Hrun & _).
    eexists. split.
    + unfold McCall_VFI. rewrite Hrun. reflexivity.
    + cbn [st_V]. rewrite vfi_V_length. exact Hlen'.
Qed.

Lemma McCall_grid_witness :
  exists su,
    (1 <= 1)%Z
    /\ McCall_setup (3 / 10) 40 (1 / 2) 10 100 1 = Ok su
    /\ length (su_wages su) = Z.to_nat (1 + 1)
    /\ nth 0 (su_wages su) 0 = 10
    /\ nth (Z.to_nat 1) (su_wages su) 0 = 100
    /\ (forall i, (i < Z.to_nat 1)%nat ->
          nth (S i) (su_wages su) 0 - nth i (su_wages su) 0 = (100 - 10) / IZR 1)
    /\ exists V, McCall_VFI (3 / 10) (99 / 100) 40 (1 / 2) 10 100 1 (1 / 1000000) 1000
                 = Ok V
                 /\ length V = Z.to_nat (1 + 1).
Proof.
  set (W := [10 + 0 * ((100 - 10) / 1); 10 + 1 * ((100 - 10) / 1)]).
  set (P := divide_scalar (Stats.lognorm_pdf W (1 / 2) 40)
              (Np.sum (Stats.lognorm_pdf W (1 / 2) 40))).
  set (B := 3 / 10 * Np.sum (zip_with Rmult W P)).
  assert (H1 : (1 <= 1)%Z) by lia.
  assert (H2 : McCall_setup (3 / 10) 40 (1 / 2) 10 100 1 = Ok (Setup W P B))
    by reflexivity.
  exists (Setup W P B). split; [exact H1 | split; [exact H2 |]].
  exact (McCall_grid (3 / 10) (99 / 100) 40 (1 / 2) 10 100 1 (1 / 1000000) 1000
           (Setup W P B) H1 H2).
Defined.

(** ** Fixed points of the Bellman operator *)

Lemma sup_dist_triangle (A : ndarray) : forall B C : ndarray,
  length A = length B -> length B = length C ->
  sup_dist A C <= sup_dist A B + sup_dist B C.
Proof.
  unfold sup_dist. induction A as [| a A IH]; intros [| b B] [| c C] H1 H2;
    try discriminate; simpl.
  - lra.
  - simpl in H1, H2. specialize (IH B C ltac:(lia) ltac:(lia)).
    pose proof (Rmax_l (Rabs (a - b)) (sup_norm (zip_with Rminus A B))).
    pose proof (Rmax_r (Rabs (a - b)) (sup_norm (zip_with Rminus A B))).
    pose proof (Rmax_l (Rabs (b - c)) (sup_norm (zip_with Rminus B C))).
    pose proof (Rmax_r (Rabs (b - c)) (sup_norm (zip_with Rminus B C))).
    apply Rmax_lub.
    + replace (a - c) with ((a - b) + (b - c)) by lra.
      eapply Rle_trans; [apply Rabs_triang |]. lra.
    + lra.
Qed.

Lemma sup_dist_zero (A : ndarray) : forall B : ndarray,
  length A = length B -> sup_dist A B <= 0 -> A = B.
Proof.
  unfold sup_dist. induction A as [| a A IH]; intros [| b B] H1 H2;
    try discriminate; [reflexivity |].
  simpl in H1, H2.
  pose proof (Rmax_l (Rabs (a - b)) (sup_norm (zip_with Rminus A B))).
  pose proof (Rmax_r (Rabs (a - b)) (sup_norm (zip_with Rminus A B))).
  pose proof (Rabs_pos (a - b)).
  f_equal.
  - assert (Habs : Rabs (a - b) = 0) by lra.
    destruct (Req_dec (a - b) 0) as [E | E]; [lra |].
    apply Rabs_no_R0 in E. contradiction.
  - apply IH; [lia | lra].
Qed.

Lemma Tv_fixed_point_size (V : ndarray) (b beta : R) (p wages : ndarray) :
  Tv V b beta p wages = Ok V -> length V = length wages.
Proof.
  intros H. destruct (Tv_result V b beta p wages V H) as [s Hs].
  rewrite Hs at 1. unfold Np.maximum, divide_scalar. now rewrite !length_map.
Qed.

(** X9.  [Tv] has at most one fixed point: for [0 <= beta < 1] and a
    probability vector [p] of the size of the grid, two arrays that [Tv]
    returns unchanged are equal. *)
Theorem Tv_fixed_point_unique (V V' : ndarray) (b beta : R) (p wages : ndarray) :
  0 <= beta < 1 -> Forall (Rle 0) p -> Np.sum p = 1 -> length p = length wages ->
  Tv V b beta p wages = Ok V -> Tv V' b beta p wages = Ok V' ->
  V = V'.
Proof.
  intros [Hb0 Hb1] Hp Hsum Hlen HV HV'.
  pose proof (Tv_fixed_point_size _ _ _ _ _ HV) as LV.
  pose proof (Tv_fixed_point_size _ _ _ _ _ HV') as LV'.
  assert (Hc : sup_dist V V' <= beta * sup_dist V V').
  { rewrite (Tv_same_size V b beta p wages) in HV by congruence.
    rewrite (Tv_same_size V' b beta p wages) in HV' by congruence.
    injection HV as HV. injection HV' as HV'.
    rewrite <- HV at 1. rewrite <- HV' at 1.
    apply bellman_contraction; try assumption; congruence. }
  pose proof (sup_norm_nonneg (zip_with Rminus V V')) as Hn. fold (sup_dist V V') in Hn.
  apply sup_dist_zero; [congruence | nra].
Qed.

Lemma Tv_fixed_point_unique_witness :
  0 <= 1 / 2 < 1 /\ Forall (Rle 0) [1 / 4; 3 / 4] /\ Np.sum [1 / 4; 3 / 4] = 1
  /\ length [1 / 4; 3 / 4] = length [1; 2]
  /\ Tv [2; 4] 0 (1 / 2) [1 / 4; 3 / 4] [1; 2] = Ok [2; 4]
  /\ Tv [2; 4] 0 (1 / 2) [1 / 4; 3 / 4] [1; 2] = Ok [2; 4]
  /\ [2; 4] = [2; 4].
Proof.
  assert (H1 : 0 <= 1 / 2 < 1) by lra.
  assert (H2 : Forall (Rle 0) [1 / 4; 3 / 4]) by (repeat constructor; lra).
  assert (H3 : Np.sum [1 / 4; 3 / 4] = 1) by (unfold Np.sum; simpl; lra).
  assert (H4 : length [1 / 4; 3 / 4] = length [1; 2]) by reflexivity.
  assert (H5 : Tv [2; 4] 0 (1 / 2) [1 / 4; 3 / 4] [1; 2] = Ok [2; 4]).
  { unfold Tv, multiply, broadcast, Np.sum, Np.maximum, divide_scalar. simpl.
    f_equal. f_equal; [| f_equal].
    - replace (1 / (1 - 1 / 2)) with 2 by field. apply Rmax_left. lra.
    - replace (2 / (1 - 1 / 2)) with 4 by field. apply Rmax_left. lra. }
  repeat (split; [assumption |]).
  exact (Tv_fixed_point_unique [2; 4] [2; 4] 0 (1 / 2) [1 / 4; 3 / 4] [1; 2]
           H1 H2 H3 H4 H5 H5).
Defined.

(** X10.  Distance of a converged return to the fixed point: for
    [0 <= beta < 1], when the loop leaves before [max_iter] after one pass or
    more and [Vstar] is a fixed point of [Tv], the array returned satisfies
    [(1 - beta) * |V - Vstar| <= beta * v_tol] in the sup norm. *)
Theorem McCall_VFI_error_bound (theta beta mu sigma w_min w_max : R) (n : Z)
    (v_tol : R) (max_iter : Z) (su : setup) (s : loop_state) (Vstar : ndarray) :
  0 <= beta < 1 -> 0 < sigma -> 0 < mu -> 0 < w_min -> (0 <= n)%Z ->
  McCall_setup theta mu sigma w_min w_max n = Ok su ->
  McCall_VFI_run theta beta mu sigma w_min w_max n v_tol max_iter = Ok (Exit s) ->
  (1 <= st_iter s < max_iter)%Z ->
  Tv Vstar (su_b su) beta (su_p su) (su_wages su) = Ok Vstar ->
  (1 - beta) * sup_dist (st_V s) Vstar <= beta * v_tol.
Proof.
  intros [Hbeta _] Hs Hm Hw Hn Hsu Hrun Hit Hfix.
  destruct (McCall_setup_probabilities _ _ _ _ _ _ _ Hs Hm Hw Hn Hsu)
    as (Hp & Hsum & Hlen & Hne).
  pose proof (Tv_fixed_point_size _ _ _ _ _ Hfix) as Lstar.
  rewrite (Tv_same_size Vstar _ _ _ _) in Hfix by congruence. injection Hfix as Hfix.
  destruct (McCall_VFI_run_char theta beta mu sigma w_min w_max n v_tol max_iter
              su Hsu Hlen Hne) as (k & Hrun' & Hstop & _).
  rewrite Hrun' in Hrun. injection Hrun as <-. cbn [st_V st_iter] in *.
  destruct k as [| j]; [simpl in Hit; lia |].
  set (b := su_b su) in *. set (p := su_p su) in *. set (wages := su_wages su) in *.
  set (V := vfi_V b beta p wages (S j)).
  assert (LV : length V = length wages) by apply vfi_V_length.
  assert (Hd : vfi_dist b beta p wages (S j) <= v_tol).
  { destruct (Rle_dec (vfi_dist b beta p wages (S j)) v_tol) as [Hd | Hd];
      [exact Hd | exfalso].
    apply Hstop. split; [lra | lia]. }
  assert (H1 : sup_dist V (bellman b beta p wages V) <= beta * v_tol).
  { eapply Rle_trans;
      [apply (vfi_dist_geometric b beta p wages j); assumption |].
    now apply Rmult_le_compat_l. }
  assert (H2 : sup_dist (bellman b beta p wages V) Vstar <= beta * sup_dist V Vstar).
  { rewrite <- Hfix at 1. apply bellman_contraction; try assumption; congruence. }
  pose proof (sup_dist_triangle V (bellman b beta p wages V) Vstar
                ltac:(rewrite bellman_length; exact LV)
                ltac:(rewrite bellman_length; congruence)) as H3.
  lra.
Qed.

Lemma McCall_VFI_error_bound_witness :
  exists su s,
    0 <= 1 / 2 < 1 /\ 0 < 1 / 2 /\ 0 < 40 /\ 0 < 1 /\ (0 <= 1)%Z
    /\ McCall_setup 0 40 (1 / 2) 1 2 1 = Ok su
    /\ McCall_VFI_run 0 (1 / 2) 40 (1 / 2) 1 2 1 5 2 = Ok (Exit s)
    /\ (1 <= st_iter s < 2)%Z
    /\ Tv [2; 4] (su_b su) (1 / 2) (su_p su) (su_wages su) = Ok [2; 4]
    /\ (1 - 1 / 2) * sup_dist (st_V s) [2; 4] <= 1 / 2 * 5.
Proof.
  set (W := [1 + 0 * ((2 - 1) / 1); 1 + 1 * ((2 - 1) / 1)]).
  set (P := divide_scalar (Stats.lognorm_pdf W (1 / 2) 40)
              (Np.sum (Stats.lognorm_pdf W (1 / 2) 40))).
  set (B := 0 * Np.sum (zip_with Rmult W P)).
  assert (H0 : 0 <= 1 / 2 < 1) by lra.
  assert (H1 : 0 < 1 / 2) by lra.
  assert (H2 : 0 < 40) by lra.
  assert (H3 : 0 < 1) by lra.
  assert (H4 : (0 <= 1)%Z) by lia.
  assert (H5 : McCall_setup 0 40 (1 / 2) 1 2 1 = Ok (Setup W P B)) by reflexivity.
  destruct (McCall_setup_probabilities 0 40 (1 / 2) 1 2 1 (Setup W P B) H1 H2 H3 H4 H5)
    as (Hp & Hsum & Hlen & _).
  cbn [su_p su_wages] in Hp, Hsum, Hlen.
  assert (Hd : vfi_dist B (1 / 2) P W 1 <= 5).
  { unfold vfi_dist, vfi_V, sup_dist, bellman. simpl.
    set (c := B + 1 / 2 * _).
    assert (Hc : c = 0)
      by (unfold c, B, Np.sum; destruct P as [| p0 [| p1 P']]; simpl; lra).
    rewrite Hc.
    repeat apply Rmax_lub; try lra.
    - rewrite Rmax_left by lra. rewrite Rabs_left; lra.
    - rewrite Rmax_left by lra. rewrite Rabs_left; lra. }
  assert (H6 : McCall_VFI_run 0 (1 / 2) 40 (1 / 2) 1 2 1 5 2
               = Ok (Exit (LoopState (vfi_V B (1 / 2) P W 1)
                                     (vfi_dist B (1 / 2) P W 1) 1))).
  { apply (McCall_VFI_run_one_pass 0 (1 / 2) 40 (1 / 2) 1 2 1 5 2 (Setup W P B) H5 Hlen);
      [discriminate | lra | lia | exact Hd]. }
  assert (H7 : (1 <= st_iter (LoopState (vfi_V B (1 / 2) P W 1)
                                (vfi_dist B (1 / 2) P W 1) 1) < 2)%Z)
    by (simpl; lia).
  assert (H8 : Tv [2; 4] B (1 / 2) P W = Ok [2; 4]).
  { rewrite Tv_same_size by (rewrite Hlen; reflexivity). f_equal.
    assert (Hc : B + 1 / 2 * Np.sum (zip_with Rmult [2; 4] P) <= 2).
    { clear H5 H6 H7 Hd. unfold B. clearbody P.
      destruct P as [| p0 [| p1 [| p2 P']]]; try discriminate Hlen.
      inversion Hp as [| ? ? Hp0 Hp']; subst. inversion Hp' as [| ? ? Hp1 _]; subst.
      unfold Np.sum in *. simpl in *. lra. }
    unfold bellman.
    set (c := B + 1 / 2 * Np.sum (zip_with Rmult [2; 4] P)) in *. clearbody c.
    unfold Np.maximum, divide_scalar, W. cbn [map].
    replace ((1 + 0 * ((2 - 1) / 1)) / (1 - 1 / 2)) with 2 by field.
    replace ((1 + 1 * ((2 - 1) / 1)) / (1 - 1 / 2)) with 4 by field.
    rewrite !Rmax_left by lra. reflexivity. }
  exists (Setup W P B), (LoopState (vfi_V B (1 / 2) P W 1) (vfi_dist B (1 / 2) P W 1) 1).
  repeat (split; [assumption |]).
  exact (McCall_VFI_error_bound 0 (1 / 2) 40 (1 / 2) 1 2 1 5 2 _ _ [2; 4]
           H0 H1 H2 H3 H4 H5 H6 H7 H8).
Defined.

(** ** Root finding *)

Lemma FOC_AC_as_quotient (a b c x : R) :
  x <> 0 -> FOC_AC x (a, b, c) = (c * (x * x) - a) / (x * x).
Proof. intros Hx. unfold FOC_AC. simpl. field. exact Hx. Qed.

(** X11.  [FOC_AC] does not see the sign of [x]; for positive [a] and [c] its
    zeros are the closed form and its opposite, so a root finder started on
    the negative side can report [-(a/c)^(1/2)]. *)
Theorem FOC_AC_roots (a b c x : R) :
  0 < a -> 0 < c -> x <> 0 ->
  FOC_AC (- x) (a, b, c) = FOC_AC x (a, b, c)
  /\ (FOC_AC x (a, b, c) = 0
      <-> x = analytical_solution a c \/ x = - analytical_solution a c).
Proof.
  intros Ha Hc Hx.
  destruct (analytical_solution_sqr a c Ha Hc) as [Hpos Hsq].
  set (xh := analytical_solution a c) in *.
  assert (Hxx : 0 < x * x) by nra.
  split.
  - unfold FOC_AC. simpl. f_equal. f_equal. f_equal. ring.
  - rewrite FOC_AC_as_quotient by exact Hx. split.
    + intros H0.
      assert (Hnum : c * (x * x) - a = 0).
      { apply (Rmult_eq_compat_r (x * x)) in H0.
        unfold Rdiv in H0. rewrite Rmult_assoc, Rinv_l, Rmult_1_r, Rmult_0_l in H0 by lra.
        exact H0. }
      assert (Heq : x * x = xh * xh).
      { rewrite Hsq. apply (Rmult_eq_reg_l c); [| lra].
        replace (c * (a / c)) with a by (field; lra). lra. }
      assert (Hfac : (x - xh) * (x + xh) = 0) by lra.
      destruct (Rmult_integral _ _ Hfac); [left | right]; lra.
    + intros [-> | ->].
      * rewrite Hsq. unfold Rdiv. replace (c * (a * / c) - a) with 0 by (field; lra). lra.
      * replace (- xh * - xh) with (xh * xh) by ring.
        rewrite Hsq. unfold Rdiv. replace (c * (a * / c) - a) with 0 by (field; lra). lra.
Qed.

Lemma FOC_AC_roots_witness :
  0 < 1 /\ 0 < 3 /\ - analytical_solution 1 3 <> 0
  /\ (FOC_AC (- - analytical_solution 1 3) (1, 2, 3)
      = FOC_AC (- analytical_solution 1 3) (1, 2, 3)
      /\ (FOC_AC (- analytical_solution 1 3) (1, 2, 3) = 0
          <-> - analytical_solution 1 3 = analytical_solution 1 3
              \/ - analytical_solution 1 3 = - analytical_solution 1 3)).
Proof.
  assert (H1 : 0 < 1) by lra.
  assert (H2 : 0 < 3) by lra.
  assert (H3 : - analytical_solution 1 3 <> 0).
  { destruct (analytical_solution_sqr 1 3 H1 H2) as [Hpos _]. lra. }
  split; [exact H1 | split; [exact H2 | split; [exact H3 |]]].
  exact (FOC_AC_roots 1 2 3 (- analytical_solution 1 3) H1 H2 H3).
Defined.

(** X12.  Left of the closed form [FOC_AC] is negative and [avg_cost] falls;
    right of it [FOC_AC] is positive and [avg_cost] rises. *)
Theorem avg_cost_falls_then_rises (a b c x y : R) :
  0 < a -> 0 < c -> 0 < x < y ->
  (x < analytical_solution a c -> FOC_AC x (a, b, c) < 0)
  /\ (analytical_solution a c < x -> 0 < FOC_AC x (a, b, c))
  /\ (y <= analytical_solution a c -> avg_cost y (a, b, c) < avg_cost x (a, b, c))
  /\ (analytical_solution a c <= x -> avg_cost x (a, b, c) < avg_cost y (a, b, c)).
Proof.
  intros Ha Hc [Hx Hxy].
  destruct (analytical_solution_sqr a c Ha Hc) as [Hpos Hsq].
  set (xh := analytical_solution a c) in *.
  assert (Ha' : a = c * (xh * xh)) by (rewrite Hsq; field; lra).
  assert (Hxx : 0 < x * x) by nra.
  assert (Hxy' : 0 < x * y) by nra.
  assert (Hdiff : avg_cost x (a, b, c) - avg_cost y (a, b, c)
                  = (y - x) * (c * (xh * xh - x * y)) / (x * y)).
  { unfold avg_cost. rewrite Ha'. field. lra. }
  split; [| split; [| split]].
  - intros H. rewrite FOC_AC_as_quotient by lra.
    apply Rmult_neg_pos; [| now apply Rinv_0_lt_compat].
    assert (x * x < xh * xh) by (apply Rmult_le_0_lt_compat; lra).
    assert (c * (x * x) < c * (xh * xh)) by (apply Rmult_lt_compat_l; lra).
    lra.
  - intros H. rewrite FOC_AC_as_quotient by lra.
    apply Rmult_lt_0_compat; [| now apply Rinv_0_lt_compat].
    assert (xh * xh < x * x) by (apply Rmult_le_0_lt_compat; lra).
    assert (c * (xh * xh) < c * (x * x)) by (apply Rmult_lt_compat_l; lra).
    lra.
  - intros H.
    assert (x * y < xh * xh).
    { apply Rlt_le_trans with (xh * y).
      - apply Rmult_lt_compat_r; lra.
      - apply Rmult_le_compat_l; lra. }
    assert (0 < (y - x) * (c * (xh * xh - x * y)) / (x * y)); [| lra].
    apply Rmult_lt_0_compat; [| now apply Rinv_0_lt_compat].
    apply Rmult_lt_0_compat; [lra |]. apply Rmult_lt_0_compat; lra.
  - intros H.
    assert (xh * xh < x * y).
    { apply Rle_lt_trans with (x * xh).
      - apply Rmult_le_compat_r; lra.
      - apply Rmult_lt_compat_l; lra. }
    assert (0 < (y - x) * (c * (x * y - xh * xh)) / (x * y)).
    { apply Rmult_lt_0_compat; [| now apply Rinv_0_lt_compat].
      apply Rmult_lt_0_compat; [lra |]. apply Rmult_lt_0_compat; lra. }
    assert ((y - x) * (c * (xh * xh - x * y)) / (x * y)
            = - ((y - x) * (c * (x * y - xh * xh)) / (x * y))) by (field; lra).
    lra.
Qed.

Lemma avg_cost_falls_then_rises_witness :
  0 < 1 /\ 0 < 3 /\ 0 < 1 < 2
  /\ ((1 < analytical_solution 1 3 -> FOC_AC 1 (1, 2, 3) < 0)
      /\ (analytical_solution 1 3 < 1 -> 0 < FOC_AC 1 (1, 2, 3))
      /\ (2 <= analytical_solution 1 3 -> avg_cost 2 (1, 2, 3) < avg_cost 1 (1, 2, 3))
      /\ (analytical_solution 1 3 <= 1 -> avg_cost 1 (1, 2, 3) < avg_cost 2 (1, 2, 3))).
Proof.
  assert (H1 : 0 < 1) by lra.
  assert (H2 : 0 < 3) by lra.
  assert (H3 : 0 < 1 < 2) by lra.
  split; [exact H1 | split; [exact H2 | split; [exact H3 |]]].
  exact (avg_cost_falls_then_rises 1 2 3 1 2 H1 H2 H3).
Defined.

(** X13.  The least average cost is [b + 2 (a c)^(1/2)], taken at the closed
    form. *)
Theorem avg_cost_minimum_value (a b c : R) :
  0 < a -> 0 < c ->
  avg_cost (analytical_solution a c) (a, b, c) = b + 2 * sqrt (a * c).
Proof.
  intros Ha Hc.
  destruct (analytical_solution_sqr a c Ha Hc) as [Hpos Hsq].
  set (xh := analytical_solution a c) in *.
  assert (Ha' : a = c * (xh * xh)) by (rewrite Hsq; field; lra).
  assert (Hsqrt : sqrt (a * c) = c * xh).
  { apply sqrt_lem_1; [nra | nra |]. rewrite Ha' at 1. ring. }
  rewrite Hsqrt. unfold avg_cost. rewrite Ha' at 1. field. lra.
Qed.

Lemma avg_cost_minimum_value_witness :
  0 < 1 /\ 0 < 3
  /\ avg_cost (analytical_solution 1 3) (1, 2, 3) = 2 + 2 * sqrt (1 * 3).
Proof.
  assert (H1 : 0 < 1) by lra.
  assert (H2 : 0 < 3) by lra.
  split; [exact H1 | split; [exact H2 |]].
  exact (avg_cost_minimum_value 1 2 3 H1 H2).
Defined.

(** ** Reading a table in chunks *)

Lemma split_chunks_nil_iff (k : nat) (rows : column) :
  split_chunks k rows = [] <-> rows = [].
Proof.
  destruct rows as [| r rows]; simp split_chunks; split; intros H;
    try reflexivity; discriminate.
Qed.

Lemma split_chunks_shape_aux (k m : nat) : forall rows : column,
  (length rows <= m)%nat ->
  Forall (fun c : column => (1 <= length c <= S k)%nat) (split_chunks k rows)
  /\ (forall i, (S i < length (split_chunks k rows))%nat ->
        length (nth i (split_chunks k rows) []) = S k)
  /\ length (split_chunks k rows) = ((length rows + k) / S k)%nat.
Proof.
  induction m as [| m IH]; intros [| r l] Hlen; try (simpl in Hlen; lia).
  - rewrite split_chunks_equation_1. repeat split.
    + constructor.
    + intros i Hi. simpl in Hi. lia.
    + cbn [length]. rewrite Nat.add_0_l, Nat.div_small; [reflexivity | lia].
  - rewrite split_chunks_equation_1. repeat split.
    + constructor.
    + intros i Hi. simpl in Hi. lia.
    + cbn [length]. rewrite Nat.add_0_l, Nat.div_small; [reflexivity | lia].
  - rewrite split_chunks_equation_2.
    set (rest := skipn (S k) (r :: l)).
    assert (Hfirst : length (firstn (S k) (r :: l)) = Nat.min (S k) (length (r :: l)))
      by apply length_firstn.
    assert (Hrest : length rest = (length (r :: l) - S k)%nat) by apply length_skipn.
    cbn [length] in Hlen, Hfirst, Hrest.
    destruct (IH rest ltac:(lia)) as (IH1 & IH2 & IH3).
    repeat split.
    + constructor; [| exact IH1]. rewrite Hfirst. lia.
    + intros [| i] Hi.
      * cbn [nth]. rewrite Hfirst.
        assert (Hne : split_chunks k rest <> []).
        { intros E. cbn [length] in Hi. rewrite E in Hi. simpl in Hi. lia. }
        assert (Hr : rest <> []) by (intros E; apply Hne; now apply split_chunks_nil_iff).
        destruct rest; [congruence |]. cbn [length] in Hrest. lia.
      * cbn [nth]. apply IH2. cbn [length] in Hi. lia.
    + cbn [length]. rewrite IH3, Hrest.
      destruct (Nat.le_gt_cases (S (length l)) (S k)) as [Hle | Hgt].
      * replace (S (length l) - S k)%nat with 0%nat by lia.
        rewrite (Nat.div_small (0 + k)) by lia.
        apply (Nat.div_unique _ _ 1 (S (length l) + k - S k)); lia.
      * replace (S (length l) + k)%nat
          with ((S (length l) - S k + k) + 1 * S k)%nat by lia.
        rewrite Nat.div_add by lia. lia.
Qed.

Lemma split_chunks_shape (k : nat) (rows : column) :
  Forall (fun c : column => (1 <= length c <= S k)%nat) (split_chunks k rows)
  /\ (forall i, (S i < length (split_chunks k rows))%nat ->
        length (nth i (split_chunks k rows) []) = S k)
  /\ length (split_chunks k rows) = ((length rows + k) / S k)%nat.
Proof. apply (split_chunks_shape_aux k (length rows)). lia. Qed.

(** X14.  The chunks [pd.read_csv(..., chunksize=...)] hands to the loop of
    [chunked_data]: put end to end they are the table; each has at most
    [chunksize] rows and each but the last exactly [chunksize]; a table with
    rows gives no empty chunk and [ceil(rows / chunksize)] chunks. *)
Theorem read_csv_chunks_shape (chunksize : Z) (table : column) (chunks : list column) :
  read_csv_chunks chunksize table = Ok chunks ->
  concat chunks = table
  /\ Forall (fun c : column => (Z.of_nat (length c) <= chunksize)%Z) chunks
  /\ (forall i, (S i < length chunks)%nat ->
        Z.of_nat (length (nth i chunks [])) = chunksize)
  /\ (table <> [] ->
      Forall (fun c : column => c <> []) chunks
      /\ Z.of_nat (length chunks)
         = ((Z.of_nat (length table) + chunksize - 1) / chunksize)%Z).
Proof.
  intros H. split; [exact (read_csv_chunks_concat _ _ _ H) |].
  revert H. unfold read_csv_chunks.
  destruct (Z.ltb_spec chunksize 1) as [Hlt | Hge]; [discriminate |].
  intros [= <-]. destruct table as [| r table].
  - split; [| split].
    + repeat constructor. simpl. lia.
    + intros i Hi. simpl in Hi. lia.
    + congruence.
  - destruct (split_chunks_shape (Z.to_nat chunksize - 1) (r :: table))
      as (H1 & H2 & H3).
    replace (S (Z.to_nat chunksize - 1)) with (Z.to_nat chunksize) in * by lia.
    split; [| split].
    + eapply List.Forall_impl; [| exact H1]. intros c Hc. simpl in Hc. lia.
    + intros i Hi. rewrite (H2 i Hi). lia.
    + intros _. split.
      * eapply List.Forall_impl; [| exact H1]. intros c Hc E. subst c. simpl in Hc. lia.
      * rewrite H3.
        rewrite Nat2Z.inj_div, Nat2Z.inj_add, !Z2Nat.id by lia.
        rewrite Nat2Z.inj_sub, Z2Nat.id by lia.
        f_equal. simpl. lia.
Qed.

Lemma read_csv_chunks_shape_witness :
  read_csv_chunks 2 [Some 1; None; Some 3] = Ok [[Some 1; None]; [Some 3]]
  /\ (concat [[Some 1; None]; [Some 3]] = [Some 1; None; Some 3]
      /\ Forall (fun c : column => (Z.of_nat (length c) <= 2)%Z)
           [[Some 1; None]; [Some 3]]
      /\ (forall i, (S i < length [[Some 1; None]; [Some 3]])%nat ->
            Z.of_nat (length (nth i [[Some 1; None]; [Some 3]] [])) = 2%Z)
      /\ ([Some 1; None; Some 3] <> [] ->
          Forall (fun c : column => c <> []) [[Some 1; None]; [Some 3]]
          /\ Z.of_nat (length [[Some 1; None]; [Some 3]])
             = ((Z.of_nat (length [Some 1; None; Some 3]) + 2 - 1) / 2)%Z)).
Proof.
  assert (H : read_csv_chunks 2 [Some 1; None; Some 3] = Ok [[Some 1; None]; [Some 3]]).
  { unfold read_csv_chunks. simpl. simp split_chunks. simpl. simp split_chunks.
    reflexivity. }
  split; [exact H |].
  exact (read_csv_chunks_shape 2 [Some 1; None; Some 3] [[Some 1; None]; [Some 3]] H).
Defined.

Lemma chunked_data_value (table : column) :
  chunked_data table = Ok (series_mean table).
Proof.
  unfold chunked_data.
  destruct (read_csv_chunks 100000 table) as [cs | e] eqn:E.
  - cbn [bind]. rewrite chunked_loop_concat, (read_csv_chunks_concat _ _ _ E).
    reflexivity.
  - unfold read_csv_chunks in E.
    change (100000 <? 1)%Z with false in E. discriminate.
Qed.

Lemma series_count_nonneg (c : column) : (0 <= series_count c)%Z.
Proof.
  induction c as [| [x |] c IH]; simpl; [lia | | exact IH].
  fold (series_count c). lia.
Qed.

Lemma series_count_zero (c : column) :
  series_count c = 0%Z <-> Forall (fun v => v = None) c.
Proof.
  induction c as [| [x |] c IH]; simpl.
  - split; [constructor | reflexivity].
  - fold (series_count c). pose proof (series_count_nonneg c). split.
    + intros H0. lia.
    + intros HF. inversion HF; discriminate.
  - fold (series_count c). rewrite IH. split.
    + intros HF. now constructor.
    + intros HF. now inversion HF.
Qed.

(** X15.  [chunked_data] never raises, and the mean it prints is undefined
    exactly when the column has no present entry (no rows, or missing values
    only), as for [full_data]. *)
Theorem chunked_data_undefined (table : column) :
  (exists m, chunked_data table = Ok m)
  /\ (chunked_data table = Ok None <-> Forall (fun v => v = None) table)
  /\ (full_data table = None <-> Forall (fun v => v = None) table).
Proof.
  assert (H : series_mean table = None <-> Forall (fun v => v = None) table).
  { rewrite <- series_count_zero. unfold series_mean, true_divide.
    destruct (Z.eqb_spec (series_count table) 0); split; congruence. }
  rewrite chunked_data_value. split; [eexists; reflexivity |]. split.
  - rewrite <- H. split; [now intros [= ->] | now intros ->].
  - exact H.
Qed.

Lemma series_sum_bounds (lo hi : R) (c : column) :
  Forall (fun v => match v with Some x => lo <= x <= hi | None => True end) c ->
  lo * IZR (series_count c) <= series_sum c <= hi * IZR (series_count c).
Proof.
  induction 1 as [| [x |] c Hx _ IH]; simpl.
  - lra.
  - fold (series_count c) (series_sum c). rewrite plus_IZR. lra.
  - exact IH.
Qed.

(** X16.  The mean [chunked_data] prints lies between any bounds of the
    present entries. *)
Theorem chunked_data_between (lo hi : R) (table : column) (m : R) :
  Forall (fun v => match v with Some x => lo <= x <= hi | None => True end) table ->
  chunked_data table = Ok (Some m) ->
  lo <= m <= hi.
Proof.
  intros Hb. rewrite chunked_data_value. unfold series_mean, true_divide.
  destruct (Z.eqb_spec (series_count table) 0) as [E | Hne]; [discriminate |].
  intros [= <-].
  pose proof (series_sum_bounds lo hi table Hb) as [H1 H2].
  pose proof (series_count_nonneg table).
  assert (Hc : 0 < IZR (series_count table)) by (apply IZR_lt; lia).
  assert (Hinv : 0 < / IZR (series_count table)) by now apply Rinv_0_lt_compat.
  unfold Rdiv. split.
  - replace lo with (lo * IZR (series_count table) * / IZR (series_count table))
      by (field; lra).
    apply Rmult_le_compat_r; lra.
  - replace hi with (hi * IZR (series_count table) * / IZR (series_count table))
      by (field; lra).
    apply Rmult_le_compat_r; lra.
Qed.

Lemma chunked_data_between_witness :
  Forall (fun v => match v with Some x => 1 <= x <= 3 | None => True end)
    [Some 1; None; Some 3]
  /\ chunked_data [Some 1; None; Some 3] = Ok (Some ((1 + (3 + 0)) / IZR (1 + (1 + 0))))
  /\ 1 <= (1 + (3 + 0)) / IZR (1 + (1 + 0)) <= 3.
Proof.
  assert (H1 : Forall (fun v => match v with Some x => 1 <= x <= 3 | None => True end)
                 [Some 1; None; Some 3]) by (repeat constructor; lra).
  assert (H2 : chunked_data [Some 1; None; Some 3]
               = Ok (Some ((1 + (3 + 0)) / IZR (1 + (1 + 0)))))
    by (rewrite chunked_data_value; reflexivity).
  split; [exact H1 | split; [exact H2 |]].
  exact (chunked_data_between 1 3 [Some 1; None; Some 3] _ H1 H2).
Defined.

(** ** The writing cells of the Dask notebook *)

Section NotebookFrame.

Variable bytes : Type.
Variable merged_csv : bytes -> bytes.
Variable merged_part_csv : bytes -> bytes.

Lemma cell_bind_frame {A B : Type} (c : cell bytes A) (k : A -> cell bytes B)
    (path : string) :
  (forall fs, snd (c fs) !! path = fs !! path) ->
  (forall a fs, snd (k a fs) !! path = fs !! path) ->
  forall fs, snd (cell_bind bytes c k fs) !! path = fs !! path.
Proof.
  intros Hc Hk fs. unfold cell_bind. specialize (Hc fs).
  destruct (c fs) as [[a | e] fs']; simpl in *.
  - now rewrite Hk.
  - exact Hc.
Qed.

Lemma read_file_frame (src path : string) (fs : gmap string (node bytes)) :
  snd (read_file bytes src fs) !! path = fs !! path.
Proof. unfold read_file. destruct (fs !! src) as [[c |] |]; reflexivity. Qed.

Lemma pandas_to_csv_frame (dir name : string) (content : bytes) (path : string)
    (fs : gmap string (node bytes)) :
  path <> path_join dir name ->
  snd (pandas_to_csv bytes dir name content fs) !! path = fs !! path.
Proof.
  intros Hne. unfold pandas_to_csv.
  destruct (fs !! dir) as [[c |] |]; try reflexivity.
  destruct (fs !! path_join dir name) as [[c |] |]; simpl;
    try reflexivity; now rewrite lookup_insert_ne.
Qed.

Lemma dask_to_csv_frame (dir name : string) (content : bytes) (path : string)
    (fs : gmap string (node bytes)) :
  path <> path_join dir name ->
  path <> path_join (path_join dir name) "0.part" ->
  snd (dask_to_csv bytes dir name content fs) !! path = fs !! path.
Proof.
  intros H1 H2. unfold dask_to_csv.
  destruct (fs !! path_join dir name) as [[c |] |]; simpl;
    try reflexivity; now rewrite !lookup_insert_ne.
Qed.

Lemma os_remove_frame (target path : string) (fs : gmap string (node bytes)) :
  path <> target -> snd (os_remove bytes target fs) !! path = fs !! path.
Proof.
  intros Hne. unfold os_remove.
  destruct (fs !! target) as [[c |] |]; simpl; try reflexivity.
  now rewrite lookup_delete_ne.
Qed.

Lemma shell_frame (c : cell bytes unit) (path : string) :
  (forall fs, snd (c fs) !! path = fs !! path) ->
  forall fs, snd (shell bytes c fs) !! path = fs !! path.
Proof. intros Hc fs. unfold shell. simpl. apply Hc. Qed.

Lemma dask_to_csv_not_file (dir name : string) (content : bytes)
    (fs : gmap string (node bytes)) :
  (forall c, fs !! path_join dir name <> Some (File c)) ->
  dask_to_csv bytes dir name content fs
  = (Ok tt,
     <[path_join (path_join dir name) "0.part" := File content]>
       (<[path_join dir name := Dir]> fs)).
Proof.
  intros H. unfold dask_to_csv.
  destruct (fs !! path_join dir name) as [[c |] |]; try reflexivity.
  now destruct (H c).
Qed.

End NotebookFrame.

(** X17.  Whatever the file system and whatever the outcome, the writing
    cells and the clean-up cell touch three paths only:
    [trade_merged_pd.csv], [trade_merged_dd.csv] and its [0.part]; every
    other entry of the data directory, the input files among them, is after
    the run what it was before. *)
Theorem run_writing_cells_frame (bytes : Type) (merged_csv merged_part_csv : bytes -> bytes)
    (df ddf : bytes) (fs : gmap string (node bytes)) (path : string) :
  path <> path_join DATA_DIR "trade_merged_pd.csv" ->
  path <> path_join DATA_DIR "trade_merged_dd.csv" ->
  path <> path_join (path_join DATA_DIR "trade_merged_dd.csv") "0.part" ->
  snd (run_writing_cells bytes merged_csv merged_part_csv df ddf fs) !! path
  = fs !! path.
Proof.
  intros Hpd Hdd Hdd0. revert fs. unfold run_writing_cells.
  apply cell_bind_frame.
  { intros fs. now apply pandas_to_csv_frame. }
  intros _. apply cell_bind_frame.
  { intros fs. now apply dask_to_csv_frame. }
  intros _. apply cell_bind_frame.
  { apply shell_frame. apply cell_bind_frame.
    - intros fs. apply read_file_frame.
    - intros a fs. now apply pandas_to_csv_frame. }
  intros _. apply cell_bind_frame.
  { apply shell_frame. apply cell_bind_frame.
    - intros fs. apply read_file_frame.
    - intros a fs. now apply pandas_to_csv_frame. }
  intros _. apply cell_bind_frame.
  { intros fs. now apply os_remove_frame. }
  intros _ fs. now apply os_remove_frame.
Qed.

Lemma run_writing_cells_frame_witness :
  DATA_FILE2 <> path_join DATA_DIR "trade_merged_pd.csv"
  /\ DATA_FILE2 <> path_join DATA_DIR "trade_merged_dd.csv"
  /\ DATA_FILE2 <> path_join (path_join DATA_DIR "trade_merged_dd.csv") "0.part"
  /\ snd (run_writing_cells string (fun s => s) (fun s => s) "df" "ddf"
            (data_dir_before string "trade" "trade_2022" "sitc")) !! DATA_FILE2
     = data_dir_before string "trade" "trade_2022" "sitc" !! DATA_FILE2.
Proof.
  assert (H1 : DATA_FILE2 <> path_join DATA_DIR "trade_merged_pd.csv") by path_neq.
  assert (H2 : DATA_FILE2 <> path_join DATA_DIR "trade_merged_dd.csv") by path_neq.
  assert (H3 : DATA_FILE2
               <> path_join (path_join DATA_DIR "trade_merged_dd.csv") "0.part")
    by path_neq.
  split; [exact H1 | split; [exact H2 | split; [exact H3 |]]].
  exact (run_writing_cells_frame string (fun s => s) (fun s => s) "df" "ddf"
           (data_dir_before string "trade" "trade_2022" "sitc") DATA_FILE2 H1 H2 H3).
Defined.

(** X18.  What pandas writes, the clean-up undoes: [pd_profile_func]
    followed by [os.remove] of [trade_merged_pd.csv] succeeds and gives back
    the file system it started from, when the data directory exists and did
    not hold that file. *)
Theorem pd_profile_func_then_remove (bytes : Type) (merged_csv : bytes -> bytes)
    (df : bytes) (fs : gmap string (node bytes)) :
  fs !! DATA_DIR = Some Dir ->
  fs !! path_join DATA_DIR "trade_merged_pd.csv" = None ->
  cell_bind bytes (pd_profile_func bytes merged_csv df)
    (fun _ => os_remove bytes (path_join DATA_DIR "trade_merged_pd.csv")) fs
  = (Ok tt, fs).
Proof.
  intros Hdir Hpd.
  rewrite (cell_bind_ok bytes _ _ fs
             (<[path_join DATA_DIR "trade_merged_pd.csv" := File (merged_csv df)]> fs) tt).
  - rewrite (os_remove_file bytes _ (merged_csv df)) by apply lookup_insert_eq.
    now rewrite delete_insert_eq, delete_id.
  - apply pandas_to_csv_ok; [exact Hdir | congruence].
Qed.

Lemma pd_profile_func_then_remove_witness :
  data_dir_before string "trade" "trade_2022" "sitc" !! DATA_DIR = Some Dir
  /\ data_dir_before string "trade" "trade_2022" "sitc"
     !! path_join DATA_DIR "trade_merged_pd.csv" = None
  /\ cell_bind string (pd_profile_func string (fun s => s) "df")
       (fun _ => os_remove string (path_join DATA_DIR "trade_merged_pd.csv"))
       (data_dir_before string "trade" "trade_2022" "sitc")
     = (Ok tt, data_dir_before string "trade" "trade_2022" "sitc").
Proof.
  assert (H1 : data_dir_before string "trade" "trade_2022" "sitc" !! DATA_DIR = Some Dir)
    by (unfold data_dir_before; lookup_path).
  assert (H2 : data_dir_before string "trade" "trade_2022" "sitc"
               !! path_join DATA_DIR "trade_merged_pd.csv" = None)
    by (unfold data_dir_before; lookup_path).
  split; [exact H1 | split; [exact H2 |]].
  exact (pd_profile_func_then_remove string (fun s => s) "df" _ H1 H2).
Defined.

(** X19.  The clean-up cell succeeds exactly when both output paths are
    plain files, and then it deletes these two entries and nothing else. *)
Theorem cleanup_succeeds_iff (bytes : Type) (fs : gmap string (node bytes)) :
  (fst (cleanup bytes fs) = Ok tt
   <-> exists c1 c2,
         fs !! path_join DATA_DIR "trade_merged_pd.csv" = Some (File c1)
         /\ fs !! path_join DATA_DIR "trade_merged_dd.csv" = Some (File c2))
  /\ (fst (cleanup bytes fs) = Ok tt ->
      snd (cleanup bytes fs)
      = delete (path_join DATA_DIR "trade_merged_dd.csv")
          (delete (path_join DATA_DIR "trade_merged_pd.csv") fs)).
Proof.
  set (pd := path_join DATA_DIR "trade_merged_pd.csv").
  set (dd := path_join DATA_DIR "trade_merged_dd.csv").
  assert (Hne : dd <> pd) by path_neq.
  unfold cleanup, cell_bind, os_remove. fold pd dd.
  destruct (fs !! pd) as [[c1 |] |] eqn:Epd; simpl.
  - rewrite lookup_delete_ne by congruence.
    destruct (fs !! dd) as [[c2 |] |] eqn:Edd; simpl.
    + split; [| reflexivity]. split; [| reflexivity]. intros _. now exists c1, c2.
    + split; [| discriminate]. split; [discriminate |].
      intros (? & ? & _ & ?). discriminate.
    + split; [| discriminate]. split; [discriminate |].
      intros (? & ? & _ & ?). discriminate.
  - split; [| discriminate]. split; [discriminate |].
    intros (? & ? & ? & _). discriminate.
  - split; [| discriminate]. split; [discriminate |].
    intros (? & ? & ? & _). discriminate.
Qed.

Lemma run_writing_cells_not_file (bytes : Type)
    (merged_csv merged_part_csv : bytes -> bytes)
    (df ddf : bytes) (fs : gmap string (node bytes)) :
  fs !! DATA_DIR = Some Dir ->
  fs !! path_join DATA_DIR "trade_merged_pd.csv" = None ->
  (forall c, fs !! path_join DATA_DIR "trade_merged_dd.csv" <> Some (File c)) ->
  run_writing_cells bytes merged_csv merged_part_csv df ddf fs
  = (Raise IsADirectoryError,
     <[path_join (path_join DATA_DIR "trade_merged_dd.csv") "0.part"
       := File (merged_part_csv ddf)]>
       (<[path_join DATA_DIR "trade_merged_dd.csv" := Dir]> fs)).
Proof.
  intros Bdir Bpd Bdd.
  set (pd := path_join DATA_DIR "trade_merged_pd.csv") in *.
  set (dd := path_join DATA_DIR "trade_merged_dd.csv") in *.
  set (dd0 := path_join dd "0.part") in *.
  set (s1 := <[pd := File (merged_csv df)]> fs).
  set (s2 := <[dd0 := File (merged_part_csv ddf)]> (<[dd := Dir]> s1)).
  assert (E1 : pd_profile_func bytes merged_csv df fs = (Ok tt, s1)).
  { apply pandas_to_csv_ok; [assumption | fold pd; congruence]. }
  assert (E2 : dd_profile_func bytes merged_part_csv ddf s1 = (Ok tt, s2)).
  { apply dask_to_csv_not_file. fold dd. intros c. unfold s1.
    rewrite lookup_insert_ne by path_neq. apply Bdd. }
  assert (D2 : s2 !! DATA_DIR = Some Dir)
    by (unfold s2, s1, pd, dd0, dd; lookup_path).
  assert (P2 : s2 !! pd = Some (File (merged_csv df)))
    by (unfold s2, s1, pd, dd0, dd; lookup_path).
  destruct (shell_script_writes_pd bytes merged_csv DATA_FILE2 _ s2 D2 P2)
    as (c3 & E3).
  fold pd in E3. set (s3 := <[pd := File c3]> s2) in *.
  assert (D3 : s3 !! DATA_DIR = Some Dir)
    by (unfold s3, pd; rewrite lookup_insert_ne by path_neq; exact D2).
  assert (P3 : s3 !! pd = Some (File c3)) by apply lookup_insert_eq.
  destruct (shell_script_writes_pd bytes merged_csv
              (path_join DATA_DIR "trade_data_2022.csv") _ s3 D3 P3)
    as (c4 & E4).
  fold pd in E4. set (s4 := <[pd := File c4]> s3) in *.
  assert (E5 : cleanup bytes s4 = (Raise IsADirectoryError, delete pd s4)).
  { unfold cleanup. fold pd dd.
    rewrite (cell_bind_ok bytes _ _ s4 (delete pd s4) tt)
      by (apply (os_remove_file bytes pd c4); apply lookup_insert_eq).
    apply os_remove_dir. rewrite lookup_delete_ne by path_neq.
    unfold s4, s3, s2, s1, pd, dd0, dd. lookup_path. }
  unfold run_writing_cells, pandas_mem_profile, dask_mem_profile.
  rewrite (cell_bind_ok bytes _ _ _ _ _ E1), (cell_bind_ok bytes _ _ _ _ _ E2),
    (cell_bind_ok bytes _ _ _ _ _ E3), (cell_bind_ok bytes _ _ _ _ _ E4), E5.
  f_equal. unfold s4, s3. rewrite !delete_insert_eq.
  unfold s2. rewrite !delete_insert_ne by path_neq.
  unfold s1. rewrite delete_insert_eq. now rewrite delete_id.
Qed.

(** X20.  Running the writing cells and the clean-up again changes nothing
    more: on a data directory without [trade_merged_pd.csv] and with no plain
    file at [trade_merged_dd.csv], a run ends with [IsADirectoryError], and
    a second run on the file system it leaves ends the same way on the same
    file system. *)
Theorem run_writing_cells_again (bytes : Type) (merged_csv merged_part_csv : bytes -> bytes)
    (df ddf : bytes) (fs : gmap string (node bytes)) :
  fs !! DATA_DIR = Some Dir ->
  fs !! path_join DATA_DIR "trade_merged_pd.csv" = None ->
  (forall c, fs !! path_join DATA_DIR "trade_merged_dd.csv" <> Some (File c)) ->
  exists fs',
    run_writing_cells bytes merged_csv merged_part_csv df ddf fs
    = (Raise IsADirectoryError, fs')
    /\ run_writing_cells bytes merged_csv merged_part_csv df ddf fs'
       = (Raise IsADirectoryError, fs').
Proof.
  intros Bdir Bpd Bdd.
  set (dd := path_join DATA_DIR "trade_merged_dd.csv") in *.
  set (dd0 := path_join dd "0.part").
  set (fs' := <[dd0 := File (merged_part_csv ddf)]> (<[dd := Dir]> fs)).
  exists fs'. split.
  - now apply run_writing_cells_not_file.
  - assert (Hdd : fs' !! dd = Some Dir) by (unfold fs', dd0, dd; lookup_path).
    assert (Hdd0 : fs' !! dd0 = Some (File (merged_part_csv ddf)))
      by apply lookup_insert_eq.
    rewrite run_writing_cells_not_file.
    + fold dd dd0. f_equal. now rewrite (insert_id fs' dd), (insert_id fs' dd0).
    + unfold fs', dd0, dd. lookup_path.
    + unfold fs', dd0, dd. lookup_path.
    + fold dd. intros c. rewrite Hdd. discriminate.
Qed.

Lemma run_writing_cells_again_witness :
  data_dir_before string "trade" "trade_2022" "sitc" !! DATA_DIR = Some Dir
  /\ data_dir_before string "trade" "trade_2022" "sitc"
     !! path_join DATA_DIR "trade_merged_pd.csv" = None
  /\ (forall c, data_dir_before string "trade" "trade_2022" "sitc"
                !! path_join DATA_DIR "trade_merged_dd.csv" <> Some (File c))
  /\ exists fs',
       run_writing_cells string (fun s => s) (fun s => s) "df" "ddf"
         (data_dir_before string "trade" "trade_2022" "sitc")
       = (Raise IsADirectoryError, fs')
       /\ run_writing_cells string (fun s => s) (fun s => s) "df" "ddf" fs'
          = (Raise IsADirectoryError, fs').
Proof.
  assert (H1 : data_dir_before string "trade" "trade_2022" "sitc" !! DATA_DIR = Some Dir)
    by (unfold data_dir_before; lookup_path).
  assert (H2 : data_dir_before string "trade" "trade_2022" "sitc"
               !! path_join DATA_DIR "trade_merged_pd.csv" = None)
    by (unfold data_dir_before; lookup_path).
  assert (H3 : forall c, data_dir_before string "trade" "trade_2022" "sitc"
                         !! path_join DATA_DIR "trade_merged_dd.csv" <> Some (File c)).
  { intros c.
    assert (E : data_dir_before string "trade" "trade_2022" "sitc"
                !! path_join DATA_DIR "trade_merged_dd.csv" = None)
      by (unfold data_dir_before; lookup_path).
    rewrite E. discriminate. }
  split; [exact H1 | split; [exact H2 | split; [exact H3 |]]].
  exact (run_writing_cells_again string (fun s => s) (fun s => s) "df" "ddf" _ H1 H2 H3).
Defined.
